(** * Plex MCP Account Finder: the account aggregation manager

    A shallow embedding of [src/cache.ts] (the expiring cache),
    [src/plexClient.ts] (the directory client adapter),
    [src/plexManager.ts] (the aggregation manager) and the status tool
    of [src/index.ts], followed by the properties the specification
    states about them and further properties of the code.

    Conventions of the embedding:
    - JavaScript strings are [string]; [toLowerCase] and [trim] act on the
      ASCII range (letters [A-Z], the white space characters TAB, LF, VT,
      FF, CR and SPACE) and leave every other character alone.
    - Numeric identifiers and times are integers ([Z]); a template literal
      prints an integer in decimal.  Match scores are rationals ([Q]).
    - [x | null] and optional fields are [option].
    - [Map] keeps insertion order and is an association list ([JsMap]);
      [Set<string>] is a [gset string]; the cache store is a [gmap].
    - The remote service, the wall clock and the random identifier source
      form the environment [Env].  A manager call proceeds in steps: a
      request, a cache access or a fresh identifier is one step, and the
      environment answers as a function of the step index, so the
      theorems hold for every behaviour of the service and every passage
      of time between steps.
    - [async] functions run to completion one after the other; a rejected
      promise or a thrown exception is the [Err] result.  Logging is left
      out.
    - [new Date()] in the status tool reads the clock of the current
      step and is not a step of its own; [toISOString] is left out, the
      reading itself stands for the printed time. *)

From Stdlib Require Import ZArith QArith Ascii String List Sorting.Sorted.
From stdpp Require Import base tactics option list strings gmap pretty sorting.

Local Open Scope string_scope.
Local Open Scope list_scope.
Local Open Scope Z_scope.

(** ** JavaScript strings *)

Module JsString.

(** [String.prototype.toLowerCase], ASCII range. *)
Definition lowerAscii (c : ascii) : ascii :=
  let n := nat_of_ascii c in
  if bool_decide (65 ≤ n ≤ 90)%nat then ascii_of_nat (n + 32) else c.

Fixpoint toLowerCase (s : string) : string :=
  match s with
  | EmptyString => EmptyString
  | String c rest => String (lowerAscii c) (toLowerCase rest)
  end.

(** White space and line terminators removed by [String.prototype.trim]. *)
Definition isSpace (c : ascii) : bool :=
  let n := nat_of_ascii c in
  bool_decide (9 ≤ n ≤ 13)%nat || bool_decide (n = 32%nat).

Fixpoint trimStart (s : string) : string :=
  match s with
  | EmptyString => EmptyString
  | String c rest => if isSpace c then trimStart rest else s
  end.

(** [trimEnd s] drops the trailing white space: a suffix made of white
    space only becomes empty. *)
Fixpoint trimEnd (s : string) : string :=
  match s with
  | EmptyString => EmptyString
  | String c rest =>
      match trimEnd rest with
      | EmptyString => if isSpace c then EmptyString else String c EmptyString
      | rest' => String c rest'
      end
  end.

Definition trim (s : string) : string := trimEnd (trimStart s).

(** Truthiness of a string value: the empty string is falsy. *)
Definition truthy (s : string) : bool := negb (bool_decide (s = "")).

(** Truthiness of [string | null | undefined]. *)
Definition truthyOpt (s : option string) : bool :=
  match s with
  | Some s => truthy s
  | None => false
  end.

(** [a || b] on possibly absent strings. *)
Definition orElse (a b : option string) : option string :=
  if truthyOpt a then a else b.

(** [a || b] with [b] a string. *)
Definition orDefault (a : option string) (b : string) : string :=
  match a with
  | Some s => if truthy s then s else b
  | None => b
  end.

(** An integer inside a template literal. *)
Definition ofZ (z : Z) : string := pretty z.

End JsString.

(** ** src/cache.ts *)

Module TTLCache.

Record CacheEntry (V : Type) : Type := mkEntry {
  value : V;
  expiresAt : Z;
}.
Arguments mkEntry {V} _ _.
Arguments value {V} _.
Arguments expiresAt {V} _.

Section Cache.
Context {K : Type} `{Countable K} {V : Type}.

Record t : Type := mk {
  store : gmap K (CacheEntry V);
  ttlMs : Z;
}.

(** [new TTLCache(ttlMs)] *)
Definition create (ttl : Z) : t := {| store := ∅; ttlMs := ttl |}.

(** [get(key)]; [now] is the reading of [Date.now()]. *)
Definition get (now : Z) (key : K) (c : t) : option V * t :=
  match store c !! key with
  | None => (None, c)
  | Some entry =>
      if bool_decide (now > expiresAt entry)
      then (None, {| store := delete key (store c); ttlMs := ttlMs c |})
      else (Some (value entry), c)
  end.

(** [set(key, value)] *)
Definition set (now : Z) (key : K) (v : V) (c : t) : t :=
  {| store := <[key := mkEntry v (now + ttlMs c)]> (store c);
     ttlMs := ttlMs c |}.

(** [clear(key?)] *)
Definition clear (key : option K) (c : t) : t :=
  match key with
  | None => {| store := ∅; ttlMs := ttlMs c |}
  | Some k => {| store := delete k (store c); ttlMs := ttlMs c |}
  end.
End Cache.

Arguments t _ {_ _} _.

End TTLCache.

(** ** src/types.ts *)

Module PlexServerConnection.
Record t : Type := mk {
  protocol : string;
  address : string;
  port : Z;
  uri : string;
}.
End PlexServerConnection.

Module PlexResource.
Record t : Type := mk {
  name : string;
  provides : string;
  machineIdentifier : string;
  owned : bool;
  product : string;
  version : string;
  platform : string;
  uri : string;
  connections : list PlexServerConnection.t;
}.
End PlexResource.

Module PlexServer.
Record t : Type := mk {
  name : string;
  friendlyName : string;
  machineIdentifier : string;
  host : string;
  port : Z;
  scheme : string;
  uri : string;
  product : string;
  version : string;
  platform : string;
  owned : bool;
  accountLabel : string;
}.
End PlexServer.

Module PlexUserAccess.
Record t : Type := mk {
  id : option Z;
  uuid : option string;
  username : option string;
  title : option string;
  email : option string;
  restricted : option bool;
  home : option bool;
  guest : option bool;
  canInvite : option bool;
  serverIdentifier : string;
  serverName : string;
  accountLabel : string;
}.
End PlexUserAccess.

(** [ConfigAccount & { clientIdentifier: string }]: an account as the
    manager's constructor stores it, the client identifier already filled
    in (from the configuration or from the label's digest). *)
Module Account.
Record t : Type := mk {
  label : string;
  token : string;
  clientIdentifier : string;
}.
End Account.

(** ** The remote service as seen by the adapter *)

(** An attribute value of unknown type, as [normalizeBoolean] inspects it. *)
Inductive JsValue : Type :=
  | JsUndefined
  | JsNull
  | JsBool (b : bool)
  | JsNumber (n : Z)
  | JsString (s : string)
  | JsObject.

(** The [id] attribute of an account node: missing, a number (JSON), or a
    non-empty numeric string (XML), given by its value. *)
Inductive IdAttr : Type :=
  | IdMissing
  | IdNumber (n : Z)
  | IdText (n : Z).

(** The attributes [mapAccountNode] reads from an account or shared-user
    node ([node.$ ?? node]); both spellings of a field are kept. *)
Module AccountNode.
Record t : Type := mk {
  id : IdAttr;
  uuid : option string;
  UUID : option string;
  username : option string;
  name : option string;
  title : option string;
  friendlyName : option string;
  email : option string;
  Email : option string;
  restricted : JsValue;
  home : JsValue;
  guest : JsValue;
  canInvite : JsValue;
}.
End AccountNode.

(** One [SharedServer] element with its [SharedUser] children. *)
Module SharedServerNode.
Record t : Type := mk {
  attrs : AccountNode.t;
  SharedUser : list AccountNode.t;
}.
End SharedServerNode.

(** [data.user] of [/users/account.json]. *)
Module UserNode.
Record t : Type := mk {
  username : option string;
  title : option string;
  email : option string;
}.
End UserNode.

(** [response.data.pin] of the PIN end points. *)
Module PinNode.
Record t : Type := mk {
  id : Z;
  code : string;
  expiresAt : string;
  authToken : option string;
}.
End PinNode.

(** The body of a successful response, by the shape the adapter looks
    for.  A body of another shape than the one a function expects reads
    as a body in which the expected fields are absent.
    - [AccountJson user]: [data.user] of the account end point.
    - [ResourcesXml devices]: the parsed [Device] elements, each with its
      attributes and connections already in the shape of a
      [PlexResource] (the renaming of attributes and the conversions of
      [owned] and [port] are part of the parsing).
    - [ServerRootJson mc]: the root of a server; [mc] is [None] when
      [data.MediaContainer] is absent, else its [friendlyName].
    - [AccountsJson accounts]: [data.MediaContainer.Account].
    - [SharedServersXml sharedServers]: [MediaContainer.SharedServer].
    - [PinJson pin]: [response.data.pin] of the PIN end points. *)
Inductive Payload : Type :=
  | AccountJson (user : option UserNode.t)
  | ResourcesXml (devices : list PlexResource.t)
  | ServerRootJson (mediaContainerFriendlyName : option (option string))
  | AccountsJson (accounts : list AccountNode.t)
  | SharedServersXml (sharedServers : list SharedServerNode.t)
  | PinJson (pin : option PinNode.t)
  | OtherBody.

Inductive Response : Type :=
  | Failure (message : string)
  | Success (data : Payload).

Inductive Method : Type := GET | POST.

Record Request : Type := mkRequest {
  method : Method;
  url : string;
  headers : list (string * string);
  timeout : Z;
  responseType : option string;
  body : option string;
}.

(** The environment: what the clock, the remote service and the random
    identifier source answer at each step of the manager. *)
Record Env : Type := mkEnv {
  clock : nat → Z;
  http : nat → Request → Response;
  uuid : nat → string;
}.

(** ** Manager state and the monad of manager code *)

Inductive Error : Type :=
  | RequestFailed (message : string)
  | TypeError (message : string)
  | NoAccountForLabel (label : string).

Inductive Result (A : Type) : Type :=
  | Ok (a : A)
  | Err (e : Error).
Arguments Ok {A} _.
Arguments Err {A} _.

(** Adapter operations, for the log of adapter calls. *)
Inductive AdapterOp : Type :=
  | ValidateToken
  | GetResources
  | ConnectToServer
  | FetchServerUsers
  | CreateAuthPin
  | CheckAuthPin.

Inductive Event : Type :=
  | Called (op : AdapterOp)
  | Sent (r : Request).

Record World : Type := mkWorld {
  step : nat;
  serverCache : TTLCache.t string (list PlexServer.t);
  userCache : TTLCache.t string (list PlexUserAccess.t);
  trace : list Event;
}.

Definition M (A : Type) : Type := World → Result A * World.

Definition ret {A} (a : A) : M A := λ w, (Ok a, w).

Definition throw {A} (e : Error) : M A := λ w, (Err e, w).

Definition bind {A B} (m : M A) (k : A → M B) : M B :=
  λ w, match m w with
       | (Ok a, w') => k a w'
       | (Err e, w') => (Err e, w')
       end.

(** [try { m } catch (error) { handler(error) }] *)
Definition tryCatch {A} (m : M A) (handler : Error → M A) : M A :=
  λ w, match m w with
       | (Ok a, w') => (Ok a, w')
       | (Err e, w') => handler e w'
       end.

Notation "'let*' x ':=' m 'in' k" := (bind m (λ x, k))
  (at level 10, x pattern, m at level 100, k at level 200, only parsing).
Notation "m ';;' k" := (bind m (λ _, k))
  (at level 100, k at level 200, right associativity, only parsing).

Definition tick (w : World) : World :=
  {| step := S (step w); serverCache := serverCache w;
     userCache := userCache w; trace := trace w |}.

Definition record (e : Event) (w : World) : World :=
  {| step := step w; serverCache := serverCache w;
     userCache := userCache w; trace := trace w ++ [e] |}.

Definition called (op : AdapterOp) : M unit := λ w, (Ok tt, record (Called op) w).

(** ** src/plexClient.ts *)

Definition PLEX_API_BASE : string := "https://plex.tv".
Definition PLEX_PRODUCT : string := "Plex MCP Account Finder".
Definition PLEX_VERSION : string := "0.1.0".
Definition PLEX_PLATFORM : string := "Node".
Definition PLEX_DEVICE : string := "MCP".
Definition DEFAULT_TIMEOUT_MS : Z := 15000.

Module RequestOptions.
Record t : Type := mk {
  token : option string;
  clientIdentifier : option string;
  timeoutMs : option Z;
  responseType : option string;
}.
Definition empty : t := mk None None None None.
End RequestOptions.

(** URL encoding of [URLSearchParams.prototype.toString]. *)
Module UrlEncode.

Definition hexDigit (n : nat) : ascii :=
  if bool_decide (n < 10)%nat then ascii_of_nat (48 + n) else ascii_of_nat (55 + n).

Definition unreserved (c : ascii) : bool :=
  let n := nat_of_ascii c in
  bool_decide (48 ≤ n ≤ 57)%nat || bool_decide (65 ≤ n ≤ 90)%nat
  || bool_decide (97 ≤ n ≤ 122)%nat
  || bool_decide (n = 42)%nat || bool_decide (n = 45)%nat
  || bool_decide (n = 46)%nat || bool_decide (n = 95)%nat.

Fixpoint encode (s : string) : string :=
  match s with
  | EmptyString => EmptyString
  | String c rest =>
      let n := nat_of_ascii c in
      if unreserved c then String c (encode rest)
      else if bool_decide (n = 32)%nat then String "+"%char (encode rest)
      else String "%"%char
             (String (hexDigit (n / 16)) (String (hexDigit (n mod 16)) (encode rest)))
  end.

Fixpoint params (kvs : list (string * string)) : string :=
  match kvs with
  | [] => ""
  | [(k, v)] => encode k +:+ "=" +:+ encode v
  | (k, v) :: rest => encode k +:+ "=" +:+ encode v +:+ "&" +:+ params rest
  end.

End UrlEncode.

(** [Map<string, V>]: insertion-ordered. *)
Module JsMap.
Definition t (V : Type) : Type := list (string * V).

Definition has {V} (key : string) (m : t V) : bool :=
  bool_decide (key ∈ m.*1).

Fixpoint set {V} (key : string) (v : V) (m : t V) : t V :=
  match m with
  | [] => [(key, v)]
  | (k, v') :: rest =>
      if bool_decide (k = key) then (key, v) :: rest else (k, v') :: set key v rest
  end.

Definition values {V} (m : t V) : list V := m.*2.
End JsMap.

Module PlexPin.
Record t : Type := mk {
  id : Z;
  code : string;
  clientIdentifier : string;
  expiresAt : string;
  authToken : option string;
}.
End PlexPin.

Module PlexPinStatus.
Record t : Type := mk {
  id : Z;
  code : string;
  clientIdentifier : string;
  expiresAt : string;
  authToken : option string;
}.
End PlexPinStatus.

(** The result of [validateToken]. *)
Module AccountInfo.
Record t : Type := mk {
  username : option string;
  email : option string;
}.
End AccountInfo.

Section Adapter.

Context (env : Env).

(** [uuidv4()] *)
Definition uuidv4 : M string := λ w, (Ok (uuid env (step w)), tick w).

(** [axios.get] / [axios.post]: one remote call; a rejected call throws. *)
Definition axios (r : Request) : M Payload :=
  λ w, match http env (step w) r with
       | Failure message => (Err (RequestFailed message), tick (record (Sent r) w))
       | Success data => (Ok data, tick (record (Sent r) w))
       end.

Definition buildHeaders (options : RequestOptions.t) : M (list (string * string)) :=
  let* identifier :=
    match RequestOptions.clientIdentifier options with
    | Some c => ret c
    | None => uuidv4
    end in
  let headers :=
    [("X-Plex-Product", PLEX_PRODUCT);
     ("X-Plex-Version", PLEX_VERSION);
     ("X-Plex-Platform", PLEX_PLATFORM);
     ("X-Plex-Device", PLEX_DEVICE);
     ("X-Plex-Client-Identifier", identifier);
     ("Accept", "application/json")] in
  if JsString.truthyOpt (RequestOptions.token options)
  then ret (headers ++ [("X-Plex-Token", default "" (RequestOptions.token options))])%list
  else ret headers.

Definition createRequestOptions (token clientIdentifier : option string)
    (extras : RequestOptions.t) : RequestOptions.t :=
  let options := extras in
  let options :=
    if JsString.truthyOpt token
    then RequestOptions.mk token (RequestOptions.clientIdentifier options)
           (RequestOptions.timeoutMs options) (RequestOptions.responseType options)
    else options in
  if JsString.truthyOpt clientIdentifier
  then RequestOptions.mk (RequestOptions.token options) clientIdentifier
         (RequestOptions.timeoutMs options) (RequestOptions.responseType options)
  else options.

Definition request (url : string) (options : RequestOptions.t) : M Payload :=
  let* headers := buildHeaders options in
  axios {| method := GET; url := url; headers := headers;
           timeout := default DEFAULT_TIMEOUT_MS (RequestOptions.timeoutMs options);
           responseType := RequestOptions.responseType options;
           body := None |}.

Definition validateToken (token : string) (clientIdentifier : option string)
    : M (option AccountInfo.t) :=
  called ValidateToken ;;
  tryCatch
    (let* data := request (PLEX_API_BASE +:+ "/users/account.json")
                    (createRequestOptions (Some token) clientIdentifier RequestOptions.empty) in
     match data with
     | AccountJson (Some user) =>
         ret (Some {| AccountInfo.username :=
                        JsString.orElse (UserNode.username user) (UserNode.title user);
                      AccountInfo.email := UserNode.email user |})
     | _ => ret None
     end)
    (λ _, ret None).

Definition getResources (token : string) (clientIdentifier : option string)
    : M (list PlexResource.t) :=
  called GetResources ;;
  tryCatch
    (let* xml := request (PLEX_API_BASE +:+ "/pms/resources")
                   (createRequestOptions (Some token) clientIdentifier
                      (RequestOptions.mk None None None (Some "text"))) in
     let devices := match xml with ResourcesXml devices => devices | _ => [] end in
     ret (filter (λ device, PlexResource.product device = "Plex Media Server") devices))
    (λ _, ret []).

(** The [for (const connection of resource.connections)] loop. *)
Fixpoint connectLoop (connections : list PlexServerConnection.t)
    (resource : PlexResource.t) (token accountLabel : string)
    (clientIdentifier : option string) : M (option PlexServer.t) :=
  match connections with
  | [] => ret None
  | connection :: rest =>
      if negb (JsString.truthy (PlexServerConnection.uri connection))
      then connectLoop rest resource token accountLabel clientIdentifier
      else
        let* found :=
          tryCatch
            (let* data := request (PlexServerConnection.uri connection)
                            (createRequestOptions (Some token) clientIdentifier
                               (RequestOptions.mk None None (Some 5000) None)) in
             match data with
             | ServerRootJson (Some friendlyName) =>
                 ret (Some
                   {| PlexServer.name := PlexResource.name resource;
                      PlexServer.friendlyName :=
                        JsString.orDefault friendlyName (PlexResource.name resource);
                      PlexServer.machineIdentifier := PlexResource.machineIdentifier resource;
                      PlexServer.host := PlexServerConnection.address connection;
                      PlexServer.port := PlexServerConnection.port connection;
                      PlexServer.scheme := PlexServerConnection.protocol connection;
                      PlexServer.uri := PlexServerConnection.uri connection;
                      PlexServer.product := PlexResource.product resource;
                      PlexServer.version := PlexResource.version resource;
                      PlexServer.platform := PlexResource.platform resource;
                      PlexServer.owned := PlexResource.owned resource;
                      PlexServer.accountLabel := accountLabel |})
             | _ => ret None
             end)
            (λ _, ret None) in
        match found with
        | Some server => ret (Some server)
        | None => connectLoop rest resource token accountLabel clientIdentifier
        end
  end.

Definition connectToServer (resource : PlexResource.t) (token accountLabel : string)
    (clientIdentifier : option string) : M (option PlexServer.t) :=
  called ConnectToServer ;;
  connectLoop (PlexResource.connections resource) resource token accountLabel
    clientIdentifier.

Definition normalizeBoolean (value : JsValue) : option bool :=
  match value with
  | JsUndefined | JsNull => None
  | JsBool b => Some b
  | JsNumber n => Some (bool_decide (n = 1))
  | JsString s => Some (bool_decide (s = "1") || bool_decide (JsString.toLowerCase s = "true"))
  | JsObject => None
  end.

(** [a ?? b] *)
Definition nullish {A} (a b : option A) : option A :=
  match a with
  | Some x => Some x
  | None => b
  end.

Definition mapAccountNode (attrs : AccountNode.t) (server : PlexServer.t)
    (accountLabel : string) : PlexUserAccess.t :=
  let email := nullish (AccountNode.email attrs) (AccountNode.Email attrs) in
  {| PlexUserAccess.id :=
       match AccountNode.id attrs with
       | IdMissing => None
       | IdNumber n => if bool_decide (n = 0) then None else Some n
       | IdText n => Some n
       end;
     PlexUserAccess.uuid := nullish (AccountNode.uuid attrs) (AccountNode.UUID attrs);
     PlexUserAccess.username := nullish (AccountNode.username attrs) (AccountNode.name attrs);
     PlexUserAccess.title := nullish (AccountNode.title attrs) (AccountNode.friendlyName attrs);
     PlexUserAccess.email := email;
     PlexUserAccess.restricted := normalizeBoolean (AccountNode.restricted attrs);
     PlexUserAccess.home := normalizeBoolean (AccountNode.home attrs);
     PlexUserAccess.guest := normalizeBoolean (AccountNode.guest attrs);
     PlexUserAccess.canInvite := normalizeBoolean (AccountNode.canInvite attrs);
     PlexUserAccess.serverIdentifier := PlexServer.machineIdentifier server;
     PlexUserAccess.serverName := PlexServer.friendlyName server;
     PlexUserAccess.accountLabel := accountLabel |}.

(** The identity key of the merge in [fetchServerUsers]:
    [user.email ?? user.uuid ?? (user.username ? ... : ...)], lower-cased. *)
Definition dedupKey (user : PlexUserAccess.t) : string :=
  let keySource :=
    default
      (if JsString.truthyOpt (PlexUserAccess.username user)
       then PlexUserAccess.serverIdentifier user +:+ "-" +:+
              default "" (PlexUserAccess.username user)
       else PlexUserAccess.serverIdentifier user +:+ "-" +:+
              match PlexUserAccess.id user with
              | Some n => JsString.ofZ n
              | None => "unknown"
              end)
      (nullish (PlexUserAccess.email user) (PlexUserAccess.uuid user)) in
  JsString.toLowerCase keySource.

(** The [for (const user of results)] loop over the [deduped] map. *)
Fixpoint dedupLoop (results : list PlexUserAccess.t)
    (deduped : JsMap.t PlexUserAccess.t) : JsMap.t PlexUserAccess.t :=
  match results with
  | [] => deduped
  | user :: rest =>
      let key := dedupKey user in
      if JsMap.has key deduped
      then dedupLoop rest deduped
      else dedupLoop rest (JsMap.set key user deduped)
  end.

(** Lines 270-282 of [fetchServerUsers]. *)
Definition dedupe (results : list PlexUserAccess.t) : list PlexUserAccess.t :=
  JsMap.values (dedupLoop results []).

(** The records of the local accounts listing (first [try] block). *)
Definition localAccounts (server : PlexServer.t) (token : string)
    (clientIdentifier : option string) : M (list PlexUserAccess.t) :=
  tryCatch
    (let* data := request (PlexServer.uri server +:+ "/accounts")
                    (createRequestOptions (Some token) clientIdentifier RequestOptions.empty) in
     let accounts := match data with AccountsJson accounts => accounts | _ => [] end in
     ret (map (λ account, mapAccountNode account server (PlexServer.accountLabel server))
            accounts))
    (λ _, ret []).

(** The records of the shared access listing (second [try] block). *)
Definition sharedAccounts (server : PlexServer.t) (token : string)
    (clientIdentifier : option string) : M (list PlexUserAccess.t) :=
  tryCatch
    (let* xml := request (PLEX_API_BASE +:+ "/api/servers/" +:+
                            PlexServer.machineIdentifier server +:+ "/shared_servers")
                   (createRequestOptions (Some token) clientIdentifier
                      (RequestOptions.mk None None None (Some "text"))) in
     let sharedServers :=
       match xml with SharedServersXml sharedServers => sharedServers | _ => [] end in
     ret (flat_map
            (λ entry,
               match SharedServerNode.SharedUser entry with
               | [] => [mapAccountNode (SharedServerNode.attrs entry) server
                          (PlexServer.accountLabel server)]
               | sharedUsers =>
                   map (λ sharedUser,
                          mapAccountNode sharedUser server (PlexServer.accountLabel server))
                     sharedUsers
               end)
            sharedServers))
    (λ _, ret []).

Definition fetchServerUsers (server : PlexServer.t) (token : string)
    (clientIdentifier : option string) : M (list PlexUserAccess.t) :=
  called FetchServerUsers ;;
  let* localResults := localAccounts server token clientIdentifier in
  let* sharedResults := sharedAccounts server token clientIdentifier in
  let results := (localResults ++ sharedResults)%list in
  ret (dedupe results).

Definition createAuthPin (clientIdentifier : option string) : M PlexPin.t :=
  called CreateAuthPin ;;
  let* identifier :=
    match clientIdentifier with
    | Some c => ret c
    | None => uuidv4
    end in
  tryCatch
    (let* headers :=
       buildHeaders (RequestOptions.mk None (Some identifier) None None) in
     let* data :=
       axios {| method := POST;
                url := PLEX_API_BASE +:+ "/api/v2/pins";
                headers :=
                  (headers ++ [("Content-Type", "application/x-www-form-urlencoded")])%list;
                timeout := DEFAULT_TIMEOUT_MS;
                responseType := None;
                body := Some (UrlEncode.params [("strong", "true")]) |} in
     match data with
     | PinJson (Some pin) =>
         ret {| PlexPin.id := PinNode.id pin;
                PlexPin.code := PinNode.code pin;
                PlexPin.clientIdentifier := identifier;
                PlexPin.expiresAt := PinNode.expiresAt pin;
                PlexPin.authToken := nullish (PinNode.authToken pin) None |}
     | _ => throw (TypeError "Cannot read properties of undefined (reading 'id')")
     end)
    (λ error, throw error).

Definition checkAuthPin (id : Z) (clientIdentifier : string) : M PlexPinStatus.t :=
  called CheckAuthPin ;;
  tryCatch
    (let* headers :=
       buildHeaders (RequestOptions.mk None (Some clientIdentifier) None None) in
     let* data :=
       axios {| method := GET;
                url := PLEX_API_BASE +:+ "/api/v2/pins/" +:+ JsString.ofZ id;
                headers := headers;
                timeout := DEFAULT_TIMEOUT_MS;
                responseType := None;
                body := None |} in
     match data with
     | PinJson (Some pin) =>
         ret {| PlexPinStatus.id := PinNode.id pin;
                PlexPinStatus.code := PinNode.code pin;
                PlexPinStatus.clientIdentifier := clientIdentifier;
                PlexPinStatus.expiresAt := PinNode.expiresAt pin;
                PlexPinStatus.authToken := nullish (PinNode.authToken pin) None |}
     | _ => throw (TypeError "Cannot read properties of undefined (reading 'id')")
     end)
    (λ error, throw error).

Definition buildAuthUrl (pin : PlexPin.t) (productName : string) : string :=
  "https://app.plex.tv/auth" +:+ "#" +:+
  UrlEncode.params
    [("clientID", PlexPin.clientIdentifier pin);
     ("code", PlexPin.code pin);
     ("context[device][product]", productName);
     ("context[device][environment]", "bundled");
     ("context[device][platform]", "Web");
     ("context[device][device]", PLEX_DEVICE);
     ("context[device][model]", "MCP");
     ("context[device][version]", PLEX_VERSION);
     ("context[client][product]", productName);
     ("context[client][version]", PLEX_VERSION);
     ("context[client][device]", PLEX_DEVICE);
     ("context[client][platform]", "Web");
     ("context[client][model]", "MCP")].

End Adapter.

(** ** The fuzzy matcher *)

Module FuseMatch.
Record t : Type := mk {
  key : string;
  value : string;
  indices : list (nat * nat);
}.
End FuseMatch.

Module FuseResult.
Record t : Type := mk {
  item : PlexUserAccess.t;
  score : option Q;
  matches : option (list FuseMatch.t);
}.
End FuseResult.

Module Fuse.

(** [res.score ?? 1] *)
Definition scoreOf (r : FuseResult.t) : Q := default 1%Q (FuseResult.score r).

(** Modelled from the spec: the ranking of section 4.4, "ascending sorted
    by score (lower score = better match)", as a stable insertion into a
    list sorted by score. *)
Fixpoint insertByScore (r : FuseResult.t) (l : list FuseResult.t) : list FuseResult.t :=
  match l with
  | [] => [r]
  | x :: rest =>
      if Qle_bool (scoreOf r) (scoreOf x) then r :: l else x :: insertByScore r rest
  end.

(** Modelled from the spec: the sort by ascending score of section 4.4. *)
Definition sortByScore (l : list FuseResult.t) : list FuseResult.t :=
  foldr insertByScore [] l.

Section Search.
(** The similarity computation of the matcher over the weighted keys
    [email], [username] and [title] with threshold 0.4: the score and
    the per-field match details of a record the query matches, [None]
    for a record it excludes. *)
Context (fuseMatch : string → PlexUserAccess.t → option (Q * list FuseMatch.t)).

(** Modelled from the spec: [new Fuse(users, options).search(pattern,
    { limit })]; the fuzzy matcher is the external library fuse.js, which
    is not part of the sources.  Section 4.4 describes its output as the
    records the query matches, each with its score and match details,
    sorted ascending by score and truncated to the requested limit. *)
Definition search (users : list PlexUserAccess.t) (pattern : string) (limit : Z)
    : list FuseResult.t :=
  let matched :=
    omap (λ user,
            match fuseMatch pattern user with
            | Some (score, matches) =>
                Some {| FuseResult.item := user;
                        FuseResult.score := Some score;
                        FuseResult.matches := Some matches |}
            | None => None
            end) users in
  take (Z.to_nat limit) (sortByScore matched).
End Search.

End Fuse.

(** ** src/plexManager.ts *)

Module SearchOptions.
Record t : Type := mk {
  maxResults : option Z;
  refresh : option bool;
}.
End SearchOptions.

Module MatchDetail.
Record t : Type := mk {
  key : string;
  value : string;
  indices : list (nat * nat);
}.
End MatchDetail.

Module SearchMatch.
Record t : Type := mk {
  score : Q;
  user : PlexUserAccess.t;
  matchDetails : list MatchDetail.t;
}.
End SearchMatch.

Module SearchResult.
Record t : Type := mk {
  matches : list SearchMatch.t;
  totalMatched : nat;
  totalSearched : nat;
}.
End SearchResult.

Module AccountValidationResult.
Record t : Type := mk {
  label : string;
  valid : bool;
  username : option string;
  email : option string;
}.
End AccountValidationResult.

Module AuthPinResult.
Record t : Type := mk {
  pin : PlexPin.t;
  authorizationUrl : string;
}.
End AuthPinResult.

Section PlexAccountManager.

Context (env : Env).
Context (fuseMatch : string → PlexUserAccess.t → option (Q * list FuseMatch.t)).
(** [this.accounts] *)
Context (accounts : list Account.t).

(** The state of a manager built with [options.cacheTtlMs = cacheTtlMs]. *)
Definition newManager (cacheTtlMs : Z) : World :=
  {| step := 0;
     serverCache := TTLCache.create cacheTtlMs;
     userCache := TTLCache.create cacheTtlMs;
     trace := [] |}.

(** [this.serverCache.get(key)]: one step; the clock reading is that of
    the step. *)
Definition serverCacheGet (key : string) : M (option (list PlexServer.t)) :=
  λ w, let '(r, c) := TTLCache.get (clock env (step w)) key (serverCache w) in
       (Ok r, {| step := S (step w); serverCache := c;
                 userCache := userCache w; trace := trace w |}).

Definition serverCacheSet (key : string) (v : list PlexServer.t) : M unit :=
  λ w, (Ok tt, {| step := S (step w);
                  serverCache := TTLCache.set (clock env (step w)) key v (serverCache w);
                  userCache := userCache w; trace := trace w |}).

(** [this.userCache.get(key)] and [this.userCache.set(key, v)]. *)
Definition userCacheGet (key : string) : M (option (list PlexUserAccess.t)) :=
  λ w, let '(r, c) := TTLCache.get (clock env (step w)) key (userCache w) in
       (Ok r, {| step := S (step w); serverCache := serverCache w;
                 userCache := c; trace := trace w |}).

Definition userCacheSet (key : string) (v : list PlexUserAccess.t) : M unit :=
  λ w, (Ok tt, {| step := S (step w); serverCache := serverCache w;
                  userCache := TTLCache.set (clock env (step w)) key v (userCache w);
                  trace := trace w |}).


(** The [for (const account of this.accounts)] loop of [validateAccounts]. *)
Fixpoint validateLoop (accts : list Account.t)
    (results : list AccountValidationResult.t) : M (list AccountValidationResult.t) :=
  match accts with
  | [] => ret results
  | account :: rest =>
      let* info := validateToken env (Account.token account)
                     (Some (Account.clientIdentifier account)) in
      match info with
      | Some info =>
          validateLoop rest
            (results ++ [{| AccountValidationResult.label := Account.label account;
                            AccountValidationResult.valid := true;
                            AccountValidationResult.username := AccountInfo.username info;
                            AccountValidationResult.email := AccountInfo.email info |}])%list
      | None =>
          validateLoop rest
            (results ++ [{| AccountValidationResult.label := Account.label account;
                            AccountValidationResult.valid := false;
                            AccountValidationResult.username := None;
                            AccountValidationResult.email := None |}])%list
      end
  end.

Definition validateAccounts : M (list AccountValidationResult.t) :=
  validateLoop accounts [].

(** The [for (const resource of resources)] loop of [getServers]. *)
Fixpoint connectAll (resources : list PlexResource.t) (account : Account.t)
    (connected : list PlexServer.t) : M (list PlexServer.t) :=
  match resources with
  | [] => ret connected
  | resource :: rest =>
      let* server := connectToServer env resource (Account.token account)
                       (Account.label account) (Some (Account.clientIdentifier account)) in
      match server with
      | Some server => connectAll rest account (connected ++ [server])%list
      | None => connectAll rest account connected
      end
  end.

(** Lines 99-115: the body of [if (!servers || refresh)]. *)
Definition reloadServers (account : Account.t) (cacheKey : string)
    : M (list PlexServer.t) :=
  let* resources := getResources env (Account.token account)
                      (Some (Account.clientIdentifier account)) in
  let* connected := connectAll resources account [] in
  serverCacheSet cacheKey connected ;;
  ret connected.

(** Lines 96-116: the servers of one account, from the cache or loaded. *)
Definition loadServers (refresh : bool) (account : Account.t) : M (list PlexServer.t) :=
  let cacheKey := "servers:" +:+ Account.label account in
  let* servers := serverCacheGet cacheKey in
  match servers with
  | None => reloadServers account cacheKey
  | Some servers => if refresh then reloadServers account cacheKey else ret servers
  end.

(** Lines 118-124: the [for (const server of servers)] loop. *)
Fixpoint mergeServers (servers : list PlexServer.t) (account : Account.t)
    (aggregated : list PlexServer.t) (seen : gset string)
    : list PlexServer.t * gset string :=
  match servers with
  | [] => (aggregated, seen)
  | server :: rest =>
      let key := PlexServer.machineIdentifier server +:+ ":" +:+ Account.label account in
      if bool_decide (key ∈ seen)
      then mergeServers rest account aggregated seen
      else mergeServers rest account (aggregated ++ [server])%list ({[key]} ∪ seen)
  end.

(** The [for (const account of this.accounts)] loop. *)
Fixpoint getServersLoop (refresh : bool) (accts : list Account.t)
    (aggregated : list PlexServer.t) (seen : gset string) : M (list PlexServer.t) :=
  match accts with
  | [] => ret aggregated
  | account :: rest =>
      let* servers := loadServers refresh account in
      let '(aggregated, seen) := mergeServers servers account aggregated seen in
      getServersLoop refresh rest aggregated seen
  end.

Definition getServers (refresh : bool) : M (list PlexServer.t) :=
  getServersLoop refresh accounts [] ∅.

Definition findTokenForAccount (label : string) : M string :=
  match List.find (λ acct, bool_decide (Account.label acct = label)) accounts with
  | None => throw (NoAccountForLabel label)
  | Some account => ret (Account.token account)
  end.

Definition findClientIdentifier (label : string) : M string :=
  match List.find (λ acct, bool_decide (Account.label acct = label)) accounts with
  | None => throw (NoAccountForLabel label)
  | Some account => ret (Account.clientIdentifier account)
  end.

(** Lines 138-148: the body of [if (!cached || refresh)]. *)
Definition reloadUsers (server : PlexServer.t) (cacheKey : string)
    : M (list PlexUserAccess.t) :=
  let* token := findTokenForAccount (PlexServer.accountLabel server) in
  let* clientIdentifier := findClientIdentifier (PlexServer.accountLabel server) in
  let* fetched := fetchServerUsers env server token (Some clientIdentifier) in
  userCacheSet cacheKey fetched ;;
  ret fetched.

(** Lines 135-149: the users of one server, from the cache or fetched. *)
Definition loadUsers (refresh : bool) (server : PlexServer.t) : M (list PlexUserAccess.t) :=
  let cacheKey := "users:" +:+ PlexServer.machineIdentifier server +:+ ":" +:+
                  PlexServer.accountLabel server in
  let* cached := userCacheGet cacheKey in
  match cached with
  | None => reloadUsers server cacheKey
  | Some cached => if refresh then reloadUsers server cacheKey else ret cached
  end.

Fixpoint usersLoop (refresh : bool) (servers : list PlexServer.t)
    (users : list PlexUserAccess.t) : M (list PlexUserAccess.t) :=
  match servers with
  | [] => ret users
  | server :: rest =>
      let* cached := loadUsers refresh server in
      usersLoop refresh rest (users ++ cached)%list
  end.

Definition getUsersAcrossServers (refresh : bool) : M (list PlexUserAccess.t) :=
  let* servers := getServers refresh in
  usersLoop refresh servers [].

Definition emptySearchResult : SearchResult.t :=
  {| SearchResult.matches := []; SearchResult.totalMatched := 0;
     SearchResult.totalSearched := 0 |}.

Definition searchUsers (query : string) (options : SearchOptions.t) : M SearchResult.t :=
  let trimmed := JsString.trim query in
  if negb (JsString.truthy trimmed) then ret emptySearchResult
  else
    let* users := getUsersAcrossServers (default false (SearchOptions.refresh options)) in
    if bool_decide (length users = 0%nat) then ret emptySearchResult
    else
      let results :=
        Fuse.search fuseMatch users trimmed
          (default 25 (SearchOptions.maxResults options)) in
      ret {| SearchResult.matches :=
               map (λ res,
                      {| SearchMatch.score := default 1%Q (FuseResult.score res);
                         SearchMatch.user := FuseResult.item res;
                         SearchMatch.matchDetails :=
                           map (λ m, {| MatchDetail.key := FuseMatch.key m;
                                        MatchDetail.value := FuseMatch.value m;
                                        MatchDetail.indices := FuseMatch.indices m |})
                             (default [] (FuseResult.matches res)) |})
                 results;
             SearchResult.totalMatched := length results;
             SearchResult.totalSearched := length users |}.

Definition generateAuthPin (clientIdentifier : option string) : M AuthPinResult.t :=
  let* pin := createAuthPin env clientIdentifier in
  ret {| AuthPinResult.pin := pin;
         AuthPinResult.authorizationUrl := buildAuthUrl pin PLEX_PRODUCT |}.

Definition checkAuthPinStatus (id : Z) (clientIdentifier : string) : M PlexPinStatus.t :=
  checkAuthPin env id clientIdentifier.

Definition clearCaches : M unit :=
  λ w, (Ok tt, {| step := step w;
                  serverCache := TTLCache.clear None (serverCache w);
                  userCache := TTLCache.clear None (userCache w);
                  trace := trace w |}).

(** The public operations of the manager, and the states a manager can
    be in: those reached from a new manager by a sequence of calls. *)
Inductive Call : Type :=
  | CallValidateAccounts
  | CallGetServers (refresh : bool)
  | CallGetUsersAcrossServers (refresh : bool)
  | CallSearchUsers (query : string) (options : SearchOptions.t)
  | CallGenerateAuthPin (clientIdentifier : option string)
  | CallCheckAuthPinStatus (id : Z) (clientIdentifier : string)
  | CallClearCaches.

Definition runCall (c : Call) (w : World) : World :=
  match c with
  | CallValidateAccounts => (validateAccounts w).2
  | CallGetServers refresh => (getServers refresh w).2
  | CallGetUsersAcrossServers refresh => (getUsersAcrossServers refresh w).2
  | CallSearchUsers query options => (searchUsers query options w).2
  | CallGenerateAuthPin clientIdentifier => (generateAuthPin clientIdentifier w).2
  | CallCheckAuthPinStatus id clientIdentifier => (checkAuthPinStatus id clientIdentifier w).2
  | CallClearCaches => (clearCaches w).2
  end.

Inductive Reachable : World → Prop :=
  | ReachableNew (cacheTtlMs : Z) : Reachable (newManager cacheTtlMs)
  | ReachableCall (c : Call) (w : World) : Reachable w → Reachable (runCall c w).

End PlexAccountManager.

(** ** src/index.ts: the status tool *)

(** [StatusInput]: the arguments of [plex_status]. *)
Module StatusInput.
Record t : Type := mk {
  refresh : option bool;
  include_user_count : option bool;
}.
End StatusInput.

(** One element of [structuredContent.servers]. *)
Module ServerSummary.
Record t : Type := mk {
  name : string;
  machineIdentifier : string;
  product : string;
  version : string;
  platform : string;
  accountLabel : string;
  owned : bool;
}.
End ServerSummary.

(** [structuredContent] of the status tool; [server_time] holds the
    clock reading that the source prints in ISO format. *)
Module StatusContent.
Record t : Type := mk {
  status : string;
  server_time : Z;
  accounts : list AccountValidationResult.t;
  servers : list ServerSummary.t;
  user_count : option nat;
}.
End StatusContent.

(** The result of the status tool: the text of its single content item
    and the structured content. *)
Module ToolResult.
Record t : Type := mk {
  text : string;
  structuredContent : StatusContent.t;
}.
End ToolResult.


Section Tools.

Context (env : Env).
Context (accounts : list Account.t).



End Tools.

(** ** Reference functions and fixtures *)

(** The elements of [l] that are the first of their key, among the keys
    not in [seen]: what a first-seen-wins merge keeps. *)
Fixpoint keepFirst {A} (key : A → string) (seen : gset string) (l : list A) : list A :=
  match l with
  | [] => []
  | x :: rest =>
      if bool_decide (key x ∈ seen) then keepFirst key seen rest
      else x :: keepFirst key ({[key x]} ∪ seen) rest
  end.

(** Every character of [s] satisfies [p]. *)
Fixpoint allChars (p : ascii → bool) (s : string) : bool :=
  match s with
  | EmptyString => true
  | String c rest => p c && allChars p rest
  end.

(** The characters of a printed integer. *)
Definition numChar (c : ascii) : bool :=
  let n := nat_of_ascii c in
  bool_decide (48 ≤ n ≤ 57)%nat || bool_decide (n = 45)%nat.

(** No colon occurs in [s]. *)
Definition noColon (s : string) : bool :=
  allChars (λ c, negb (bool_decide (c = ":"%char))) s.

(** [m] leaves the component [f] of the state as it is. *)
Definition preserves {A X} (f : World → X) (m : M A) : Prop :=
  ∀ w, f (m w).2 = f w.

(** [m] never throws. *)
Definition noThrow {A} (m : M A) : Prop :=
  ∀ w, ∃ a, (m w).1 = Ok a.

(** Every value [m] returns satisfies [P]. *)
Definition returns {A} (m : M A) (P : A → Prop) : Prop :=
  ∀ w a w', m w = (Ok a, w') → P a.

(** [f] applied to the elements of [l] in turn, each call completing
    before the next begins. *)
Fixpoint mapM {A B} (f : A → M B) (l : list A) : M (list B) :=
  match l with
  | [] => ret []
  | x :: rest =>
      let* y := f x in
      let* ys := mapM f rest in
      ret (y :: ys)
  end.

(** The dedup key of [getServers] for a server listed under its own
    account label. *)
Definition serverKey (server : PlexServer.t) : string :=
  PlexServer.machineIdentifier server +:+ ":" +:+ PlexServer.accountLabel server.

(** Every server list cached for an account carries that account's label. *)
Definition serverCacheOk (w : World) : Prop :=
  ∀ label entry,
    TTLCache.store (serverCache w) !! ("servers:" +:+ label) = Some entry →
    ∀ server, server ∈ TTLCache.value entry → PlexServer.accountLabel server = label.

(** The merge of [getServers] applied to the server lists of the accounts. *)
Fixpoint mergeAll (accts : list Account.t) (lists : list (list PlexServer.t))
    (aggregated : list PlexServer.t) (seen : gset string) : list PlexServer.t :=
  match accts, lists with
  | account :: accts', servers :: lists' =>
      let '(aggregated, seen) := mergeServers servers account aggregated seen in
      mergeAll accts' lists' aggregated seen
  | _, _ => aggregated
  end.

(** The entry [validateAccounts] reports for [account] when the validation
    of its token returned [info]. *)
Definition validationResult (account : Account.t) (info : option AccountInfo.t)
    : AccountValidationResult.t :=
  match info with
  | Some info =>
      {| AccountValidationResult.label := Account.label account;
         AccountValidationResult.valid := true;
         AccountValidationResult.username := AccountInfo.username info;
         AccountValidationResult.email := AccountInfo.email info |}
  | None =>
      {| AccountValidationResult.label := Account.label account;
         AccountValidationResult.valid := false;
         AccountValidationResult.username := None;
         AccountValidationResult.email := None |}
  end.

(** What [axios] makes of the answer to a request: the body, or the
    rejection as a thrown error. *)
Definition responseResult (response : Response) : Result Payload :=
  match response with
  | Failure message => Err (RequestFailed message)
  | Success data => Ok data
  end.

(** What [validateToken] makes of the answer to its request. *)
Definition accountInfoOf (response : Response) : option AccountInfo.t :=
  match response with
  | Success (AccountJson (Some user)) =>
      Some {| AccountInfo.username :=
                JsString.orElse (UserNode.username user) (UserNode.title user);
              AccountInfo.email := UserNode.email user |}
  | _ => None
  end.

(** The record has neither email, nor uuid, nor username. *)
Definition noIdentity (user : PlexUserAccess.t) : Prop :=
  PlexUserAccess.email user = None
  ∧ PlexUserAccess.uuid user = None
  ∧ PlexUserAccess.username user = None.

(** A record with no identity field but the numeric identifier. *)
Definition anonymous (serverIdentifier : string) (id : option Z) : PlexUserAccess.t :=
  {| PlexUserAccess.id := id;
     PlexUserAccess.uuid := None;
     PlexUserAccess.username := None;
     PlexUserAccess.title := None;
     PlexUserAccess.email := None;
     PlexUserAccess.restricted := None;
     PlexUserAccess.home := None;
     PlexUserAccess.guest := None;
     PlexUserAccess.canInvite := None;
     PlexUserAccess.serverIdentifier := serverIdentifier;
     PlexUserAccess.serverName := "Den";
     PlexUserAccess.accountLabel := "A" |}.

(** A record of server [M1] with an email and a username. *)
Definition mailUser (email username : string) : PlexUserAccess.t :=
  {| PlexUserAccess.id := None;
     PlexUserAccess.uuid := None;
     PlexUserAccess.username := Some username;
     PlexUserAccess.title := None;
     PlexUserAccess.email := Some email;
     PlexUserAccess.restricted := None;
     PlexUserAccess.home := None;
     PlexUserAccess.guest := None;
     PlexUserAccess.canInvite := None;
     PlexUserAccess.serverIdentifier := "M1";
     PlexUserAccess.serverName := "Den";
     PlexUserAccess.accountLabel := "A" |}.

(** A small deployment: the accounts A and B, the server M1 reachable at
    one address, and a remote service that lists [devices] to every
    account, lists [nodes] as the local accounts of M1, accepts only the
    token of account A at the account end point and fails every other
    request. *)
Definition connectionM1 : PlexServerConnection.t :=
  {| PlexServerConnection.protocol := "https";
     PlexServerConnection.address := "10.0.0.1";
     PlexServerConnection.port := 32400;
     PlexServerConnection.uri := "https://m1.example:32400" |}.

Definition resourceM1 (name : string) : PlexResource.t :=
  {| PlexResource.name := name;
     PlexResource.provides := "server";
     PlexResource.machineIdentifier := "M1";
     PlexResource.owned := true;
     PlexResource.product := "Plex Media Server";
     PlexResource.version := "1.40";
     PlexResource.platform := "Linux";
     PlexResource.uri := "";
     PlexResource.connections := [connectionM1] |}.

Definition serverM1 (name label : string) : PlexServer.t :=
  {| PlexServer.name := name;
     PlexServer.friendlyName := "Den";
     PlexServer.machineIdentifier := "M1";
     PlexServer.host := "10.0.0.1";
     PlexServer.port := 32400;
     PlexServer.scheme := "https";
     PlexServer.uri := "https://m1.example:32400";
     PlexServer.product := "Plex Media Server";
     PlexServer.version := "1.40";
     PlexServer.platform := "Linux";
     PlexServer.owned := true;
     PlexServer.accountLabel := label |}.

Definition accountA : Account.t :=
  {| Account.label := "A"; Account.token := "token-a"; Account.clientIdentifier := "client-a" |}.

Definition accountB : Account.t :=
  {| Account.label := "B"; Account.token := "token-b"; Account.clientIdentifier := "client-b" |}.

Definition demoEnv (devices : list PlexResource.t) (nodes : list AccountNode.t) : Env :=
  {| clock := λ n, 1000 * Z.of_nat n;
     http := λ _ r,
       if bool_decide (url r = "https://plex.tv/pms/resources")
       then Success (ResourcesXml devices)
       else if bool_decide (url r = "https://m1.example:32400")
       then Success (ServerRootJson (Some (Some "Den")))
       else if bool_decide (url r = "https://m1.example:32400/accounts")
       then Success (AccountsJson nodes)
       else if bool_decide (url r = "https://plex.tv/users/account.json")
       then if bool_decide (("X-Plex-Token", "token-a") ∈ headers r)
            then Success (AccountJson (Some {| UserNode.username := Some "alice";
                                               UserNode.title := Some "Alice";
                                               UserNode.email := Some "alice@example.com" |}))
            else Failure "401"
       else Failure "404";
     uuid := λ _, "00000000-0000-4000-8000-000000000000" |}.

(** A matcher that accepts every record with the same score. *)
Definition matchAll (score : Q) : string → PlexUserAccess.t → option (Q * list FuseMatch.t) :=
  λ _ _, Some (score, []).

(** ** Reference notions for the further properties *)

(** The headers [buildHeaders] makes for the client identifier
    [identifier] and the token [token]. *)
Definition standardHeaders (identifier : string) (token : option string)
    : list (string * string) :=
  [("X-Plex-Product", PLEX_PRODUCT);
   ("X-Plex-Version", PLEX_VERSION);
   ("X-Plex-Platform", PLEX_PLATFORM);
   ("X-Plex-Device", PLEX_DEVICE);
   ("X-Plex-Client-Identifier", identifier);
   ("Accept", "application/json")]
  ++ (if JsString.truthyOpt token then [("X-Plex-Token", default "" token)] else []).

(** The request [request(url, options)] sends; [fresh] is the identifier
    [uuidv4] gives when the options hold no client identifier. *)
Definition requestFor (url' : string) (options : RequestOptions.t) (fresh : string)
    : Request :=
  {| method := GET;
     url := url';
     headers := standardHeaders (default fresh (RequestOptions.clientIdentifier options))
                  (RequestOptions.token options);
     timeout := default DEFAULT_TIMEOUT_MS (RequestOptions.timeoutMs options);
     responseType := RequestOptions.responseType options;
     body := None |}.

(** The values of the header [name] of a request. *)
Definition headerValues (name : string) (r : Request) : list string :=
  (filter (λ header, header.1 = name) (headers r)).*2.

(** What [getResources] makes of the answer to its request. *)
Definition resourcesOf (response : Response) : list PlexResource.t :=
  match response with
  | Success (ResourcesXml devices) =>
      filter (λ device, PlexResource.product device = "Plex Media Server") devices
  | _ => []
  end.

(** The answer is the root of a server: a body with a [MediaContainer]. *)
Definition isServerRoot (response : Response) : bool :=
  match response with
  | Success (ServerRootJson (Some _)) => true
  | _ => false
  end.

(** [data.MediaContainer.friendlyName] of an answer. *)
Definition rootName (response : Response) : option string :=
  match response with
  | Success (ServerRootJson (Some friendlyName)) => friendlyName
  | _ => None
  end.

(** The server [connectToServer] builds from a resource and the
    connection that answered. *)
Definition serverAt (resource : PlexResource.t) (connection : PlexServerConnection.t)
    (accountLabel : string) (friendlyName : option string) : PlexServer.t :=
  {| PlexServer.name := PlexResource.name resource;
     PlexServer.friendlyName := JsString.orDefault friendlyName (PlexResource.name resource);
     PlexServer.machineIdentifier := PlexResource.machineIdentifier resource;
     PlexServer.host := PlexServerConnection.address connection;
     PlexServer.port := PlexServerConnection.port connection;
     PlexServer.scheme := PlexServerConnection.protocol connection;
     PlexServer.uri := PlexServerConnection.uri connection;
     PlexServer.product := PlexResource.product resource;
     PlexServer.version := PlexResource.version resource;
     PlexServer.platform := PlexResource.platform resource;
     PlexServer.owned := PlexResource.owned resource;
     PlexServer.accountLabel := accountLabel |}.

(** The connections a probe loop tries when [reachable] tells which of
    them answer as a server: those with a URI, up to and including the
    first reachable one. *)
Fixpoint triedUntil (reachable : PlexServerConnection.t → bool)
    (connections : list PlexServerConnection.t) : list PlexServerConnection.t :=
  match connections with
  | [] => []
  | connection :: rest =>
      if negb (JsString.truthy (PlexServerConnection.uri connection))
      then triedUntil reachable rest
      else if reachable connection then [connection]
      else connection :: triedUntil reachable rest
  end.

(** What [fetchServerUsers] makes of the answer to the local accounts
    request and to the shared access request. *)
Definition localOf (server : PlexServer.t) (response : Response) : list PlexUserAccess.t :=
  match response with
  | Success (AccountsJson accounts) =>
      map (λ account, mapAccountNode account server (PlexServer.accountLabel server)) accounts
  | _ => []
  end.

Definition sharedOf (server : PlexServer.t) (response : Response) : list PlexUserAccess.t :=
  match response with
  | Success (SharedServersXml sharedServers) =>
      flat_map
        (λ entry,
           match SharedServerNode.SharedUser entry with
           | [] => [mapAccountNode (SharedServerNode.attrs entry) server
                      (PlexServer.accountLabel server)]
           | sharedUsers =>
               map (λ sharedUser,
                      mapAccountNode sharedUser server (PlexServer.accountLabel server))
                 sharedUsers
           end)
        sharedServers
  | _ => []
  end.

(** The record belongs to the server: it carries the server's machine
    identifier, friendly name and account label. *)
Definition linkedTo (server : PlexServer.t) (user : PlexUserAccess.t) : Prop :=
  PlexUserAccess.serverIdentifier user = PlexServer.machineIdentifier server
  ∧ PlexUserAccess.serverName user = PlexServer.friendlyName server
  ∧ PlexUserAccess.accountLabel user = PlexServer.accountLabel server.

(** A remote service whose answer depends on the URL alone. *)
Definition answersByUrl (env : Env) (answer : string → Response) : Prop :=
  ∀ s r, http env s r = answer (url r).

(** A service that lists the server M1, reachable at its second address
    only, whatever the token. *)
Definition connectionDown : PlexServerConnection.t :=
  {| PlexServerConnection.protocol := "https";
     PlexServerConnection.address := "192.168.1.2";
     PlexServerConnection.port := 32400;
     PlexServerConnection.uri := "https://192.168.1.2:32400" |}.

Definition connectionNoUri : PlexServerConnection.t :=
  {| PlexServerConnection.protocol := "https";
     PlexServerConnection.address := "";
     PlexServerConnection.port := 0;
     PlexServerConnection.uri := "" |}.

Definition urlAnswer (url' : string) : Response :=
  if bool_decide (url' = "https://m1.example:32400")
  then Success (ServerRootJson (Some (Some "Den")))
  else Failure "ECONNREFUSED".

Definition urlEnv : Env :=
  {| clock := λ n, 1000 * Z.of_nat n;
     http := λ _ r, urlAnswer (url r);
     uuid := λ _, "00000000-0000-4000-8000-000000000000" |}.

(** M1 listed with an entry without URI, an address that refuses the
    connection and the address that answers. *)
Definition resourceThreeAddresses : PlexResource.t :=
  {| PlexResource.name := "one";
     PlexResource.provides := "server";
     PlexResource.machineIdentifier := "M1";
     PlexResource.owned := true;
     PlexResource.product := "Plex Media Server";
     PlexResource.version := "1.40";
     PlexResource.platform := "Linux";
     PlexResource.uri := "";
     PlexResource.connections := [connectionNoUri; connectionDown; connectionM1] |}.

#[global] Instance AdapterOp_eq_dec : EqDecision AdapterOp.
Proof. solve_decision. Defined.

(** The adapter operations among the events of a log, in order. *)
Definition callsOf (events : list Event) : list AdapterOp :=
  omap (λ event, match event with Called op => Some op | Sent _ => None end) events.

(** How often the adapter operation [op] has been called so far. *)
Definition callCount (op : AdapterOp) (w : World) : nat :=
  length (filter (λ called, called = op) (callsOf (trace w))).

(** [m] takes every state to a state that [R] relates it to. *)
Definition relates {A} (R : relation World) (m : M A) : Prop :=
  ∀ w, R w (m w).2.

(** A relation between the state before and the state after that every
    primitive step of the manager respects: logging an adapter call,
    drawing an identifier, one request, one cache access, and emptying
    the caches. *)
Class Respected (env : Env) (R : relation World) : Prop := {
  respected_preorder :: PreOrder R;
  respected_called : ∀ op, relates R (called op);
  respected_uuidv4 : relates R (uuidv4 env);
  respected_axios : ∀ r, relates R (axios env r);
  respected_serverCacheGet : ∀ key, relates R (serverCacheGet env key);
  respected_serverCacheSet : ∀ key v, relates R (serverCacheSet env key v);
  respected_userCacheGet : ∀ key, relates R (userCacheGet env key);
  respected_userCacheSet : ∀ key v, relates R (userCacheSet env key v);
  respected_clearCaches : relates R clearCaches;
}.

(** The steps of the manager only go forward. *)
Definition stepLe : relation World := λ w w', (step w ≤ step w')%nat.

(** The entry was written at a step before [bound], and expires [ttl]
    after the clock reading of that step. *)
Definition writtenBefore (env : Env) (ttl : Z) (bound : nat) {V}
    (entry : TTLCache.CacheEntry V) : Prop :=
  ∃ s, (s < bound)%nat ∧ TTLCache.expiresAt entry = clock env s + ttl.

(** Both caches have the time to live [ttl], and each of their entries
    expires [ttl] after the clock reading of the earlier step that wrote
    it. *)
Definition cachesFresh (env : Env) (ttl : Z) (w : World) : Prop :=
  TTLCache.ttlMs (serverCache w) = ttl
  ∧ TTLCache.ttlMs (userCache w) = ttl
  ∧ (∀ key entry, TTLCache.store (serverCache w) !! key = Some entry →
       writtenBefore env ttl (step w) entry)
  ∧ (∀ key entry, TTLCache.store (userCache w) !! key = Some entry →
       writtenBefore env ttl (step w) entry).

(** A remote service that fails every request. *)
Definition downEnv : Env :=
  {| clock := λ n, 1000 * Z.of_nat n;
     http := λ _ _, Failure "ECONNREFUSED";
     uuid := λ _, "00000000-0000-4000-8000-000000000000" |}.

(** The requests among the events of a log, in order. *)
Definition requestsOf (events : list Event) : list Request :=
  omap (λ event, match event with Sent r => Some r | Called _ => None end) events.

(** Every request logged between the two states satisfies [P]. *)
Definition sendsOnly (P : Request → Prop) : relation World :=
  λ w w', ∃ events, trace w' = trace w ++ events ∧ Forall P (requestsOf events).

(** The request carries the credentials of the account: its token as the
    only token header (none when the token is empty), and its client
    identifier, when that is not empty, as the only client identifier
    header. *)
Definition carriesCredentials (account : Account.t) (r : Request) : Prop :=
  headerValues "X-Plex-Token" r
  = (if JsString.truthy (Account.token account) then [Account.token account] else [])
  ∧ length (headerValues "X-Plex-Client-Identifier" r) = 1%nat
  ∧ (Account.clientIdentifier account ≠ "" →
     headerValues "X-Plex-Client-Identifier" r = [Account.clientIdentifier account]).

(** The value of a hexadecimal digit. *)
Definition unhex (c : ascii) : nat :=
  let n := nat_of_ascii c in
  if bool_decide (n < 58)%nat then (n - 48)%nat else (n - 55)%nat.

(** Reading an encoded string back: [+] is a space and [%] followed by
    two hexadecimal digits the character with that code. *)
Fixpoint decode (s : string) : string :=
  match s with
  | EmptyString => EmptyString
  | String c rest =>
      if bool_decide (c = "+"%char) then String " "%char (decode rest)
      else if bool_decide (c = "%"%char) then
        match rest with
        | String h1 (String h2 rest') =>
            String (ascii_of_nat (16 * unhex h1 + unhex h2)) (decode rest')
        | _ => String c (decode rest)
        end
      else String c (decode rest)
  end.

(** The characters of an encoded string. *)
Definition encodedChar (c : ascii) : bool :=
  UrlEncode.unreserved c || bool_decide (c = "+"%char) || bool_decide (c = "%"%char).

(** The characters of an encoded parameter list: those of the encoded
    strings and the two separators. *)
Definition paramsChar (c : ascii) : bool :=
  encodedChar c || bool_decide (c = "="%char) || bool_decide (c = "&"%char).

Example toLowerCase_ex : JsString.toLowerCase "A@X.COM" = "a@x.com".
Proof. reflexivity. Qed.

Example trim_ex : JsString.trim "  a b   " = "a b".
Proof. reflexivity. Qed.

Example ofZ_ex : JsString.ofZ (-120) = "-120".
Proof. vm_compute. reflexivity. Qed.

(** * Properties *)

(** ** Strings *)

Lemma toLowerCase_app (a b : string) :
  JsString.toLowerCase (a +:+ b) = JsString.toLowerCase a +:+ JsString.toLowerCase b.
Proof. induction a as [|c a IH]; simpl; [done | by rewrite IH]. Qed.

Lemma lowerAscii_numChar (c : ascii) : numChar c = true → JsString.lowerAscii c = c.
Proof.
  destruct c as [[] [] [] [] [] [] [] []]; vm_compute; congruence.
Qed.

Lemma toLowerCase_numeric (s : string) :
  allChars numChar s = true → JsString.toLowerCase s = s.
Proof.
  induction s as [|c s IH]; simpl; [done|].
  intros [Hc Hs]%andb_true_iff. by rewrite lowerAscii_numChar, IH.
Qed.

Lemma pretty_N_char_numChar (x : N) : numChar (pretty_N_char x) = true.
Proof. unfold pretty_N_char. by repeat case_match. Qed.

Lemma pretty_N_go_numeric (x : N) (s : string) :
  allChars numChar s = true → allChars numChar (pretty_N_go x s) = true.
Proof.
  revert s. induction (N.lt_wf_0 x) as [x _ IH]; intros s Hs.
  assert (x = 0 ∨ 0 < x)%N as [->|Hx] by lia.
  - by rewrite pretty_N_go_0.
  - rewrite pretty_N_go_step by done. apply IH.
    + by apply N.div_lt.
    + simpl. by rewrite pretty_N_char_numChar.
Qed.

Lemma pretty_N_numeric (x : N) : allChars numChar (pretty x) = true.
Proof.
  unfold pretty, pretty_N. case_decide; [done|]. by apply pretty_N_go_numeric.
Qed.

Lemma ofZ_numeric (z : Z) : allChars numChar (JsString.ofZ z) = true.
Proof.
  unfold JsString.ofZ, pretty, pretty_Z. destruct z as [|p|p]; [done|..].
  - apply pretty_N_numeric.
  - simpl. apply pretty_N_numeric.
Qed.

Lemma toLowerCase_ofZ (z : Z) : JsString.toLowerCase (JsString.ofZ z) = JsString.ofZ z.
Proof. apply toLowerCase_numeric, ofZ_numeric. Qed.

Lemma ofZ_inj (n m : Z) : JsString.ofZ n = JsString.ofZ m → n = m.
Proof. apply pretty_Z_inj. Qed.

Lemma ofZ_not_unknown (n : Z) : JsString.ofZ n ≠ "unknown".
Proof.
  intros Heq. pose proof (ofZ_numeric n) as Hnum. rewrite Heq in Hnum. done.
Qed.

(** ** The expiring cache *)

(** C3: [TTLCache.get] returns a value only from an entry whose expiry
    has not passed at the reading of the clock; an entry whose expiry has
    passed reads as absent and is deleted by that same [get]; and neither
    [get] nor [set] on one key removes or changes the entry of any other
    key, expired or not, so no sweep exists besides this removal on
    read. *)
Theorem ttl_get_expiry `{Countable K} {V : Type}
    (now : Z) (key : K) (c : TTLCache.t K V) :
  (∀ v, (TTLCache.get now key c).1 = Some v →
     ∃ entry, TTLCache.store c !! key = Some entry
              ∧ TTLCache.value entry = v
              ∧ now ≤ TTLCache.expiresAt entry
              ∧ (TTLCache.get now key c).2 = c)
  ∧ (∀ entry, TTLCache.store c !! key = Some entry →
       TTLCache.expiresAt entry < now →
       (TTLCache.get now key c).1 = None
       ∧ TTLCache.store (TTLCache.get now key c).2 = delete key (TTLCache.store c)
       ∧ TTLCache.store (TTLCache.get now key c).2 !! key = None)
  ∧ (∀ other, other ≠ key →
       TTLCache.store (TTLCache.get now key c).2 !! other = TTLCache.store c !! other)
  ∧ (∀ v other, other ≠ key →
       TTLCache.store (TTLCache.set now key v c) !! other = TTLCache.store c !! other).
Proof.
  unfold TTLCache.get, TTLCache.set. repeat split.
  - intros v Hv. destruct (TTLCache.store c !! key) as [entry|] eqn:Hentry; [|done].
    case_bool_decide as Hexp; simpl in Hv; [done|].
    exists entry. repeat split; [congruence | lia].
  - destruct (TTLCache.store c !! key) as [e|]; [|done].
    simplify_eq. rewrite bool_decide_eq_true_2 by lia. done.
  - destruct (TTLCache.store c !! key) as [e|]; [|done].
    simplify_eq. rewrite bool_decide_eq_true_2 by lia. done.
  - destruct (TTLCache.store c !! key) as [e|]; [|done].
    simplify_eq. rewrite bool_decide_eq_true_2 by lia. simpl. apply lookup_delete_eq.
  - intros other Hne. destruct (TTLCache.store c !! key) as [e|]; [|done].
    case_bool_decide; simpl; [|done]. by rewrite lookup_delete_ne.
  - intros v other Hne. simpl. by rewrite lookup_insert_ne.
Qed.

(** An entry stored at time 0 with a TTL of 30000 ms and read at time
    30001 is absent and gone from the store. *)
Lemma ttl_get_expiry_witness :
  let c := TTLCache.set 0 "servers:A" [1; 2] (TTLCache.create (K:=string) 30000) in
  (TTLCache.get 30001 "servers:A" c).1 = None
  ∧ TTLCache.store (TTLCache.get 30001 "servers:A" c).2 !! "servers:A" = None.
Proof.
  intros c.
  destruct (ttl_get_expiry 30001 "servers:A" c) as (_ & Hexpired & _).
  destruct (Hexpired (TTLCache.mkEntry [1; 2] 30000)) as (Hnone & _ & Hgone).
  - unfold c. simpl. apply lookup_insert_eq.
  - simpl. lia.
  - split; [exact Hnone | exact Hgone].
Defined.

(** ** First-seen-wins merges *)

Section KeepFirst.
Context {A : Type} (key : A → string).

Lemma keepFirst_sublist (seen : gset string) (l : list A) :
  keepFirst key seen l `sublist_of` l.
Proof.
  revert seen. induction l as [|x l IH]; intros seen; simpl; [done|].
  case_bool_decide.
  - by apply sublist_cons.
  - by apply sublist_skip.
Qed.

Lemma keepFirst_fresh (seen : gset string) (l : list A) (x : A) :
  x ∈ keepFirst key seen l → key x ∉ seen.
Proof.
  revert seen. induction l as [|y l IH]; intros seen; simpl.
  - by intros ?%elem_of_nil.
  - case_bool_decide as Hy.
    + apply IH.
    + intros [->|Hin]%elem_of_cons; [done|].
      apply IH in Hin. set_solver.
Qed.

Lemma keepFirst_NoDup (seen : gset string) (l : list A) :
  NoDup (key <$> keepFirst key seen l).
Proof.
  revert seen. induction l as [|x l IH]; intros seen; simpl.
  - constructor.
  - case_bool_decide as Hx; [apply IH|].
    rewrite fmap_cons. constructor; [|apply IH].
    intros (y & Hkey & Hin)%list_elem_of_fmap.
    apply keepFirst_fresh in Hin. set_solver.
Qed.

Lemma keepFirst_covers (seen : gset string) (l : list A) (x : A) :
  x ∈ l → key x ∉ seen → ∃ y, y ∈ keepFirst key seen l ∧ key y = key x.
Proof.
  revert seen. induction l as [|z l IH]; intros seen Hin Hfresh; simpl.
  - by apply elem_of_nil in Hin.
  - apply elem_of_cons in Hin as [->|Hin].
    + rewrite bool_decide_eq_false_2 by done. exists z. split; [left|done].
    + case_bool_decide as Hz; [by apply IH|].
      destruct (decide (key x = key z)) as [Heq|Hne].
      * exists z. split; [left|done].
      * destruct (IH ({[key z]} ∪ seen) Hin) as (y & Hy & Hkey).
        { rewrite elem_of_union, elem_of_singleton. tauto. }
        exists y. split; [by right|done].
Qed.

Lemma keepFirst_first (seen : gset string) (l : list A) (y : A) :
  y ∈ keepFirst key seen l →
  ∃ before after, l = before ++ y :: after ∧ ∀ x, x ∈ before → key x ≠ key y.
Proof.
  revert seen. induction l as [|z l IH]; intros seen; simpl.
  - by intros ?%elem_of_nil.
  - case_bool_decide as Hz.
    + intros Hin. pose proof (keepFirst_fresh _ _ _ Hin) as Hfresh.
      destruct (IH _ Hin) as (before & after & -> & Hbefore).
      exists (z :: before), after. split; [done|].
      intros x [->|Hx]%elem_of_cons; [congruence | by apply Hbefore].
    + intros [->|Hin]%elem_of_cons.
      * exists [], l. split; [done|]. by intros x ?%elem_of_nil.
      * pose proof (keepFirst_fresh _ _ _ Hin) as Hfresh.
        destruct (IH _ Hin) as (before & after & -> & Hbefore).
        exists (z :: before), after. split; [done|].
        intros x [->|Hx]%elem_of_cons; [set_solver | by apply Hbefore].
Qed.

Lemma keepFirst_elem_of (seen : gset string) (l : list A) (x : A) :
  x ∈ keepFirst key seen l → x ∈ l.
Proof. intros Hin. eapply elem_of_sublist; [done | apply keepFirst_sublist]. Qed.

End KeepFirst.

Lemma JsMap_set_fresh {V} (key : string) (v : V) (m : JsMap.t V) :
  key ∉ m.*1 → JsMap.set key v m = m ++ [(key, v)].
Proof.
  induction m as [|[k v'] m IH]; simpl; [done|].
  rewrite not_elem_of_cons. intros [Hne Hfresh].
  rewrite bool_decide_eq_false_2 by done. by rewrite IH.
Qed.

Lemma JsMap_has_keys {V} (key : string) (m : JsMap.t V) :
  JsMap.has key m = bool_decide (key ∈ (list_to_set m.*1 : gset string)).
Proof. unfold JsMap.has. apply bool_decide_ext. by rewrite elem_of_list_to_set. Qed.

Lemma dedupLoop_keepFirst (results : list PlexUserAccess.t)
    (deduped : JsMap.t PlexUserAccess.t) :
  dedupLoop results deduped
  = deduped ++ ((λ user, (dedupKey user, user)) <$>
                keepFirst dedupKey (list_to_set deduped.*1) results).
Proof.
  revert deduped. induction results as [|user rest IH]; intros deduped; simpl.
  - by rewrite app_nil_r.
  - rewrite JsMap_has_keys. case_bool_decide as Hin; [apply IH|].
    rewrite elem_of_list_to_set in Hin.
    rewrite IH, JsMap_set_fresh by done.
    rewrite fmap_app, list_to_set_app_L. simpl.
    rewrite <-app_assoc. simpl. do 4 f_equal.
    apply set_eq. intros k. rewrite !elem_of_union, elem_of_empty. tauto.
Qed.

Lemma dedupe_keepFirst (results : list PlexUserAccess.t) :
  dedupe results = keepFirst dedupKey ∅ results.
Proof.
  unfold dedupe, JsMap.values. rewrite dedupLoop_keepFirst. simpl.
  rewrite <-list_fmap_compose. apply list_fmap_id.
Qed.

Lemma NoDup_fmap_coarser {A B C} (f : A → B) (g : A → C) (l : list A) :
  (∀ x y, x ∈ l → y ∈ l → f x = f y → g x = g y) →
  NoDup (g <$> l) → NoDup (f <$> l).
Proof.
  induction l as [|x l IH]; intros Hfg Hg; [constructor|].
  rewrite fmap_cons in *. apply NoDup_cons in Hg as [Hx Hg].
  apply NoDup_cons. split.
  - intros (y & Hf & Hy)%list_elem_of_fmap. apply Hx.
    apply list_elem_of_fmap. exists y. split; [|done].
    apply Hfg; [left | by right | done].
  - apply IH; [|done]. intros y z Hy Hz. apply Hfg; by right.
Qed.

Lemma NoDup_fmap_inj_on {A B} (f : A → B) (l : list A) (x y : A) :
  NoDup (f <$> l) → x ∈ l → y ∈ l → f x = f y → x = y.
Proof.
  induction l as [|z l IH]; intros Hnodup Hx Hy Hf; [by apply elem_of_nil in Hx|].
  rewrite fmap_cons in Hnodup. apply NoDup_cons in Hnodup as [Hz Hnodup].
  apply elem_of_cons in Hx as [->|Hx], Hy as [->|Hy]; [done| | |by apply IH].
  - destruct Hz. rewrite Hf. apply list_elem_of_fmap. by exists y.
  - destruct Hz. rewrite <-Hf. apply list_elem_of_fmap. by exists x.
Qed.

(** ** The merge of [fetchServerUsers] *)

Lemma dedupKey_noIdentity (user : PlexUserAccess.t) :
  noIdentity user →
  dedupKey user
  = JsString.toLowerCase
      (PlexUserAccess.serverIdentifier user +:+ "-" +:+
       match PlexUserAccess.id user with
       | Some n => JsString.ofZ n
       | None => "unknown"
       end).
Proof. intros (He & Hu & Hn). unfold dedupKey. by rewrite He, Hu, Hn. Qed.

Lemma dedupKey_noIdentity_inj (u v : PlexUserAccess.t) :
  noIdentity u → noIdentity v →
  PlexUserAccess.serverIdentifier u = PlexUserAccess.serverIdentifier v →
  dedupKey u = dedupKey v → PlexUserAccess.id u = PlexUserAccess.id v.
Proof.
  intros Hu Hv Hsid. rewrite !dedupKey_noIdentity, Hsid by done.
  rewrite !toLowerCase_app. intros Hkey%(inj (String.app _))%(inj (String.app _)).
  destruct (PlexUserAccess.id u) as [n|], (PlexUserAccess.id v) as [m|];
    rewrite ?toLowerCase_ofZ in Hkey;
    change (JsString.toLowerCase "unknown") with "unknown" in Hkey.
  - f_equal. by apply ofZ_inj.
  - by apply ofZ_not_unknown in Hkey.
  - symmetry in Hkey. by apply ofZ_not_unknown in Hkey.
  - done.
Qed.

(** C1: [fetchServerUsers] returns the merge of the records of the local
    accounts listing followed by those of the shared access listing; the
    merge keeps exactly one record per identity key, namely the first
    record seen with that key, unmodified and in the order of first
    appearance; the key is the lower-cased email if there is one (not
    null), else the lower-cased uuid (not null), else the lower-cased
    server identifier joined by a dash to the username (not empty), else
    joined to the numeric identifier.  The records with emails a@x.com
    (username u1) and A@X.COM (username u2) merge into the single record
    with username u1. *)
Theorem fetchServerUsers_first_seen_wins :
  (∀ env server token clientIdentifier w,
     let listedLocal :=
       localAccounts env server token clientIdentifier (record (Called FetchServerUsers) w) in
     let listedShared := sharedAccounts env server token clientIdentifier listedLocal.2 in
     ∃ localResults sharedResults,
       listedLocal.1 = Ok localResults
       ∧ listedShared.1 = Ok sharedResults
       ∧ fetchServerUsers env server token clientIdentifier w
         = (Ok (dedupe (localResults ++ sharedResults)), listedShared.2))
  ∧ (∀ localResults sharedResults : list PlexUserAccess.t,
       let results := localResults ++ sharedResults in
       let merged := dedupe results in
       NoDup (dedupKey <$> merged)
       ∧ (∀ user, user ∈ results → ∃ kept, kept ∈ merged ∧ dedupKey kept = dedupKey user)
       ∧ merged `sublist_of` results
       ∧ (∀ kept, kept ∈ merged →
            ∃ before after, results = before ++ kept :: after
                            ∧ ∀ user, user ∈ before → dedupKey user ≠ dedupKey kept))
  ∧ (∀ user email,
       PlexUserAccess.email user = Some email →
       dedupKey user = JsString.toLowerCase email)
  ∧ (∀ user uuid,
       PlexUserAccess.email user = None → PlexUserAccess.uuid user = Some uuid →
       dedupKey user = JsString.toLowerCase uuid)
  ∧ (∀ user username,
       PlexUserAccess.email user = None → PlexUserAccess.uuid user = None →
       PlexUserAccess.username user = Some username → username ≠ "" →
       dedupKey user
       = JsString.toLowerCase (PlexUserAccess.serverIdentifier user +:+ "-" +:+ username))
  ∧ (∀ user n,
       PlexUserAccess.email user = None → PlexUserAccess.uuid user = None →
       JsString.truthyOpt (PlexUserAccess.username user) = false →
       PlexUserAccess.id user = Some n →
       dedupKey user
       = JsString.toLowerCase (PlexUserAccess.serverIdentifier user +:+ "-" +:+ JsString.ofZ n))
  ∧ (∀ first second,
       PlexUserAccess.email first = Some "a@x.com" →
       PlexUserAccess.email second = Some "A@X.COM" →
       dedupe ([first] ++ [second]) = [first])
  ∧ (∃ kept, dedupe ([mailUser "a@x.com" "u1"] ++ [mailUser "A@X.COM" "u2"]) = [kept]
             ∧ PlexUserAccess.username kept = Some "u1").
Proof.
  split_and!.
  - intros env server token clientIdentifier w listedLocal listedShared.
    unfold fetchServerUsers, bind, called, ret.
    fold listedLocal.
    assert (∃ localResults, listedLocal.1 = Ok localResults) as [localResults Hl].
    { unfold listedLocal, localAccounts, tryCatch.
      destruct (bind _ _ _) as [[a|e] w']; simpl; eauto. }
    assert (∃ sharedResults, listedShared.1 = Ok sharedResults) as [sharedResults Hs].
    { unfold listedShared, sharedAccounts, tryCatch.
      destruct (bind _ _ _) as [[a|e] w']; simpl; eauto. }
    exists localResults, sharedResults. split_and!; [done..|].
    unfold listedShared in *. destruct listedLocal as [r1 w1]. simpl in *. subst r1.
    destruct (sharedAccounts _ _ _ _ w1) as [r2 w2]. simpl in *. by subst r2.
  - intros localResults sharedResults results merged. unfold merged.
    rewrite dedupe_keepFirst. split_and!.
    + apply keepFirst_NoDup.
    + intros user Hin. by apply keepFirst_covers.
    + apply keepFirst_sublist.
    + intros kept Hin. by eapply keepFirst_first.
  - intros user email He. unfold dedupKey. by rewrite He.
  - intros user uuid He Hu. unfold dedupKey. by rewrite He, Hu.
  - intros user username He Hu Hn Hne. unfold dedupKey. rewrite He, Hu, Hn. simpl.
    unfold JsString.truthy. by rewrite bool_decide_eq_false_2.
  - intros user n He Hu Hn Hid. unfold dedupKey. by rewrite He, Hu, Hid, Hn.
  - intros first second Hf Hs. unfold dedupe. simpl.
    unfold JsMap.has, dedupKey. rewrite Hf, Hs. done.
  - eexists. split; [reflexivity|done].
Qed.

(** The two records of the specification's example. *)
Lemma fetchServerUsers_first_seen_wins_witness :
  dedupe ([mailUser "a@x.com" "u1"] ++ [mailUser "A@X.COM" "u2"]) = [mailUser "a@x.com" "u1"].
Proof.
  destruct fetchServerUsers_first_seen_wins as (_ & _ & _ & _ & _ & _ & Hexample & _).
  apply Hexample; reflexivity.
Defined.

(** C9, as the code has it: for two records of one server that have
    neither email, uuid nor username, the identity key is the server
    identifier joined to the numeric identifier when there is one, and to
    the word unknown only when there is none; so the merge makes one
    record of the two exactly when their numeric identifiers are equal
    (in particular when both have none), and keeps them apart when their
    numeric identifiers differ. *)
Theorem dedupe_noIdentity_by_id (results : list PlexUserAccess.t)
    (u v : PlexUserAccess.t) :
  u ∈ results → v ∈ results →
  noIdentity u → noIdentity v →
  PlexUserAccess.serverIdentifier u = PlexUserAccess.serverIdentifier v →
  dedupKey u
  = JsString.toLowerCase
      (PlexUserAccess.serverIdentifier u +:+ "-" +:+
       match PlexUserAccess.id u with
       | Some n => JsString.ofZ n
       | None => "unknown"
       end)
  ∧ (dedupKey u = dedupKey v ↔ PlexUserAccess.id u = PlexUserAccess.id v)
  ∧ (PlexUserAccess.id u = PlexUserAccess.id v →
     ∃ kept, kept ∈ dedupe results
             ∧ dedupKey kept = dedupKey u
             ∧ dedupKey kept = dedupKey v
             ∧ ∀ other, other ∈ dedupe results →
                 dedupKey other = dedupKey u ∨ dedupKey other = dedupKey v →
                 other = kept)
  ∧ (PlexUserAccess.id u ≠ PlexUserAccess.id v →
     ∃ keptU keptV, keptU ∈ dedupe results
                    ∧ keptV ∈ dedupe results
                    ∧ dedupKey keptU = dedupKey u
                    ∧ dedupKey keptV = dedupKey v
                    ∧ keptU ≠ keptV).
Proof.
  intros Hu Hv Hnu Hnv Hsid. rewrite dedupe_keepFirst.
  assert (dedupKey u = dedupKey v ↔ PlexUserAccess.id u = PlexUserAccess.id v) as Hiff.
  { split; [by apply dedupKey_noIdentity_inj|].
    intros Hid. by rewrite !dedupKey_noIdentity, Hsid, Hid. }
  destruct (keepFirst_covers dedupKey ∅ results u Hu) as (keptU & HkeptU & HkeyU);
    [apply not_elem_of_empty|].
  destruct (keepFirst_covers dedupKey ∅ results v Hv) as (keptV & HkeptV & HkeyV);
    [apply not_elem_of_empty|].
  split_and!; [by apply dedupKey_noIdentity|done| |].
  - intros Hkey%Hiff. exists keptU. split_and!; [done|done|congruence|].
    intros other Hother Hsame.
    apply (NoDup_fmap_inj_on dedupKey (keepFirst dedupKey ∅ results));
      [apply keepFirst_NoDup|done|done|].
    destruct Hsame; congruence.
  - intros Hid. exists keptU, keptV. split_and!; [done..|].
    intros ->. apply Hid, Hiff. congruence.
Qed.

Lemma dedupe_noIdentity_by_id_witness :
  let results := [anonymous "M1" None; anonymous "M1" (Some 1);
                  anonymous "M1" None; anonymous "M1" (Some 2)] in
  dedupKey (anonymous "M1" (Some 1)) ≠ dedupKey (anonymous "M1" (Some 2))
  ∧ dedupe results = [anonymous "M1" None; anonymous "M1" (Some 1); anonymous "M1" (Some 2)].
Proof.
  intros results. split; [|vm_compute; reflexivity].
  destruct (dedupe_noIdentity_by_id results (anonymous "M1" (Some 1)) (anonymous "M1" (Some 2)))
    as (_ & Hiff & _).
  - unfold results. set_solver.
  - unfold results. set_solver.
  - by repeat split.
  - by repeat split.
  - reflexivity.
  - intros [=]%Hiff.
Defined.

(** Two records of server M1 without email, uuid and username, with the
    numeric identifiers 1 and 2, are both kept: their keys are m1-1 and
    m1-2, not m1-unknown. *)
Lemma dedupe_noIdentity_not_merged :
  noIdentity (anonymous "M1" (Some 1))
  ∧ noIdentity (anonymous "M1" (Some 2))
  ∧ dedupKey (anonymous "M1" (Some 1)) = "m1-1"
  ∧ dedupKey (anonymous "M1" (Some 2)) = "m1-2"
  ∧ dedupKey (anonymous "M1" (Some 1)) ≠ JsString.toLowerCase ("M1" +:+ "-unknown")
  ∧ dedupe ([anonymous "M1" (Some 1)] ++ [anonymous "M1" (Some 2)])
    = [anonymous "M1" (Some 1); anonymous "M1" (Some 2)].
Proof. vm_compute. repeat split; congruence. Qed.

(** ** The monad of manager code *)

Lemma bind_Ok {A B} (m : M A) (k : A → M B) (w w' : World) (a : A) :
  m w = (Ok a, w') → bind m k w = k a w'.
Proof. unfold bind. by intros ->. Qed.

Lemma noThrow_run {A} (m : M A) (w : World) :
  noThrow m → ∃ a w', m w = (Ok a, w').
Proof.
  intros Hm. destruct (Hm w) as [a Ha]. exists a, (m w).2.
  destruct (m w) as [r w']. simpl in *. by subst.
Qed.

Section Frames.
Context {X : Type} (f : World → X).

Lemma preserves_ret {A} (a : A) : preserves f (ret a).
Proof. by intros w. Qed.

Lemma preserves_throw {A} (e : Error) : preserves f (throw (A:=A) e).
Proof. by intros w. Qed.

Lemma preserves_bind {A B} (m : M A) (k : A → M B) :
  preserves f m → (∀ a, preserves f (k a)) → preserves f (bind m k).
Proof.
  intros Hm Hk w. unfold bind. specialize (Hm w).
  destruct (m w) as [[a|e] w']; simpl in *; [|done].
  by rewrite Hk.
Qed.

Lemma preserves_tryCatch {A} (m : M A) (handler : Error → M A) :
  preserves f m → (∀ e, preserves f (handler e)) → preserves f (tryCatch m handler).
Proof.
  intros Hm Hh w. unfold tryCatch. specialize (Hm w).
  destruct (m w) as [[a|e] w']; simpl in *; [done|].
  by rewrite Hh.
Qed.

End Frames.

Lemma noThrow_ret {A} (a : A) : noThrow (ret a).
Proof. intros w. by exists a. Qed.

Lemma noThrow_bind {A B} (m : M A) (k : A → M B) :
  noThrow m → (∀ a, noThrow (k a)) → noThrow (bind m k).
Proof.
  intros Hm Hk w. unfold bind. destruct (Hm w) as [a Ha].
  destruct (m w) as [[a'|e] w']; simpl in *; [|done]. apply Hk.
Qed.

Lemma noThrow_tryCatch {A} (m : M A) (handler : Error → M A) :
  (∀ e, noThrow (handler e)) → noThrow (tryCatch m handler).
Proof.
  intros Hh w. unfold tryCatch.
  destruct (m w) as [[a|e] w']; simpl; [by exists a | apply Hh].
Qed.

(** Splits a goal about a composed computation along its structure and
    closes the leaves with [leaf] or with a hypothesis. *)
Ltac frame leaf :=
  repeat first
    [ progress intros
    | progress cbv zeta
    | solve [auto]
    | leaf
    | match goal with
      | |- preserves _ (ret _) => apply preserves_ret
      | |- preserves _ (throw _) => apply preserves_throw
      | |- preserves _ (bind _ _) => apply preserves_bind
      | |- preserves _ (tryCatch _ _) => apply preserves_tryCatch
      | |- noThrow (ret _) => apply noThrow_ret
      | |- noThrow (bind _ _) => apply noThrow_bind
      | |- noThrow (tryCatch _ _) => apply noThrow_tryCatch
      | |- preserves _ (match ?x with _ => _ end) => destruct x
      | |- noThrow (match ?x with _ => _ end) => destruct x
      end ].

(** ** The adapter leaves the caches alone *)

Section AdapterFrames.
Context (env : Env).

Lemma serverCache_uuidv4 : preserves serverCache (uuidv4 env).
Proof. by intros w. Qed.
Lemma userCache_uuidv4 : preserves userCache (uuidv4 env).
Proof. by intros w. Qed.
Lemma serverCache_called op : preserves serverCache (called op).
Proof. by intros w. Qed.
Lemma userCache_called op : preserves userCache (called op).
Proof. by intros w. Qed.
Lemma serverCache_axios r : preserves serverCache (axios env r).
Proof. intros w. unfold axios. by destruct (http _ _ _). Qed.
Lemma userCache_axios r : preserves userCache (axios env r).
Proof. intros w. unfold axios. by destruct (http _ _ _). Qed.
Lemma noThrow_called op : noThrow (called op).
Proof. intros w. by exists tt. Qed.
Lemma noThrow_uuidv4 : noThrow (uuidv4 env).
Proof. intros w. by eexists. Qed.

Lemma serverCache_buildHeaders options : preserves serverCache (buildHeaders env options).
Proof. unfold buildHeaders. frame ltac:(apply serverCache_uuidv4). Qed.
Lemma userCache_buildHeaders options : preserves userCache (buildHeaders env options).
Proof. unfold buildHeaders. frame ltac:(apply userCache_uuidv4). Qed.
Lemma noThrow_buildHeaders options : noThrow (buildHeaders env options).
Proof. unfold buildHeaders. frame ltac:(apply noThrow_uuidv4). Qed.

Lemma serverCache_request url options : preserves serverCache (request env url options).
Proof.
  unfold request.
  frame ltac:(first [apply serverCache_buildHeaders | apply serverCache_axios]).
Qed.
Lemma userCache_request url options : preserves userCache (request env url options).
Proof.
  unfold request.
  frame ltac:(first [apply userCache_buildHeaders | apply userCache_axios]).
Qed.

Lemma serverCache_validateToken token cid :
  preserves serverCache (validateToken env token cid).
Proof.
  unfold validateToken.
  frame ltac:(first [apply serverCache_called | apply serverCache_request]).
Qed.
Lemma noThrow_validateToken token cid : noThrow (validateToken env token cid).
Proof. unfold validateToken. frame ltac:(apply noThrow_called). Qed.

Lemma serverCache_getResources token cid :
  preserves serverCache (getResources env token cid).
Proof.
  unfold getResources.
  frame ltac:(first [apply serverCache_called | apply serverCache_request]).
Qed.
Lemma userCache_getResources token cid :
  preserves userCache (getResources env token cid).
Proof.
  unfold getResources.
  frame ltac:(first [apply userCache_called | apply userCache_request]).
Qed.
Lemma noThrow_getResources token cid : noThrow (getResources env token cid).
Proof. unfold getResources. frame ltac:(apply noThrow_called). Qed.

Lemma serverCache_connectLoop connections resource token label cid :
  preserves serverCache (connectLoop env connections resource token label cid).
Proof. induction connections; simpl; frame ltac:(apply serverCache_request). Qed.
Lemma userCache_connectLoop connections resource token label cid :
  preserves userCache (connectLoop env connections resource token label cid).
Proof. induction connections; simpl; frame ltac:(apply userCache_request). Qed.
Lemma noThrow_connectLoop connections resource token label cid :
  noThrow (connectLoop env connections resource token label cid).
Proof. induction connections; simpl; frame fail. Qed.

Lemma serverCache_connectToServer resource token label cid :
  preserves serverCache (connectToServer env resource token label cid).
Proof.
  unfold connectToServer.
  frame ltac:(first [apply serverCache_called | apply serverCache_connectLoop]).
Qed.
Lemma userCache_connectToServer resource token label cid :
  preserves userCache (connectToServer env resource token label cid).
Proof.
  unfold connectToServer.
  frame ltac:(first [apply userCache_called | apply userCache_connectLoop]).
Qed.
Lemma noThrow_connectToServer resource token label cid :
  noThrow (connectToServer env resource token label cid).
Proof.
  unfold connectToServer.
  frame ltac:(first [apply noThrow_called | apply noThrow_connectLoop]).
Qed.

Lemma serverCache_fetchServerUsers server token cid :
  preserves serverCache (fetchServerUsers env server token cid).
Proof.
  unfold fetchServerUsers, localAccounts, sharedAccounts.
  frame ltac:(first [apply serverCache_called | apply serverCache_request]).
Qed.
Lemma noThrow_fetchServerUsers server token cid :
  noThrow (fetchServerUsers env server token cid).
Proof.
  unfold fetchServerUsers, localAccounts, sharedAccounts.
  frame ltac:(apply noThrow_called).
Qed.

Lemma serverCache_createAuthPin cid : preserves serverCache (createAuthPin env cid).
Proof.
  unfold createAuthPin.
  frame ltac:(first [apply serverCache_uuidv4 | apply serverCache_axios]).
Qed.
Lemma serverCache_checkAuthPin id cid : preserves serverCache (checkAuthPin env id cid).
Proof.
  unfold checkAuthPin.
  frame ltac:(first [apply serverCache_called | apply serverCache_buildHeaders
                    | apply serverCache_axios]).
Qed.

End AdapterFrames.

(** ** What a computation returns *)

Lemma returns_ret {A} (a : A) (P : A → Prop) : P a → returns (ret a) P.
Proof. intros Ha w a' w' [= <- _]. done. Qed.

Lemma returns_bind {A B} (m : M A) (k : A → M B) (Q : A → Prop) (P : B → Prop) :
  returns m Q → (∀ a, Q a → returns (k a) P) → returns (bind m k) P.
Proof.
  intros Hm Hk w b w'. unfold bind.
  destruct (m w) as [[a|e] w1] eqn:Em; [|done].
  apply Hk. by eapply Hm.
Qed.

Lemma returns_tryCatch {A} (m : M A) (handler : Error → M A) (P : A → Prop) :
  returns m P → (∀ e, returns (handler e) P) → returns (tryCatch m handler) P.
Proof.
  intros Hm Hh w a w'. unfold tryCatch.
  destruct (m w) as [[a'|e] w1] eqn:Em.
  - intros [= <- <-]. by eapply Hm.
  - apply Hh.
Qed.

Lemma returns_True {A} (m : M A) : returns m (λ _, True).
Proof. by intros w a w'. Qed.

(** ** The manager: loading the servers of one account *)

Section ManagerFacts.
Context (env : Env) (accounts : list Account.t).

Lemma connectLoop_label connections resource token label cid :
  returns (connectLoop env connections resource token label cid)
    (λ found, ∀ server, found = Some server → PlexServer.accountLabel server = label).
Proof.
  induction connections as [|connection rest IH]; simpl.
  - by apply returns_ret.
  - destruct (negb _); [done|].
    apply (returns_bind _ _
             (λ found, ∀ server, found = Some server → PlexServer.accountLabel server = label)).
    + apply returns_tryCatch.
      * eapply returns_bind; [apply returns_True|]. intros data _.
        destruct data as [| |[friendlyName|]| | | |]; apply returns_ret; try done.
        by intros server [= <-].
      * intros e. by apply returns_ret.
    + intros [server|] Hfound; [|done]. by apply returns_ret.
Qed.

Lemma connectToServer_label resource token label cid :
  returns (connectToServer env resource token label cid)
    (λ found, ∀ server, found = Some server → PlexServer.accountLabel server = label).
Proof.
  unfold connectToServer. eapply returns_bind; [apply returns_True|].
  intros _ _. apply connectLoop_label.
Qed.

Lemma connectAll_labels resources account connected :
  Forall (λ server, PlexServer.accountLabel server = Account.label account) connected →
  returns (connectAll env resources account connected)
    (Forall (λ server, PlexServer.accountLabel server = Account.label account)).
Proof.
  revert connected. induction resources as [|resource rest IH]; intros connected Hc; simpl.
  - by apply returns_ret.
  - eapply returns_bind; [apply connectToServer_label|].
    intros [server|] Hs; apply IH; [|done].
    apply Forall_app. split; [done|]. constructor; [by apply Hs | constructor].
Qed.

Lemma serverCache_connectAll resources account connected :
  preserves serverCache (connectAll env resources account connected).
Proof.
  revert connected.
  induction resources; simpl; frame ltac:(apply serverCache_connectToServer).
Qed.

Lemma userCache_connectAll resources account connected :
  preserves userCache (connectAll env resources account connected).
Proof.
  revert connected.
  induction resources; simpl; frame ltac:(apply userCache_connectToServer).
Qed.

Lemma noThrow_connectAll resources account connected :
  noThrow (connectAll env resources account connected).
Proof.
  revert connected.
  induction resources; simpl; frame ltac:(apply noThrow_connectToServer).
Qed.

Lemma reloadServers_spec account cacheKey w :
  ∃ connected entry w',
    reloadServers env account cacheKey w = (Ok connected, w')
    ∧ userCache w' = userCache w
    ∧ TTLCache.store (serverCache w') = <[cacheKey := entry]> (TTLCache.store (serverCache w))
    ∧ TTLCache.ttlMs (serverCache w') = TTLCache.ttlMs (serverCache w)
    ∧ TTLCache.value entry = connected
    ∧ Forall (λ server, PlexServer.accountLabel server = Account.label account) connected.
Proof.
  unfold reloadServers.
  destruct (noThrow_run (getResources env (Account.token account)
              (Some (Account.clientIdentifier account))) w) as (resources & w1 & E1);
    [apply noThrow_getResources|].
  destruct (noThrow_run (connectAll env resources account []) w1) as (connected & w2 & E2);
    [apply noThrow_connectAll|].
  rewrite (bind_Ok _ _ _ _ _ E1), (bind_Ok _ _ _ _ _ E2).
  pose proof (serverCache_getResources env (Account.token account)
                (Some (Account.clientIdentifier account)) w) as Hs1.
  pose proof (userCache_getResources env (Account.token account)
                (Some (Account.clientIdentifier account)) w) as Hu1.
  pose proof (serverCache_connectAll resources account [] w1) as Hs2.
  pose proof (userCache_connectAll resources account [] w1) as Hu2.
  rewrite E1 in Hs1, Hu1. rewrite E2 in Hs2, Hu2. simpl in *.
  eexists connected, (TTLCache.mkEntry connected _), _.
  unfold bind, serverCacheSet, ret. simpl.
  split; [reflexivity|]. simpl.
  split_and!; [congruence| |congruence|reflexivity|].
  - by rewrite Hs2, Hs1.
  - by eapply (connectAll_labels resources account []).
Qed.

Lemma loadServers_spec refresh account w :
  ∃ servers entry w',
    loadServers env refresh account w = (Ok servers, w')
    ∧ userCache w' = userCache w
    ∧ TTLCache.store (serverCache w') !! ("servers:" +:+ Account.label account) = Some entry
    ∧ TTLCache.value entry = servers
    ∧ (∀ key, key ≠ "servers:" +:+ Account.label account →
         TTLCache.store (serverCache w') !! key = TTLCache.store (serverCache w) !! key)
    ∧ (serverCacheOk w →
       Forall (λ server, PlexServer.accountLabel server = Account.label account) servers).
Proof.
  unfold loadServers. cbv zeta.
  set (cacheKey := "servers:" +:+ Account.label account).
  unfold bind at 1. unfold serverCacheGet, TTLCache.get.
  assert (∀ w0, userCache w0 = userCache w →
            (∀ key, key ≠ cacheKey →
               TTLCache.store (serverCache w0) !! key = TTLCache.store (serverCache w) !! key) →
            ∃ servers entry w',
              reloadServers env account cacheKey w0 = (Ok servers, w')
              ∧ userCache w' = userCache w
              ∧ TTLCache.store (serverCache w') !! cacheKey = Some entry
              ∧ TTLCache.value entry = servers
              ∧ (∀ key, key ≠ cacheKey →
                   TTLCache.store (serverCache w') !! key
                   = TTLCache.store (serverCache w) !! key)
              ∧ (serverCacheOk w →
                 Forall (λ server, PlexServer.accountLabel server = Account.label account)
                   servers)) as Hreload.
  { intros w0 Hu0 Hother.
    destruct (reloadServers_spec account cacheKey w0)
      as (connected & entry & w' & -> & Hu & Hs & _ & Hv & Hl).
    exists connected, entry, w'. split_and!; [done|congruence| |done| |done].
    - rewrite Hs. apply lookup_insert_eq.
    - intros key Hne. rewrite Hs, lookup_insert_ne by done. by apply Hother. }
  destruct (TTLCache.store (serverCache w) !! cacheKey) as [entry|] eqn:Hentry.
  - case_bool_decide as Hexpired.
    + apply Hreload; [done|]. intros key Hne. simpl. by rewrite lookup_delete_ne.
    + destruct refresh.
      * apply Hreload; [done|done].
      * eexists (TTLCache.value entry), entry, _. unfold ret.
        split; [reflexivity|]. simpl.
        split_and!; [done|done|done|done|].
        intros Hok. apply Forall_forall. intros server Hin. by eapply Hok.
  - apply Hreload; [done|done].
Qed.

Lemma loadServers_Ok refresh account w :
  serverCacheOk w →
  ∃ servers w',
    loadServers env refresh account w = (Ok servers, w')
    ∧ userCache w' = userCache w
    ∧ serverCacheOk w'
    ∧ Forall (λ server, PlexServer.accountLabel server = Account.label account) servers.
Proof.
  intros Hok.
  destruct (loadServers_spec refresh account w)
    as (servers & entry & w' & Hrun & Hu & Hentry & Hv & Hother & Hl).
  exists servers, w'. split_and!; [done..| |by apply Hl].
  intros label entry' Hlookup server Hin.
  destruct (decide ("servers:" +:+ label = "servers:" +:+ Account.label account)) as [Heq|Hne].
  - apply (inj (String.app _)) in Heq as ->.
    rewrite Hentry in Hlookup. injection Hlookup as <-.
    rewrite Hv in Hin. specialize (Hl Hok). rewrite Forall_forall in Hl. by apply Hl.
  - rewrite Hother in Hlookup by done. by eapply Hok.
Qed.

(** ** The manager: merging the server lists *)

Lemma keepFirst_app {A} (key : A → string) (seen : gset string) (l1 l2 : list A) :
  keepFirst key seen (l1 ++ l2)
  = keepFirst key seen l1 ++ keepFirst key (list_to_set (key <$> l1) ∪ seen) l2.
Proof.
  revert seen. induction l1 as [|x l1 IH]; intros seen; simpl.
  - f_equal. apply set_eq. intros k. rewrite elem_of_union, elem_of_empty. tauto.
  - case_bool_decide as Hx.
    + rewrite IH. do 2 f_equal. apply set_eq. intros k.
      rewrite !elem_of_union, elem_of_singleton. split; [tauto|].
      intros [[->|?]|?]; tauto.
    + simpl. rewrite IH. do 3 f_equal. apply set_eq. intros k.
      rewrite !elem_of_union, elem_of_singleton. tauto.
Qed.

Lemma mergeServers_keepFirst servers account aggregated (seen : gset string) :
  Forall (λ server, PlexServer.accountLabel server = Account.label account) servers →
  mergeServers servers account aggregated seen
  = (aggregated ++ keepFirst serverKey seen servers,
     list_to_set (serverKey <$> servers) ∪ seen).
Proof.
  intros Hl. revert aggregated seen.
  induction Hl as [|server rest Hlabel _ IH]; intros aggregated seen; simpl.
  - rewrite app_nil_r. f_equal. apply set_eq. intros k.
    rewrite elem_of_union, elem_of_empty. tauto.
  - rewrite <-Hlabel. fold (serverKey server). case_bool_decide as Hseen.
    + rewrite IH. f_equal. apply set_eq. intros k.
      rewrite !elem_of_union, elem_of_singleton. split; [tauto|].
      intros [[->|?]|?]; tauto.
    + rewrite IH, <-app_assoc. simpl. f_equal. apply set_eq. intros k.
      rewrite !elem_of_union, elem_of_singleton. tauto.
Qed.

Lemma mergeAll_keepFirst accts lists aggregated (seen : gset string) :
  Forall2 (λ account servers,
             Forall (λ server, PlexServer.accountLabel server = Account.label account) servers)
    accts lists →
  mergeAll accts lists aggregated seen
  = aggregated ++ keepFirst serverKey seen (concat lists).
Proof.
  intros Hl. revert aggregated seen.
  induction Hl as [|account servers accts lists Hs _ IH]; intros aggregated seen; simpl.
  - by rewrite app_nil_r.
  - rewrite mergeServers_keepFirst by done.
    rewrite IH, keepFirst_app, app_assoc. done.
Qed.

Lemma getServersLoop_mapM refresh accts aggregated seen w :
  ∃ lists w',
    mapM (loadServers env refresh) accts w = (Ok lists, w')
    ∧ getServersLoop env refresh accts aggregated seen w
      = (Ok (mergeAll accts lists aggregated seen), w').
Proof.
  revert aggregated seen w.
  induction accts as [|account rest IH]; intros aggregated seen w; simpl.
  - by exists [], w.
  - destruct (loadServers_spec refresh account w) as (servers & entry & w1 & Hrun & _).
    rewrite !(bind_Ok _ _ _ _ _ Hrun).
    destruct (mergeServers servers account aggregated seen) as [aggregated1 seen1] eqn:Hm.
    destruct (IH aggregated1 seen1 w1) as (lists & w' & Hmap & Hloop).
    exists (servers :: lists), w'. rewrite (bind_Ok _ _ _ _ _ Hmap), Hm. done.
Qed.

Lemma loadAll_labels refresh accts w lists w' :
  serverCacheOk w →
  mapM (loadServers env refresh) accts w = (Ok lists, w') →
  Forall2 (λ account servers,
             Forall (λ server, PlexServer.accountLabel server = Account.label account) servers)
    accts lists
  ∧ serverCacheOk w'
  ∧ userCache w' = userCache w.
Proof.
  revert w lists. induction accts as [|account rest IH]; intros w lists Hok; simpl.
  - intros [= <- <-]. split_and!; [constructor|done..].
  - destruct (loadServers_Ok refresh account w Hok) as (servers & w1 & Hrun & Hu & Hok1 & Hl).
    rewrite (bind_Ok _ _ _ _ _ Hrun). unfold bind.
    destruct (mapM _ rest w1) as [[lists'|e] w2] eqn:Hmap; [|done].
    intros [= <- <-]. destruct (IH w1 lists' Hok1 Hmap) as (Hall & Hok2 & Hu2).
    split_and!; [by constructor|done|congruence].
Qed.

Lemma getServers_Ok refresh w :
  serverCacheOk w →
  ∃ lists servers w',
    mapM (loadServers env refresh) accounts w = (Ok lists, w')
    ∧ getServers env accounts refresh w = (Ok servers, w')
    ∧ servers = keepFirst serverKey ∅ (concat lists)
    ∧ Forall2 (λ account servers,
                 Forall (λ server, PlexServer.accountLabel server = Account.label account)
                   servers) accounts lists
    ∧ serverCacheOk w'
    ∧ userCache w' = userCache w.
Proof.
  intros Hok. unfold getServers.
  destruct (getServersLoop_mapM refresh accounts [] ∅ w) as (lists & w' & Hmap & Hloop).
  destruct (loadAll_labels refresh accounts w lists w' Hok Hmap) as (Hall & Hok' & Hu).
  exists lists, (mergeAll accounts lists [] ∅), w'.
  split_and!; [done..| |done|done|done].
  by rewrite mergeAll_keepFirst.
Qed.

Lemma serverKey_pair (s1 s2 : PlexServer.t) :
  (PlexServer.machineIdentifier s1, PlexServer.accountLabel s1)
  = (PlexServer.machineIdentifier s2, PlexServer.accountLabel s2) →
  serverKey s1 = serverKey s2.
Proof. unfold serverKey. by intros [= -> ->]. Qed.

Lemma append_cons (x : ascii) (a s : string) : String x a +:+ s = String x (a +:+ s).
Proof. reflexivity. Qed.

Lemma append_empty (s : string) : "" +:+ s = s.
Proof. reflexivity. Qed.

Lemma colon_join_inj (a b c d : string) :
  noColon a = true → noColon c = true →
  a +:+ ":" +:+ b = c +:+ ":" +:+ d → a = c ∧ b = d.
Proof.
  unfold noColon. revert c.
  induction a as [|x a IH]; intros [|y c] Ha Hc Heq; simpl in Ha, Hc;
    rewrite ?append_cons, ?append_empty in Heq.
  - by injection Heq as ->.
  - injection Heq as <- _. by rewrite bool_decide_eq_true_2 in Hc.
  - injection Heq as -> _. by rewrite bool_decide_eq_true_2 in Ha.
  - injection Heq as -> Heq.
    apply andb_true_iff in Ha as [_ Ha]. apply andb_true_iff in Hc as [_ Hc].
    destruct (IH c Ha Hc Heq) as [-> ->]. done.
Qed.

Lemma serverKey_same_machine (s1 s2 : PlexServer.t) :
  PlexServer.machineIdentifier s1 = PlexServer.machineIdentifier s2 →
  serverKey s1 = serverKey s2 → PlexServer.accountLabel s1 = PlexServer.accountLabel s2.
Proof.
  unfold serverKey. intros ->.
  by intros Hkey%(inj (String.app _))%(inj (String.app _)).
Qed.

End ManagerFacts.

(** ** The manager: what every reachable state satisfies *)

Section ManagerInvariant.
Context (env : Env).
Context (fuseMatch : string → PlexUserAccess.t → option (Q * list FuseMatch.t)).
Context (accounts : list Account.t).

Lemma serverCacheOk_same (w w' : World) :
  serverCache w' = serverCache w → serverCacheOk w → serverCacheOk w'.
Proof. unfold serverCacheOk. by intros ->. Qed.

Lemma serverCache_userCacheGet key : preserves serverCache (userCacheGet env key).
Proof. intros w. unfold userCacheGet. by destruct (TTLCache.get _ _ _). Qed.

Lemma serverCache_userCacheSet key v : preserves serverCache (userCacheSet env key v).
Proof. by intros w. Qed.

Lemma noThrow_userCacheGet key : noThrow (userCacheGet env key).
Proof. intros w. unfold userCacheGet. destruct (TTLCache.get _ _ _). by eexists. Qed.

Lemma noThrow_userCacheSet key v : noThrow (userCacheSet env key v).
Proof. intros w. by exists tt. Qed.

Lemma findTokenForAccount_frame {X} (f : World → X) label :
  preserves f (findTokenForAccount accounts label).
Proof. unfold findTokenForAccount. by destruct (find _ _). Qed.

Lemma findClientIdentifier_frame {X} (f : World → X) label :
  preserves f (findClientIdentifier accounts label).
Proof. unfold findClientIdentifier. by destruct (find _ _). Qed.

Lemma find_label_Some label :
  label ∈ Account.label <$> accounts →
  ∃ account,
    find (λ acct, bool_decide (Account.label acct = label)) accounts = Some account.
Proof.
  intros (account & -> & Hin)%list_elem_of_fmap.
  destruct (find _ _) as [found|] eqn:Hfind; [by exists found|].
  apply list_elem_of_In in Hin.
  apply (find_none _ _ Hfind account) in Hin.
  by apply bool_decide_eq_false in Hin.
Qed.

Lemma findTokenForAccount_Ok label w :
  label ∈ Account.label <$> accounts →
  ∃ token, findTokenForAccount accounts label w = (Ok token, w).
Proof.
  intros [account Hfind]%find_label_Some. unfold findTokenForAccount.
  rewrite Hfind. by eexists.
Qed.

Lemma findClientIdentifier_Ok label w :
  label ∈ Account.label <$> accounts →
  ∃ cid, findClientIdentifier accounts label w = (Ok cid, w).
Proof.
  intros [account Hfind]%find_label_Some. unfold findClientIdentifier.
  rewrite Hfind. by eexists.
Qed.

Lemma serverCache_loadUsers refresh server :
  preserves serverCache (loadUsers env accounts refresh server).
Proof.
  unfold loadUsers, reloadUsers.
  frame ltac:(first [apply serverCache_userCacheGet | apply serverCache_userCacheSet
                    | apply findTokenForAccount_frame | apply findClientIdentifier_frame
                    | apply serverCache_fetchServerUsers]).
Qed.

Lemma serverCache_usersLoop refresh servers users :
  preserves serverCache (usersLoop env accounts refresh servers users).
Proof.
  revert users. induction servers; simpl; frame ltac:(apply serverCache_loadUsers).
Qed.

Lemma noThrow_loadUsers refresh server :
  PlexServer.accountLabel server ∈ Account.label <$> accounts →
  noThrow (loadUsers env accounts refresh server).
Proof.
  intros Hlabel.
  assert (noThrow (findTokenForAccount accounts (PlexServer.accountLabel server))).
  { intros w. destruct (findTokenForAccount_Ok _ w Hlabel) as [token ->]. by eexists. }
  assert (noThrow (findClientIdentifier accounts (PlexServer.accountLabel server))).
  { intros w. destruct (findClientIdentifier_Ok _ w Hlabel) as [cid ->]. by eexists. }
  unfold loadUsers, reloadUsers.
  frame ltac:(first [apply noThrow_userCacheGet | apply noThrow_userCacheSet
                    | apply noThrow_fetchServerUsers]).
Qed.

Lemma noThrow_usersLoop refresh servers users :
  Forall (λ server, PlexServer.accountLabel server ∈ Account.label <$> accounts) servers →
  noThrow (usersLoop env accounts refresh servers users).
Proof.
  intros Hall. revert users.
  induction Hall as [|server rest Hlabel _ IH]; intros users; simpl.
  - apply noThrow_ret.
  - pose proof (noThrow_loadUsers refresh server Hlabel). frame fail.
Qed.

Lemma serverCache_validateLoop accts results :
  preserves serverCache (validateLoop env accts results).
Proof.
  revert results.
  induction accts; simpl; frame ltac:(apply serverCache_validateToken).
Qed.

Lemma getUsersAcrossServers_serverCacheOk refresh w :
  serverCacheOk w → serverCacheOk (getUsersAcrossServers env accounts refresh w).2.
Proof.
  intros Hok. unfold getUsersAcrossServers.
  destruct (getServers_Ok env accounts refresh w Hok)
    as (lists & servers & w1 & _ & Hrun & _ & _ & Hok1 & _).
  rewrite (bind_Ok _ _ _ _ _ Hrun).
  eapply serverCacheOk_same; [|exact Hok1]. apply serverCache_usersLoop.
Qed.

Lemma runCall_serverCacheOk c w :
  serverCacheOk w → serverCacheOk (runCall env fuseMatch accounts c w).
Proof.
  intros Hok. destruct c as [|refresh|refresh|query options|cid|id cid|]; simpl.
  - eapply serverCacheOk_same; [|exact Hok]. apply serverCache_validateLoop.
  - destruct (getServers_Ok env accounts refresh w Hok)
      as (lists & servers & w1 & _ & -> & _ & _ & Hok1 & _). done.
  - by apply getUsersAcrossServers_serverCacheOk.
  - unfold searchUsers. destruct (negb _); [done|].
    pose proof (getUsersAcrossServers_serverCacheOk
                  (default false (SearchOptions.refresh options)) w Hok) as Hok1.
    unfold bind. destruct (getUsersAcrossServers _ _ _ _) as [[users|e] w1]; [|done].
    by case_bool_decide.
  - eapply serverCacheOk_same; [|exact Hok].
    unfold generateAuthPin. apply preserves_bind; [apply serverCache_createAuthPin|].
    intros pin. apply preserves_ret.
  - eapply serverCacheOk_same; [|exact Hok]. apply serverCache_checkAuthPin.
  - intros label entry Hlookup. simpl in Hlookup. by rewrite lookup_empty in Hlookup.
Qed.

Lemma Reachable_serverCacheOk w :
  Reachable env fuseMatch accounts w → serverCacheOk w.
Proof.
  induction 1 as [ttl|c w _ IH].
  - intros label entry Hlookup. simpl in Hlookup. by rewrite lookup_empty in Hlookup.
  - by apply runCall_serverCacheOk.
Qed.

Lemma concat_Forall2_elem_of {A B} (P : A → list B → Prop) (xs : list A)
    (lists : list (list B)) (y : B) :
  Forall2 P xs lists → y ∈ concat lists →
  ∃ x l, x ∈ xs ∧ P x l ∧ y ∈ l.
Proof.
  induction 1 as [|x l xs lists HP _ IH]; simpl.
  - by intros ?%elem_of_nil.
  - intros [Hy|Hy]%elem_of_app.
    + exists x, l. split_and!; [left|done..].
    + destruct (IH Hy) as (x' & l' & Hx' & HP' & Hy'). exists x', l'.
      split_and!; [by right|done..].
Qed.

Lemma getServers_known refresh w :
  serverCacheOk w →
  ∃ servers w',
    getServers env accounts refresh w = (Ok servers, w')
    ∧ Forall (λ server, PlexServer.accountLabel server ∈ Account.label <$> accounts) servers.
Proof.
  intros Hok.
  destruct (getServers_Ok env accounts refresh w Hok)
    as (lists & servers & w1 & _ & Hrun & -> & Hall & _).
  exists (keepFirst serverKey ∅ (concat lists)), w1. split; [done|].
  apply Forall_forall. intros server Hin%keepFirst_elem_of.
  destruct (concat_Forall2_elem_of _ _ _ _ Hall Hin) as (account & l & Ha & Hl & Hs).
  rewrite Forall_forall in Hl. rewrite (Hl _ Hs).
  apply list_elem_of_fmap. by exists account.
Qed.

End ManagerInvariant.

(** ** The aggregated server list *)

(** C2: from every state the manager can be in, [getServers] returns the
    first-seen merge of the server lists of the accounts, taken in account
    order from the cache or from the adapter: no two servers of the result
    have the same machine identifier and account label, the result keeps
    the order of the lists, and every listed server is represented by the
    first server listed with its key, the machine identifier joined by a
    colon to the account label (which determines the pair when machine
    identifiers hold no colon).  Two entries with one machine identifier
    listed under differently labelled accounts are both kept; two such
    entries listed under one account give one server. *)
Theorem getServers_one_per_machine_and_account :
  (∀ env fuseMatch accounts refresh w,
     Reachable env fuseMatch accounts w →
     ∃ lists servers w',
       mapM (loadServers env refresh) accounts w = (Ok lists, w')
       ∧ getServers env accounts refresh w = (Ok servers, w')
       ∧ Forall2 (λ account listed,
                    ∀ server, server ∈ listed →
                      PlexServer.accountLabel server = Account.label account)
           accounts lists
       ∧ NoDup ((λ server, (PlexServer.machineIdentifier server,
                            PlexServer.accountLabel server)) <$> servers)
       ∧ servers `sublist_of` concat lists
       ∧ (∀ server, server ∈ concat lists →
            ∃ kept, kept ∈ servers ∧ serverKey kept = serverKey server)
       ∧ (∀ kept, kept ∈ servers →
            ∃ before after, concat lists = before ++ kept :: after
                            ∧ ∀ server, server ∈ before → serverKey server ≠ serverKey kept))
  ∧ (∀ s1 s2,
       PlexServer.machineIdentifier s1 = PlexServer.machineIdentifier s2 →
       (serverKey s1 = serverKey s2 ↔ PlexServer.accountLabel s1 = PlexServer.accountLabel s2))
  ∧ (∀ s1 s2,
       noColon (PlexServer.machineIdentifier s1) = true →
       noColon (PlexServer.machineIdentifier s2) = true →
       serverKey s1 = serverKey s2 →
       PlexServer.machineIdentifier s1 = PlexServer.machineIdentifier s2
       ∧ PlexServer.accountLabel s1 = PlexServer.accountLabel s2)
  ∧ (∀ a1 a2 s1 s2,
       Account.label a1 ≠ Account.label a2 →
       PlexServer.machineIdentifier s1 = PlexServer.machineIdentifier s2 →
       mergeAll [a1; a2] [[s1]; [s2]] [] ∅ = [s1; s2])
  ∧ (∀ a s1 s2,
       PlexServer.machineIdentifier s1 = PlexServer.machineIdentifier s2 →
       mergeAll [a] [[s1; s2]] [] ∅ = [s1])
  ∧ (getServers (demoEnv [resourceM1 "one"] []) [accountA; accountB] false
       (newManager 300000)).1
    = Ok [serverM1 "one" "A"; serverM1 "one" "B"]
  ∧ (getServers (demoEnv [resourceM1 "one"; resourceM1 "two"] []) [accountA] false
       (newManager 300000)).1
    = Ok [serverM1 "one" "A"].
Proof.
  split_and!.
  - intros env fuseMatch accounts refresh w Hreach%Reachable_serverCacheOk.
    destruct (getServers_Ok env accounts refresh w Hreach)
      as (lists & servers & w' & Hmap & Hrun & -> & Hall & _).
    exists lists, (keepFirst serverKey ∅ (concat lists)), w'.
    split_and!; [done|done| | | | |].
    + eapply Forall2_impl; [exact Hall|]. intros account listed Hl server Hin.
      rewrite Forall_forall in Hl. by apply Hl.
    + apply (NoDup_fmap_coarser _ serverKey); [|apply keepFirst_NoDup].
      intros s1 s2 _ _. apply serverKey_pair.
    + apply keepFirst_sublist.
    + intros server Hin. apply keepFirst_covers; [done|apply not_elem_of_empty].
    + intros kept Hin. by eapply keepFirst_first.
  - intros s1 s2 Hmi. split; [by apply serverKey_same_machine|].
    intros Hl. apply serverKey_pair. by rewrite Hmi, Hl.
  - intros s1 s2 H1 H2 Hkey. by apply colon_join_inj.
  - intros a1 a2 s1 s2 Hne Hmi. simpl.
    rewrite bool_decide_eq_false_2 by apply not_elem_of_empty.
    rewrite bool_decide_eq_false_2; [done|].
    rewrite elem_of_union, elem_of_singleton, elem_of_empty, Hmi.
    intros [Hkey%(inj (String.app _))%(inj (String.app _))|[]]. by apply Hne.
  - intros a s1 s2 Hmi. simpl.
    rewrite bool_decide_eq_false_2 by apply not_elem_of_empty.
    rewrite bool_decide_eq_true_2; [done|].
    rewrite elem_of_union, elem_of_singleton, Hmi. by left.
  - vm_compute. reflexivity.
  - vm_compute. reflexivity.
Qed.

(** A new manager for the accounts A and B, both of which see M1. *)
Lemma getServers_one_per_machine_and_account_witness :
  ∃ servers,
    (getServers (demoEnv [resourceM1 "one"] []) [accountA; accountB] false
       (newManager 300000)).1 = Ok servers
    ∧ NoDup ((λ server, (PlexServer.machineIdentifier server,
                         PlexServer.accountLabel server)) <$> servers).
Proof.
  destruct getServers_one_per_machine_and_account as (Hgeneral & _).
  destruct (Hgeneral (demoEnv [resourceM1 "one"] []) (matchAll 0) [accountA; accountB] false
              (newManager 300000))
    as (lists & servers & w' & _ & Hrun & _ & Hnodup & _).
  - apply ReachableNew.
  - exists servers. by rewrite Hrun.
Defined.

(** C10: from every state the manager can be in, each server returned by
    [getServers] carries the label of a configured account, so the label
    lookups of [getUsersAcrossServers] find their account and
    [getUsersAcrossServers] never throws. *)
Theorem getServers_labels_are_configured env fuseMatch accounts refresh w :
  Reachable env fuseMatch accounts w →
  (∃ servers w1,
     getServers env accounts refresh w = (Ok servers, w1)
     ∧ (∀ server, server ∈ servers →
          ∃ account, account ∈ accounts
                     ∧ Account.label account = PlexServer.accountLabel server)
     ∧ (∀ server w0, server ∈ servers →
          ∃ token clientIdentifier,
            findTokenForAccount accounts (PlexServer.accountLabel server) w0 = (Ok token, w0)
            ∧ findClientIdentifier accounts (PlexServer.accountLabel server) w0
              = (Ok clientIdentifier, w0)))
  ∧ (∃ users w2, getUsersAcrossServers env accounts refresh w = (Ok users, w2)).
Proof.
  intros Hok%Reachable_serverCacheOk.
  destruct (getServers_known env accounts refresh w Hok) as (servers & w1 & Hrun & Hknown).
  split.
  - exists servers, w1. rewrite Forall_forall in Hknown. split_and!; [done| |].
    + intros server (account & Hl & Hin)%Hknown%list_elem_of_fmap. by exists account.
    + intros server w0 Hin%Hknown.
      destruct (findTokenForAccount_Ok accounts _ w0 Hin) as [token Htoken].
      destruct (findClientIdentifier_Ok accounts _ w0 Hin) as [cid Hcid].
      by exists token, cid.
  - unfold getUsersAcrossServers. rewrite (bind_Ok _ _ _ _ _ Hrun).
    apply noThrow_run. by apply noThrow_usersLoop.
Qed.

Lemma getServers_labels_are_configured_witness :
  ∃ users w2,
    getUsersAcrossServers (demoEnv [resourceM1 "one"] []) [accountA; accountB] false
      (newManager 300000) = (Ok users, w2).
Proof.
  apply (getServers_labels_are_configured (demoEnv [resourceM1 "one"] []) (matchAll 0)
           [accountA; accountB] false (newManager 300000)).
  apply ReachableNew.
Defined.

(** ** Repeating [getServers] within the time to live *)

Section Idempotence.
Context (env : Env).

Lemma loadAll_cached refresh accts w lists w' :
  NoDup (Account.label <$> accts) →
  mapM (loadServers env refresh) accts w = (Ok lists, w') →
  Forall2 (λ account servers,
             ∃ entry,
               TTLCache.store (serverCache w') !! ("servers:" +:+ Account.label account)
               = Some entry
               ∧ TTLCache.value entry = servers) accts lists
  ∧ (∀ key, (∀ account, account ∈ accts → key ≠ "servers:" +:+ Account.label account) →
       TTLCache.store (serverCache w') !! key = TTLCache.store (serverCache w) !! key).
Proof.
  revert w lists. induction accts as [|account rest IH]; intros w lists Hnodup; simpl.
  - intros [= <- <-]. split; [constructor|done].
  - rewrite fmap_cons in Hnodup. apply NoDup_cons in Hnodup as [Hfresh Hnodup].
    destruct (loadServers_spec env refresh account w)
      as (servers & entry & w1 & Hrun & _ & Hentry & Hvalue & Hother & _).
    rewrite (bind_Ok _ _ _ _ _ Hrun). unfold bind.
    destruct (mapM _ rest w1) as [[lists'|e] w2] eqn:Hmap; [|done].
    intros [= <- <-]. destruct (IH w1 lists' Hnodup Hmap) as [Hall Hframe].
    split.
    + constructor; [|done]. exists entry. split; [|done].
      rewrite Hframe; [done|]. intros other Hin Heq%(inj (String.app _)).
      apply Hfresh. rewrite Heq. apply list_elem_of_fmap. by exists other.
    + intros key Hkey. rewrite Hframe, Hother; [done|..].
      * apply Hkey. left.
      * intros other Hin. apply Hkey. by right.
Qed.

Lemma loadAll_hits accts lists w :
  Forall2 (λ account servers,
             ∃ entry,
               TTLCache.store (serverCache w) !! ("servers:" +:+ Account.label account)
               = Some entry
               ∧ TTLCache.value entry = servers) accts lists →
  (∀ account entry (i : nat),
     account ∈ accts →
     TTLCache.store (serverCache w) !! ("servers:" +:+ Account.label account) = Some entry →
     (i < length accts)%nat →
     clock env (step w + i) ≤ TTLCache.expiresAt entry) →
  mapM (loadServers env false) accts w
  = (Ok lists, {| step := step w + length accts;
                  serverCache := serverCache w;
                  userCache := userCache w;
                  trace := trace w |}).
Proof.
  intros Hall. revert w lists Hall.
  induction accts as [|account rest IH]; intros w lists Hall Hfresh.
  - apply Forall2_nil_inv_l in Hall as ->. simpl. unfold ret.
    rewrite Nat.add_0_r. by destruct w.
  - apply Forall2_cons_inv_l in Hall as (servers & lists' & (entry & Hentry & Hvalue) & Hall & ->).
    simpl.
    assert (loadServers env false account w
            = (Ok servers, {| step := S (step w); serverCache := serverCache w;
                              userCache := userCache w; trace := trace w |})) as Hrun.
    { unfold loadServers, bind, serverCacheGet, TTLCache.get. cbv zeta.
      rewrite Hentry. rewrite bool_decide_eq_false_2.
      - unfold ret. by rewrite Hvalue.
      - pose proof (Hfresh account entry 0%nat) as Hnow.
        rewrite Nat.add_0_r in Hnow. simpl in Hnow.
        cut (clock env (step w) ≤ TTLCache.expiresAt entry); [lia|].
        apply Hnow; [left|done|lia]. }
    rewrite (bind_Ok _ _ _ _ _ Hrun).
    set (w1 := {| step := S (step w); serverCache := serverCache w;
                  userCache := userCache w; trace := trace w |}).
    assert (mapM (loadServers env false) rest w1
            = (Ok lists', {| step := step w1 + length rest; serverCache := serverCache w1;
                             userCache := userCache w1; trace := trace w1 |})) as Hrest.
    { apply IH; [exact Hall|].
      intros other entry' i Hin Hlookup Hi. simpl in *.
      replace (S (step w + i))%nat with (step w + S i)%nat by lia.
      apply (Hfresh other); [by right|done|lia]. }
    rewrite (bind_Ok _ _ _ _ _ Hrest).
    unfold ret. simpl. do 2 f_equal. lia.
Qed.

End Idempotence.

(** C4: with account labels that are pairwise distinct, a second
    [getServers(false)], made while the server list entry of every account
    is within its time to live at each of the second call's steps, calls
    no adapter operation and sends no request (the trace is unchanged),
    leaves both caches as they are, and returns the list the first call
    returned. *)
Theorem getServers_twice_within_ttl env accounts w servers w1 :
  NoDup (Account.label <$> accounts) →
  getServers env accounts false w = (Ok servers, w1) →
  (∀ account entry (i : nat),
     account ∈ accounts →
     TTLCache.store (serverCache w1) !! ("servers:" +:+ Account.label account) = Some entry →
     (i < length accounts)%nat →
     clock env (step w1 + i) ≤ TTLCache.expiresAt entry) →
  ∃ w2,
    getServers env accounts false w1 = (Ok servers, w2)
    ∧ trace w2 = trace w1
    ∧ serverCache w2 = serverCache w1
    ∧ userCache w2 = userCache w1
    ∧ step w2 = (step w1 + length accounts)%nat.
Proof.
  intros Hnodup Hfirst Hfresh. unfold getServers in *.
  destruct (getServersLoop_mapM env false accounts [] ∅ w) as (lists & w1' & Hmap & Hloop).
  rewrite Hloop in Hfirst. injection Hfirst as <- <-.
  destruct (loadAll_cached env false accounts w lists w1' Hnodup Hmap) as [Hcached _].
  pose proof (loadAll_hits env accounts lists w1' Hcached Hfresh) as Hsecond.
  destruct (getServersLoop_mapM env false accounts [] ∅ w1') as (lists2 & w2 & Hmap2 & Hloop2).
  rewrite Hsecond in Hmap2. injection Hmap2 as <- <-.
  eexists. split; [exact Hloop2|done].
Qed.

(** The accounts A and B on a new manager with a time to live of 300
    seconds: the second call follows the first at once. *)
Lemma getServers_twice_within_ttl_witness :
  let env := demoEnv [resourceM1 "one"] [] in
  let first := getServers env [accountA; accountB] false (newManager 300000) in
  ∃ w2,
    getServers env [accountA; accountB] false first.2
    = (Ok [serverM1 "one" "A"; serverM1 "one" "B"], w2)
    ∧ trace w2 = trace first.2.
Proof.
  intros env first.
  destruct (getServers_twice_within_ttl env [accountA; accountB] (newManager 300000)
              [serverM1 "one" "A"; serverM1 "one" "B"] first.2)
    as (w2 & Hrun & Htrace & _).
  - simpl. apply NoDup_cons. split; [|apply NoDup_singleton].
    by intros [=]%list_elem_of_singleton.
  - vm_compute. reflexivity.
  - intros account entry i Hin Hlookup Hi.
    assert (300000 ≤ TTLCache.expiresAt entry) as Hexpiry.
    { apply elem_of_cons in Hin as [->|Hin];
        [|apply list_elem_of_singleton in Hin as ->];
        vm_compute in Hlookup; injection Hlookup as <-; vm_compute; congruence. }
    change (clock env (step first.2 + i)) with (1000 * Z.of_nat (step first.2 + i)).
    assert (step first.2 = 8%nat) as -> by (vm_compute; reflexivity).
    simpl in Hi. lia.
  - exists w2. split; [exact Hrun | exact Htrace].
Defined.

(** ** The fuzzy search *)

Section FuseFacts.









End FuseFacts.

(** C5: a query whose trimmed form is empty is answered with the empty
    result at once: the state of the manager is untouched, so no cache is
    read and no adapter operation is called; and whenever the aggregated
    user set is empty the answer is the empty result too. *)
Theorem searchUsers_empty env fuseMatch accounts query options w :
  (JsString.trim query = "" →
   searchUsers env fuseMatch accounts query options w
   = (Ok {| SearchResult.matches := []; SearchResult.totalMatched := 0;
            SearchResult.totalSearched := 0 |}, w))
  ∧ (∀ w',
       getUsersAcrossServers env accounts (default false (SearchOptions.refresh options)) w
       = (Ok [], w') →
       (searchUsers env fuseMatch accounts query options w).1
       = Ok {| SearchResult.matches := []; SearchResult.totalMatched := 0;
               SearchResult.totalSearched := 0 |}).
Proof.
  unfold searchUsers. split.
  - by intros ->.
  - intros w' Hrun. destruct (negb _); [done|].
    by rewrite (bind_Ok _ _ _ _ _ Hrun).
Qed.

(** A query of blanks on a new manager; and any query when no account is
    configured. *)
Lemma searchUsers_empty_witness :
  searchUsers (demoEnv [resourceM1 "one"] []) (matchAll 0) [accountA; accountB] "   "
    (SearchOptions.mk None None) (newManager 300000)
  = (Ok (SearchResult.mk [] 0 0), newManager 300000)
  ∧ (searchUsers (demoEnv [] []) (matchAll 0) [] "alice"
       (SearchOptions.mk None None) (newManager 300000)).1
    = Ok (SearchResult.mk [] 0 0).
Proof.
  split.
  - apply (searchUsers_empty (demoEnv [resourceM1 "one"] []) (matchAll 0)
             [accountA; accountB] "   " (SearchOptions.mk None None) (newManager 300000)).
    reflexivity.
  - eapply (searchUsers_empty (demoEnv [] []) (matchAll 0) [] "alice"
              (SearchOptions.mk None None) (newManager 300000)).
    reflexivity.
Defined.



(** ** Validating the accounts *)

Section Validation.
Context (env : Env).

Lemma axios_run r w :
  axios env r w = (responseResult (http env (step w) r), tick (record (Sent r) w)).
Proof. unfold axios. by destruct (http env (step w) r). Qed.

Lemma trace_buildHeaders options : preserves trace (buildHeaders env options).
Proof.
  assert (preserves trace (uuidv4 env)) by (by intros w).
  unfold buildHeaders. frame fail.
Qed.

Lemma buildHeaders_run options w :
  ∃ headers w',
    buildHeaders env options w = (Ok headers, w')
    ∧ trace w' = trace w
    ∧ serverCache w' = serverCache w
    ∧ userCache w' = userCache w.
Proof.
  destruct (noThrow_run (buildHeaders env options) w) as (headers & w' & Hrun);
    [apply noThrow_buildHeaders|].
  exists headers, w'. split; [done|].
  pose proof (trace_buildHeaders options w) as Ht.
  pose proof (serverCache_buildHeaders env options w) as Hs.
  pose proof (userCache_buildHeaders env options w) as Hu.
  by rewrite Hrun in Ht, Hs, Hu.
Qed.

Lemma request_run url' options w :
  ∃ r w',
    request env url' options w = (responseResult (http env (pred (step w')) r), w')
    ∧ trace w' = trace w ++ [Sent r]
    ∧ method r = GET
    ∧ url r = url'.
Proof.
  unfold request.
  destruct (buildHeaders_run options w) as (headers & w0 & Hrun & Ht & _).
  rewrite (bind_Ok _ _ _ _ _ Hrun), axios_run.
  match goal with |- context [Sent ?r] => exists r, (tick (record (Sent r) w0)) end.
  simpl. by rewrite Ht.
Qed.

Lemma validateToken_run token cid w :
  ∃ r w',
    validateToken env token cid w = (Ok (accountInfoOf (http env (pred (step w')) r)), w')
    ∧ trace w' = trace w ++ [Called ValidateToken; Sent r]
    ∧ method r = GET
    ∧ url r = "https://plex.tv/users/account.json".
Proof.
  unfold validateToken, called. unfold bind at 1. unfold tryCatch, bind.
  destruct (request_run (PLEX_API_BASE +:+ "/users/account.json")
              (createRequestOptions (Some token) cid RequestOptions.empty)
              (record (Called ValidateToken) w)) as (r & w' & -> & Ht & Hm & Hu).
  exists r, w'. simpl in Ht. rewrite <-app_assoc in Ht.
  destruct (http env _ r) as [message|[[user|]| | | | | |]]; simpl; done.
Qed.

Lemma validateLoop_mapM accts results w :
  ∃ infos w',
    mapM (λ account, validateToken env (Account.token account)
                       (Some (Account.clientIdentifier account))) accts w
    = (Ok infos, w')
    ∧ validateLoop env accts results w
      = (Ok (results ++ zip_with validationResult accts infos), w')
    ∧ length infos = length accts.
Proof.
  revert results w. induction accts as [|account rest IH]; intros results w; simpl.
  - exists [], w. by rewrite app_nil_r.
  - destruct (noThrow_run (validateToken env (Account.token account)
                (Some (Account.clientIdentifier account))) w) as (info & w1 & Hrun);
      [apply noThrow_validateToken|].
    rewrite !(bind_Ok _ _ _ _ _ Hrun).
    destruct (IH (results ++ [validationResult account info]) w1)
      as (infos & w' & Hmap & Hloop & Hlen).
    exists (info :: infos), w'. rewrite (bind_Ok _ _ _ _ _ Hmap).
    split_and!; [done| |simpl; by rewrite Hlen].
    rewrite <-app_assoc in Hloop. simpl in *. by destruct info.
Qed.

End Validation.

(** C7: [validateAccounts] validates the token of each account in turn
    and returns one entry per account, in account order, carrying the
    account's label; the entry of an account is decided by the answer to
    that account's own request: a failed request or an answer without a
    user gives the entry with [valid = false] and no user name or email,
    and the accounts after it are validated all the same ([validateToken]
    never throws). *)
Theorem validateAccounts_one_per_account env accounts w :
  ∃ infos results w',
    mapM (λ account, validateToken env (Account.token account)
                       (Some (Account.clientIdentifier account))) accounts w
    = (Ok infos, w')
    ∧ validateAccounts env accounts w = (Ok results, w')
    ∧ length results = length accounts
    ∧ AccountValidationResult.label <$> results = Account.label <$> accounts
    ∧ (∀ (i : nat) account,
         accounts !! i = Some account →
         ∃ info, infos !! i = Some info
                 ∧ results !! i = Some (validationResult account info))
    ∧ (∀ (i : nat) account,
         accounts !! i = Some account → infos !! i = Some None →
         results !! i = Some {| AccountValidationResult.label := Account.label account;
                                AccountValidationResult.valid := false;
                                AccountValidationResult.username := None;
                                AccountValidationResult.email := None |})
    ∧ (∀ token clientIdentifier w0,
         ∃ r w1,
           validateToken env token clientIdentifier w0
           = (Ok (accountInfoOf (http env (pred (step w1)) r)), w1)
           ∧ trace w1 = trace w0 ++ [Called ValidateToken; Sent r])
    ∧ (∀ message, accountInfoOf (Failure message) = None)
    ∧ accountInfoOf (Success (AccountJson None)) = None.
Proof.
  unfold validateAccounts.
  destruct (validateLoop_mapM env accounts [] w) as (infos & w' & Hmap & Hloop & Hlen).
  exists infos, (zip_with validationResult accounts infos), w'.
  assert (∀ (i : nat) account,
            accounts !! i = Some account →
            ∃ info, infos !! i = Some info
                    ∧ zip_with validationResult accounts infos !! i
                      = Some (validationResult account info)) as Hindex.
  { intros i account Hi.
    destruct (lookup_lt_is_Some_2 infos i) as [info Hinfo].
    { rewrite Hlen. by eapply lookup_lt_Some. }
    exists info. split; [done|]. rewrite lookup_zip_with, Hi, Hinfo. done. }
  split_and!; [done|done| | |done| | |done|done].
  - rewrite length_zip_with. lia.
  - clear Hmap Hloop Hindex. revert infos Hlen.
    induction accounts as [|account rest IH]; intros [|info infos] Hlen; simpl in *;
      try done.
    rewrite IH by lia. by destruct info.
  - intros i account Hi Hnone. destruct (Hindex i account Hi) as (info & Hinfo & ->).
    rewrite Hinfo in Hnone. by injection Hnone as ->.
  - intros token cid w0. destruct (validateToken_run env token cid w0) as (r & w1 & ? & ? & _).
    by exists r, w1.
Qed.

(** The token of account A is accepted and that of account B refused:
    both accounts are reported, B as invalid. *)
Lemma validateAccounts_one_per_account_witness :
  ∃ results,
    (validateAccounts (demoEnv [] []) [accountA; accountB] (newManager 300000)).1 = Ok results
    ∧ AccountValidationResult.label <$> results = ["A"; "B"]
    ∧ AccountValidationResult.valid <$> results = [true; false].
Proof.
  destruct (validateAccounts_one_per_account (demoEnv [] []) [accountA; accountB]
              (newManager 300000))
    as (infos & results & w' & _ & Hrun & _ & Hlabels & _).
  exists results. rewrite Hrun. split_and!; [done|exact Hlabels|].
  vm_compute in Hrun. by injection Hrun as <- _.
Defined.

(** ** The PIN flow *)

Section PinFlow.
Context (env : Env).

Lemma createAuthPin_run cid w :
  ∃ r identifier w',
    trace w' = trace w ++ [Called CreateAuthPin; Sent r]
    ∧ method r = POST
    ∧ url r = "https://plex.tv/api/v2/pins"
    ∧ serverCache w' = serverCache w
    ∧ userCache w' = userCache w
    ∧ identifier = default identifier cid
    ∧ createAuthPin env cid w
      = (match http env (pred (step w')) r with
         | Failure message => Err (RequestFailed message)
         | Success (PinJson (Some pin)) =>
             Ok {| PlexPin.id := PinNode.id pin;
                   PlexPin.code := PinNode.code pin;
                   PlexPin.clientIdentifier := identifier;
                   PlexPin.expiresAt := PinNode.expiresAt pin;
                   PlexPin.authToken := PinNode.authToken pin |}
         | Success _ => Err (TypeError "Cannot read properties of undefined (reading 'id')")
         end, w').
Proof.
  unfold createAuthPin, called. unfold bind at 1. simpl.
  assert (∃ identifier w0,
            match cid with Some c => ret c | None => uuidv4 env end
              (record (Called CreateAuthPin) w) = (Ok identifier, w0)
            ∧ trace w0 = trace w ++ [Called CreateAuthPin]
            ∧ serverCache w0 = serverCache w
            ∧ userCache w0 = userCache w
            ∧ identifier = default identifier cid) as (identifier & w0 & Hid & Ht0 & Hs0 & Hu0 & Hd).
  { destruct cid as [c|]; eexists _, _; (split; [reflexivity|done]). }
  rewrite (bind_Ok _ _ _ _ _ Hid). unfold tryCatch.
  destruct (buildHeaders_run env (RequestOptions.mk None (Some identifier) None None) w0)
    as (headers & w1 & Hh & Ht1 & Hs1 & Hu1).
  rewrite (bind_Ok _ _ _ _ _ Hh). unfold bind at 1. rewrite axios_run.
  match goal with |- context [Sent ?r] => exists r, identifier, (tick (record (Sent r) w1)) end.
  simpl. rewrite Ht1, Ht0, Hs1, Hs0, Hu1, Hu0, <-app_assoc.
  split_and!; [done..|].
  destruct (http env (step w1) _) as [message|[| | | | |[pin|]|]]; simpl; try done.
  by destruct (PinNode.authToken pin).
Qed.

Lemma checkAuthPin_run id cid w :
  ∃ r w',
    trace w' = trace w ++ [Called CheckAuthPin; Sent r]
    ∧ method r = GET
    ∧ url r = "https://plex.tv/api/v2/pins/" +:+ JsString.ofZ id
    ∧ serverCache w' = serverCache w
    ∧ userCache w' = userCache w
    ∧ checkAuthPin env id cid w
      = (match http env (pred (step w')) r with
         | Failure message => Err (RequestFailed message)
         | Success (PinJson (Some pin)) =>
             Ok {| PlexPinStatus.id := PinNode.id pin;
                   PlexPinStatus.code := PinNode.code pin;
                   PlexPinStatus.clientIdentifier := cid;
                   PlexPinStatus.expiresAt := PinNode.expiresAt pin;
                   PlexPinStatus.authToken := PinNode.authToken pin |}
         | Success _ => Err (TypeError "Cannot read properties of undefined (reading 'id')")
         end, w').
Proof.
  unfold checkAuthPin, called. unfold bind at 1. simpl. unfold tryCatch.
  destruct (buildHeaders_run env (RequestOptions.mk None (Some cid) None None)
              (record (Called CheckAuthPin) w))
    as (headers & w1 & Hh & Ht1 & Hs1 & Hu1).
  rewrite (bind_Ok _ _ _ _ _ Hh). unfold bind at 1. rewrite axios_run.
  match goal with |- context [Sent ?r] => exists r, (tick (record (Sent r) w1)) end.
  simpl. rewrite Ht1, Hs1, Hu1. simpl. rewrite <-app_assoc.
  split_and!; [done..|].
  destruct (http env (step w1) _) as [message|[| | | | |[pin|]|]]; simpl; try done.
  by destruct (PinNode.authToken pin).
Qed.

End PinFlow.

(** C8: [generateAuthPin] and [checkAuthPinStatus] each call their
    adapter operation once, which sends exactly one request and touches
    no cache; when the remote service fails that request, the call ends
    with the failure as its error, nothing standing in for the result. *)
Theorem pin_failure_is_propagated env :
  (∀ clientIdentifier w,
     ∃ r,
       let outcome := generateAuthPin env clientIdentifier w in
       trace outcome.2 = trace w ++ [Called CreateAuthPin; Sent r]
       ∧ method r = POST
       ∧ url r = "https://plex.tv/api/v2/pins"
       ∧ serverCache outcome.2 = serverCache w
       ∧ userCache outcome.2 = userCache w
       ∧ (∀ message,
            http env (pred (step outcome.2)) r = Failure message →
            outcome.1 = Err (RequestFailed message))
       ∧ (∀ result, outcome.1 = Ok result →
            ∃ pin, http env (pred (step outcome.2)) r = Success (PinJson (Some pin))
                   ∧ PlexPin.id (AuthPinResult.pin result) = PinNode.id pin
                   ∧ PlexPin.code (AuthPinResult.pin result) = PinNode.code pin))
  ∧ (∀ id clientIdentifier w,
       ∃ r,
         let outcome := checkAuthPinStatus env id clientIdentifier w in
         trace outcome.2 = trace w ++ [Called CheckAuthPin; Sent r]
         ∧ method r = GET
         ∧ url r = "https://plex.tv/api/v2/pins/" +:+ JsString.ofZ id
         ∧ serverCache outcome.2 = serverCache w
         ∧ userCache outcome.2 = userCache w
         ∧ (∀ message,
              http env (pred (step outcome.2)) r = Failure message →
              outcome.1 = Err (RequestFailed message))
         ∧ (∀ result, outcome.1 = Ok result →
              ∃ pin, http env (pred (step outcome.2)) r = Success (PinJson (Some pin))
                     ∧ PlexPinStatus.id result = PinNode.id pin
                     ∧ PlexPinStatus.authToken result = PinNode.authToken pin)).
Proof.
  split.
  - intros cid w. unfold generateAuthPin, bind.
    destruct (createAuthPin_run env cid w)
      as (r & identifier & w' & Ht & Hm & Hurl & Hs & Hu & _ & ->).
    exists r. simpl.
    destruct (http env (pred (step w')) r) as [message|[| | | | |[pin|]|]] eqn:E;
      simpl; rewrite ?E; (split_and!; [done..| |]); try done.
    + by intros message' [= ->].
    + intros result [= <-]. by exists pin.
  - intros id cid w. unfold checkAuthPinStatus.
    destruct (checkAuthPin_run env id cid w) as (r & w' & Ht & Hm & Hurl & Hs & Hu & ->).
    exists r. simpl.
    destruct (http env (pred (step w')) r) as [message|[| | | | |[pin|]|]] eqn:E;
      simpl; rewrite ?E; (split_and!; [done..| |]); try done.
    + by intros message' [= ->].
    + intros result [= <-]. by exists pin.
Qed.

(** A remote service that refuses the PIN requests: both calls end with
    its error. *)
Lemma pin_failure_is_propagated_witness :
  (generateAuthPin (demoEnv [] []) None (newManager 300000)).1 = Err (RequestFailed "404")
  ∧ (checkAuthPinStatus (demoEnv [] []) 7 "client-a" (newManager 300000)).1
    = Err (RequestFailed "404").
Proof.
  destruct (pin_failure_is_propagated (demoEnv [] [])) as [Hcreate Hcheck].
  split.
  - destruct (Hcreate None (newManager 300000)) as (r & _ & _ & Hurl & _ & _ & Hfail & _).
    apply Hfail. simpl. rewrite Hurl. reflexivity.
  - destruct (Hcheck 7 "client-a" (newManager 300000)) as (r & _ & _ & Hurl & _ & _ & Hfail & _).
    apply Hfail. simpl. rewrite Hurl. reflexivity.
Defined.

(** * Further properties of the code *)

(** ** The expiring cache: writing, reading back and clearing *)

(** X1: a value written with [set] is read back by [get] exactly while
    the clock reading is at most the time of the write plus the time to
    live (the boundary included); read later, the key is absent and its
    entry is removed; a second [set] on the key replaces value and expiry
    as if the first had not happened; and the write does not change what
    [get] returns for any other key. *)
Theorem ttl_set_then_get `{Countable K} {V : Type}
    (written now : Z) (key : K) (v : V) (c : TTLCache.t K V) :
  ((TTLCache.get now key (TTLCache.set written key v c)).1 = Some v
   ↔ now ≤ written + TTLCache.ttlMs c)
  ∧ ((TTLCache.get now key (TTLCache.set written key v c)).1 = None
     ↔ written + TTLCache.ttlMs c < now)
  ∧ (written + TTLCache.ttlMs c < now →
     TTLCache.store (TTLCache.get now key (TTLCache.set written key v c)).2
     = delete key (TTLCache.store c))
  ∧ (∀ earlier v0,
       TTLCache.set written key v (TTLCache.set earlier key v0 c)
       = TTLCache.set written key v c)
  ∧ (∀ other, other ≠ key →
       (TTLCache.get now other (TTLCache.set written key v c)).1
       = (TTLCache.get now other c).1).
Proof.
  unfold TTLCache.get, TTLCache.set. simpl. rewrite lookup_insert_eq. simpl.
  split_and!.
  - case_bool_decide; simpl; split; try done; lia.
  - case_bool_decide; simpl; split; try done; lia.
  - intros Hlate. rewrite bool_decide_eq_true_2 by lia. simpl.
    apply delete_insert_eq.
  - intros earlier v0. by rewrite insert_insert_eq.
  - intros other Hne. rewrite lookup_insert_ne by done.
    destruct (TTLCache.store c !! other); [by case_bool_decide | done].
Qed.

(** A list written at time 1000 with a time to live of 30 seconds is read
    back at time 31000 and absent at time 31001. *)
Lemma ttl_set_then_get_witness :
  let c := TTLCache.set 1000 "servers:A" [1; 2] (TTLCache.create (K:=string) 30000) in
  (TTLCache.get 31000 "servers:A" c).1 = Some [1; 2]
  ∧ (TTLCache.get 31001 "servers:A" c).1 = None.
Proof.
  intros c. split.
  - destruct (ttl_set_then_get 1000 31000 "servers:A" [1; 2] (TTLCache.create 30000))
      as (Hread & _).
    apply Hread. simpl. lia.
  - destruct (ttl_set_then_get 1000 31001 "servers:A" [1; 2] (TTLCache.create 30000))
      as (_ & Hlate & _).
    apply Hlate. simpl. lia.
Defined.

(** X2: after [clear()] every key reads as absent at every time, and
    after [clear(key)] that key does, while every other key reads as
    before; clearing keeps the time to live; and reading a key a second
    time at the same clock reading gives the same answer and changes
    nothing more. *)
Theorem ttl_clear_then_get `{Countable K} {V : Type}
    (now : Z) (key : K) (c : TTLCache.t K V) :
  TTLCache.get now key (TTLCache.clear None c) = (None, TTLCache.clear None c)
  ∧ TTLCache.get now key (TTLCache.clear (Some key) c)
    = (None, TTLCache.clear (Some key) c)
  ∧ (∀ other, other ≠ key →
       (TTLCache.get now other (TTLCache.clear (Some key) c)).1
       = (TTLCache.get now other c).1)
  ∧ (∀ cleared, TTLCache.ttlMs (TTLCache.clear cleared c) = TTLCache.ttlMs c)
  ∧ (∀ cleared v,
       (TTLCache.get now key (TTLCache.set now key v (TTLCache.clear cleared c))).1
       = if bool_decide (0 ≤ TTLCache.ttlMs c) then Some v else None)
  ∧ TTLCache.get now key (TTLCache.get now key c).2 = TTLCache.get now key c.
Proof.
  unfold TTLCache.get, TTLCache.clear. simpl. split_and!.
  - by rewrite lookup_empty.
  - by rewrite lookup_delete_eq.
  - intros other Hne. rewrite lookup_delete_ne by done.
    destruct (TTLCache.store c !! other); [by case_bool_decide | done].
  - by intros [k|].
  - intros cleared v. destruct cleared as [k|]; simpl; rewrite lookup_insert_eq; simpl;
      repeat case_bool_decide; simpl; try done; lia.
  - destruct (TTLCache.store c !! key) as [entry|] eqn:Hentry.
    + case_bool_decide as Hexpired; simpl.
      * by rewrite lookup_delete_eq.
      * rewrite Hentry. by rewrite bool_decide_eq_false_2.
    + simpl. by rewrite Hentry.
Qed.

Lemma ttl_clear_then_get_witness :
  let c := TTLCache.set 0 "users:M1:A" [7] (TTLCache.set 0 "users:M2:A" [8]
             (TTLCache.create (K:=string) 30000)) in
  (TTLCache.get 1 "users:M2:A" (TTLCache.clear (Some "users:M1:A") c)).1 = Some [8].
Proof.
  intros c.
  destruct (ttl_clear_then_get 1 "users:M1:A" c) as (_ & _ & Hother & _).
  rewrite (Hother "users:M2:A"); [|done].
  vm_compute. reflexivity.
Defined.

(** ** The merge of [fetchServerUsers] is idempotent *)

Lemma keepFirst_all_seen {A} (key : A → string) (seen : gset string) (l : list A) :
  (∀ x, x ∈ l → key x ∈ seen) → keepFirst key seen l = [].
Proof.
  induction l as [|x l IH]; intros Hseen; simpl; [done|].
  rewrite bool_decide_eq_true_2 by (apply Hseen; left).
  apply IH. intros y Hy. apply Hseen. by right.
Qed.

Lemma keepFirst_NoDup_id {A} (key : A → string) (seen : gset string) (l : list A) :
  NoDup (key <$> l) → (∀ x, x ∈ l → key x ∉ seen) → keepFirst key seen l = l.
Proof.
  revert seen. induction l as [|x l IH]; intros seen Hnodup Hfresh; simpl; [done|].
  rewrite fmap_cons in Hnodup. apply NoDup_cons in Hnodup as [Hx Hnodup].
  rewrite bool_decide_eq_false_2 by (apply Hfresh; left).
  f_equal. apply IH; [done|].
  intros y Hy. rewrite elem_of_union, elem_of_singleton.
  intros [Heq|Hseen].
  - apply Hx. rewrite <-Heq. apply list_elem_of_fmap. by exists y.
  - by apply (Hfresh y); [right|].
Qed.

(** X3: the merge of [fetchServerUsers] is idempotent: merging a merged
    list changes nothing; and records whose identity keys all occur in
    the list already, such as the same listing read a second time, add
    nothing when appended. *)
Theorem dedupe_idempotent (results : list PlexUserAccess.t) :
  dedupe (dedupe results) = dedupe results
  ∧ dedupe (results ++ results) = dedupe results
  ∧ (∀ more,
       (∀ user, user ∈ more → ∃ known, known ∈ results ∧ dedupKey known = dedupKey user) →
       dedupe (results ++ more) = dedupe results).
Proof.
  assert (∀ more,
            (∀ user, user ∈ more →
               ∃ known, known ∈ results ∧ dedupKey known = dedupKey user) →
            dedupe (results ++ more) = dedupe results) as Hmore.
  { intros more Hknown. rewrite !dedupe_keepFirst, keepFirst_app.
    rewrite (keepFirst_all_seen dedupKey _ more); [by rewrite app_nil_r|].
    intros user (known & Hin & <-)%Hknown.
    rewrite elem_of_union, elem_of_list_to_set. left.
    apply list_elem_of_fmap. by exists known. }
  split_and!; [|apply Hmore|exact Hmore].
  - rewrite !dedupe_keepFirst. apply keepFirst_NoDup_id; [apply keepFirst_NoDup|].
    intros user _. apply not_elem_of_empty.
  - intros user Hin. by exists user.
Qed.

(** The listing of the example of C1 read twice. *)
Lemma dedupe_idempotent_witness :
  dedupe ([mailUser "a@x.com" "u1"] ++ [mailUser "A@X.COM" "u2"])
  = dedupe [mailUser "a@x.com" "u1"].
Proof.
  destruct (dedupe_idempotent [mailUser "a@x.com" "u1"]) as (_ & _ & Hmore).
  apply Hmore. intros user ->%list_elem_of_singleton.
  exists (mailUser "a@x.com" "u1"). split; [left | reflexivity].
Defined.

(** ** Queries that differ in surrounding white space *)

Lemma trimStart_head (s : string) :
  match JsString.trimStart s with
  | EmptyString => True
  | String c _ => JsString.isSpace c = false
  end.
Proof.
  induction s as [|c s IH]; simpl; [done|].
  destruct (JsString.isSpace c) eqn:Hc; [done|]. simpl. done.
Qed.

Lemma trimEnd_head (s : string) :
  match s with
  | EmptyString => True
  | String c _ => JsString.isSpace c = false
  end →
  match JsString.trimEnd s with
  | EmptyString => True
  | String c _ => JsString.isSpace c = false
  end.
Proof.
  destruct s as [|c s]; simpl; [done|]. intros Hc.
  destruct (JsString.trimEnd s); [by rewrite Hc|done].
Qed.

Lemma trimStart_fixed (s : string) :
  match s with
  | EmptyString => True
  | String c _ => JsString.isSpace c = false
  end →
  JsString.trimStart s = s.
Proof. destruct s as [|c s]; simpl; [done|]. by intros ->. Qed.

Lemma trimEnd_idempotent (s : string) :
  JsString.trimEnd (JsString.trimEnd s) = JsString.trimEnd s.
Proof.
  induction s as [|c s IH]; simpl; [done|].
  destruct (JsString.trimEnd s) as [|d t] eqn:Ht.
  - destruct (JsString.isSpace c) eqn:Hc; simpl; [done|]. by rewrite Hc.
  - change (JsString.trimEnd (String c (String d t)))
      with (match JsString.trimEnd (String d t) with
            | EmptyString =>
                if JsString.isSpace c then EmptyString else String c EmptyString
            | rest' => String c rest'
            end).
    by rewrite IH.
Qed.

Lemma trim_idempotent (s : string) : JsString.trim (JsString.trim s) = JsString.trim s.
Proof.
  unfold JsString.trim.
  rewrite (trimStart_fixed (JsString.trimEnd _)).
  - apply trimEnd_idempotent.
  - apply trimEnd_head, trimStart_head.
Qed.

(** X4: [searchUsers] looks at its query only through the trimmed form:
    two queries with the same trimmed form are answered alike from every
    state, trimming is idempotent, and so a query and its trimmed form
    are answered alike. *)
Theorem searchUsers_trims_query env fuseMatch accounts options (query : string) :
  (∀ other,
     JsString.trim other = JsString.trim query →
     ∀ w, searchUsers env fuseMatch accounts other options w
          = searchUsers env fuseMatch accounts query options w)
  ∧ JsString.trim (JsString.trim query) = JsString.trim query
  ∧ (∀ w, searchUsers env fuseMatch accounts (JsString.trim query) options w
          = searchUsers env fuseMatch accounts query options w).
Proof.
  assert (∀ other,
            JsString.trim other = JsString.trim query →
            ∀ w, searchUsers env fuseMatch accounts other options w
                 = searchUsers env fuseMatch accounts query options w) as Hsame.
  { intros other Heq w. unfold searchUsers. by rewrite Heq. }
  split_and!; [exact Hsame | apply trim_idempotent |].
  apply Hsame, trim_idempotent.
Qed.

Lemma searchUsers_trims_query_witness :
  searchUsers (demoEnv [resourceM1 "one"] []) (matchAll 0) [accountA] "  alice "
    (SearchOptions.mk None None) (newManager 300000)
  = searchUsers (demoEnv [resourceM1 "one"] []) (matchAll 0) [accountA] "alice"
      (SearchOptions.mk None None) (newManager 300000).
Proof.
  destruct (searchUsers_trims_query (demoEnv [resourceM1 "one"] []) (matchAll 0) [accountA]
              (SearchOptions.mk None None) "alice") as (Hsame & _).
  apply Hsame. reflexivity.
Defined.

(** ** Looking an account up by its label *)

Lemma find_first_label (accounts : list Account.t) (label : string) :
  label ∈ Account.label <$> accounts →
  ∃ before account after,
    accounts = before ++ account :: after
    ∧ Account.label account = label
    ∧ (∀ other, other ∈ before → Account.label other ≠ label)
    ∧ find (λ acct, bool_decide (Account.label acct = label)) accounts = Some account.
Proof.
  induction accounts as [|a accounts IH]; simpl.
  - by intros ?%elem_of_nil.
  - intros Hin. case_bool_decide as Ha.
    + exists [], a, accounts. split_and!; [done..| |done]. by intros other ?%elem_of_nil.
    + apply elem_of_cons in Hin as [Heq|Hin]; [by destruct Ha|].
      destruct (IH Hin) as (before & account & after & -> & Hl & Hbefore & Hfind).
      exists (a :: before), account, after. split_and!; [done..| |done].
      intros other [->|Hother]%elem_of_cons; [done | by apply Hbefore].
Qed.

Lemma find_no_label (accounts : list Account.t) (label : string) :
  label ∉ Account.label <$> accounts →
  find (λ acct, bool_decide (Account.label acct = label)) accounts = None.
Proof.
  induction accounts as [|a accounts IH]; simpl; [done|].
  rewrite not_elem_of_cons. intros [Hne Hnot].
  rewrite bool_decide_eq_false_2 by done. by apply IH.
Qed.

(** X5: [findTokenForAccount] and [findClientIdentifier] throw, without
    touching the state, exactly when no account has the label; otherwise
    both answer from one and the same account, the first in configuration
    order that has the label, so a token is never paired with the client
    identifier of another account. *)
Theorem find_account_by_label (accounts : list Account.t) (label : string) (w : World) :
  (label ∉ Account.label <$> accounts →
   findTokenForAccount accounts label w = (Err (NoAccountForLabel label), w)
   ∧ findClientIdentifier accounts label w = (Err (NoAccountForLabel label), w))
  ∧ (label ∈ Account.label <$> accounts →
     ∃ before account after,
       accounts = before ++ account :: after
       ∧ Account.label account = label
       ∧ (∀ other, other ∈ before → Account.label other ≠ label)
       ∧ findTokenForAccount accounts label w = (Ok (Account.token account), w)
       ∧ findClientIdentifier accounts label w = (Ok (Account.clientIdentifier account), w)).
Proof.
  unfold findTokenForAccount, findClientIdentifier. split.
  - intros Hnot. by rewrite find_no_label.
  - intros (before & account & after & Heq & Hl & Hbefore & Hfind)%find_first_label.
    exists before, account, after. by rewrite Hfind.
Qed.

Lemma find_account_by_label_witness :
  findTokenForAccount [accountA; accountB] "C" (newManager 300000)
  = (Err (NoAccountForLabel "C"), newManager 300000)
  ∧ ∃ account,
      findTokenForAccount [accountA; accountB] "B" (newManager 300000)
      = (Ok (Account.token account), newManager 300000)
      ∧ findClientIdentifier [accountA; accountB] "B" (newManager 300000)
        = (Ok (Account.clientIdentifier account), newManager 300000).
Proof.
  split.
  - apply (find_account_by_label [accountA; accountB] "C" (newManager 300000)).
    simpl. rewrite !not_elem_of_cons. split_and!; [done|done|apply not_elem_of_nil].
  - destruct (find_account_by_label [accountA; accountB] "B" (newManager 300000))
      as (_ & Hfound).
    destruct Hfound as (before & account & after & _ & _ & _ & Htoken & Hcid).
    + simpl. right. left.
    + by exists account.
Defined.

(** ** The adapter: what goes on the wire *)

Section Wire.
Context (env : Env).

Lemma buildHeaders_standard options w :
  buildHeaders env options w
  = (Ok (standardHeaders (default (uuid env (step w)) (RequestOptions.clientIdentifier options))
           (RequestOptions.token options)),
     match RequestOptions.clientIdentifier options with
     | Some _ => w
     | None => tick w
     end).
Proof.
  unfold buildHeaders, standardHeaders, bind, uuidv4, ret.
  destruct (RequestOptions.clientIdentifier options); simpl;
    by destruct (JsString.truthyOpt _).
Qed.

Lemma request_sends url' options w :
  ∃ w',
    request env url' options w
    = (responseResult (http env (pred (step w')) (requestFor url' options (uuid env (step w)))),
       w')
    ∧ trace w' = trace w ++ [Sent (requestFor url' options (uuid env (step w)))]
    ∧ serverCache w' = serverCache w
    ∧ userCache w' = userCache w
    ∧ (step w < step w')%nat.
Proof.
  unfold request. rewrite (bind_Ok _ _ _ _ _ (buildHeaders_standard options w)).
  rewrite axios_run. fold (requestFor url' options (uuid env (step w))).
  set (w0 := match RequestOptions.clientIdentifier options with
             | Some _ => w
             | None => tick w
             end).
  exists (tick (record (Sent (requestFor url' options (uuid env (step w)))) w0)).
  unfold w0. destruct (RequestOptions.clientIdentifier options); simpl;
    split_and!; try done; lia.
Qed.

Lemma createRequestOptions_token token cid extras :
  RequestOptions.token (createRequestOptions token cid extras)
  = JsString.orElse token (RequestOptions.token extras).
Proof.
  unfold createRequestOptions, JsString.orElse.
  by destruct (JsString.truthyOpt token), (JsString.truthyOpt cid).
Qed.

Lemma createRequestOptions_clientIdentifier token cid extras :
  RequestOptions.clientIdentifier (createRequestOptions token cid extras)
  = JsString.orElse cid (RequestOptions.clientIdentifier extras).
Proof.
  unfold createRequestOptions, JsString.orElse.
  by destruct (JsString.truthyOpt token), (JsString.truthyOpt cid).
Qed.

Lemma createRequestOptions_timeoutMs token cid extras :
  RequestOptions.timeoutMs (createRequestOptions token cid extras)
  = RequestOptions.timeoutMs extras.
Proof.
  unfold createRequestOptions.
  by destruct (JsString.truthyOpt token), (JsString.truthyOpt cid).
Qed.

Lemma createRequestOptions_responseType token cid extras :
  RequestOptions.responseType (createRequestOptions token cid extras)
  = RequestOptions.responseType extras.
Proof.
  unfold createRequestOptions.
  by destruct (JsString.truthyOpt token), (JsString.truthyOpt cid).
Qed.

Lemma getResources_run token cid w :
  ∃ w',
    getResources env token cid w
    = (Ok (resourcesOf
             (http env (pred (step w'))
                (requestFor "https://plex.tv/pms/resources"
                   (createRequestOptions (Some token) cid
                      (RequestOptions.mk None None None (Some "text")))
                   (uuid env (step w))))), w')
    ∧ trace w'
      = trace w ++ [Called GetResources;
                    Sent (requestFor "https://plex.tv/pms/resources"
                            (createRequestOptions (Some token) cid
                               (RequestOptions.mk None None None (Some "text")))
                            (uuid env (step w)))]
    ∧ serverCache w' = serverCache w
    ∧ userCache w' = userCache w
    ∧ (step w < step w')%nat.
Proof.
  unfold getResources, called. unfold bind at 1. unfold tryCatch, bind.
  destruct (request_sends (PLEX_API_BASE +:+ "/pms/resources")
              (createRequestOptions (Some token) cid
                 (RequestOptions.mk None None None (Some "text")))
              (record (Called GetResources) w)) as (w' & -> & Ht & Hs & Hu & Hstep).
  exists w'. simpl in Ht. rewrite <-app_assoc in Ht.
  change (PLEX_API_BASE +:+ "/pms/resources") with "https://plex.tv/pms/resources" in *.
  simpl in *. split_and!; [|done..].
  by destruct (http env _ _) as [message|[]].
Qed.

End Wire.

(** X6: [getResources] never throws and sends exactly one request, a GET
    of the resources URL asking for a text body; it returns, in the order
    listed, exactly the devices of the answer whose product is Plex Media
    Server, and the empty list when the request fails or the answer has
    another shape. *)
Theorem getResources_filters_and_never_throws env token clientIdentifier w :
  ∃ r w',
    getResources env token clientIdentifier w
    = (Ok (resourcesOf (http env (pred (step w')) r)), w')
    ∧ trace w' = trace w ++ [Called GetResources; Sent r]
    ∧ method r = GET
    ∧ url r = "https://plex.tv/pms/resources"
    ∧ responseType r = Some "text"
    ∧ timeout r = 15000
    ∧ (∀ message, resourcesOf (Failure message) = [])
    ∧ (∀ devices,
         resourcesOf (Success (ResourcesXml devices)) `sublist_of` devices
         ∧ ∀ resource,
             resource ∈ resourcesOf (Success (ResourcesXml devices))
             ↔ resource ∈ devices ∧ PlexResource.product resource = "Plex Media Server").
Proof.
  destruct (getResources_run env token clientIdentifier w) as (w' & Hrun & Ht & _).
  eexists _, w'. split; [exact Hrun|]. split; [exact Ht|].
  split_and!; try done.
  - simpl. by rewrite createRequestOptions_responseType.
  - simpl. by rewrite createRequestOptions_timeoutMs.
  - intros devices. simpl. split; [apply sublist_filter|].
    intros resource. rewrite list_elem_of_filter. tauto.
Qed.

(** ** The adapter: probing the connections of a resource *)

Section Probe.
Context (env : Env) (answer : string → Response).

Lemma connectLoop_first_reachable connections resource token label cid w :
  answersByUrl env answer →
  let reachable := λ connection,
    JsString.truthy (PlexServerConnection.uri connection)
    && isServerRoot (answer (PlexServerConnection.uri connection)) in
  ∃ rs w',
    connectLoop env connections resource token label cid w
    = (Ok (match find reachable connections with
           | Some connection =>
               Some (serverAt resource connection label
                       (rootName (answer (PlexServerConnection.uri connection))))
           | None => None
           end), w')
    ∧ trace w' = trace w ++ (Sent <$> rs)
    ∧ url <$> rs = PlexServerConnection.uri <$> triedUntil reachable connections
    ∧ Forall (λ r, method r = GET ∧ timeout r = 5000) rs.
Proof.
  intros Hanswer reachable. revert w.
  induction connections as [|connection rest IH]; intros w.
  - exists [], w. simpl. by rewrite app_nil_r.
  - assert (reachable connection
            = JsString.truthy (PlexServerConnection.uri connection)
              && isServerRoot (answer (PlexServerConnection.uri connection))) as Hreach
      by done.
    simpl. rewrite Hreach.
    destruct (JsString.truthy (PlexServerConnection.uri connection)) eqn:Huri; simpl.
    + destruct (request_sends env (PlexServerConnection.uri connection)
                  (createRequestOptions (Some token) cid
                     (RequestOptions.mk None None (Some 5000) None)) w)
        as (w1 & Hreq & Ht & _).
      unfold bind at 1. unfold tryCatch. unfold bind at 1. rewrite Hreq.
      rewrite Hanswer. simpl url.
      set (r := requestFor _ _ _) in *.
      assert (method r = GET ∧ timeout r = 5000) as Hr.
      { unfold r. simpl. by rewrite createRequestOptions_timeoutMs. }
      destruct (IH w1) as (rs & w' & Hrest & Ht' & Hurls & Hall).
      assert (∃ rs0 w0,
                connectLoop env rest resource token label cid w1
                = (Ok (match find reachable rest with
                       | Some connection0 =>
                           Some (serverAt resource connection0 label
                                   (rootName (answer (PlexServerConnection.uri connection0))))
                       | None => None
                       end), w0)
                ∧ trace w0 = trace w ++ (Sent <$> rs0)
                ∧ url <$> rs0
                  = PlexServerConnection.uri <$> (connection :: triedUntil reachable rest)
                ∧ Forall (λ r, method r = GET ∧ timeout r = 5000) rs0) as Hnext.
      { exists (r :: rs), w'. split_and!; [done| | |by constructor].
        - rewrite Ht', Ht, <-app_assoc. done.
        - by rewrite !fmap_cons, Hurls. }
      destruct (answer (PlexServerConnection.uri connection))
        as [message|[user|devices|[friendlyName|]|nodes|shared|pin|]] eqn:Hans;
        simpl; try exact Hnext.
      exists [r], w1. rewrite Hans. split_and!; [done|done|done|by constructor].
    + apply IH.
Qed.

End Probe.

(** X7: when the answer of the remote service depends on the URL alone,
    [connectToServer] returns the server built from the first connection,
    in the order listed, that has a URI and answers with a media
    container, and null when there is none; it never throws; it sends one
    GET with a timeout of 5 seconds to each connection with a URI up to
    and including that one, and nothing to a connection without URI or
    after the one that answered. *)
Theorem connectToServer_first_reachable env answer resource token label
    clientIdentifier w :
  answersByUrl env answer →
  let reachable := λ connection,
    JsString.truthy (PlexServerConnection.uri connection)
    && isServerRoot (answer (PlexServerConnection.uri connection)) in
  ∃ rs w',
    connectToServer env resource token label clientIdentifier w
    = (Ok (match find reachable (PlexResource.connections resource) with
           | Some connection =>
               Some (serverAt resource connection label
                       (rootName (answer (PlexServerConnection.uri connection))))
           | None => None
           end), w')
    ∧ trace w' = trace w ++ Called ConnectToServer :: (Sent <$> rs)
    ∧ url <$> rs
      = PlexServerConnection.uri <$> triedUntil reachable (PlexResource.connections resource)
    ∧ Forall (λ r, method r = GET ∧ timeout r = 5000) rs.
Proof.
  intros Hanswer reachable. unfold connectToServer, called. unfold bind at 1.
  destruct (connectLoop_first_reachable env answer (PlexResource.connections resource)
              resource token label clientIdentifier (record (Called ConnectToServer) w) Hanswer)
    as (rs & w' & Hrun & Ht & Hurls & Hall).
  exists rs, w'. split_and!; [done| |done|done].
  rewrite Ht. simpl. by rewrite <-app_assoc.
Qed.

(** M1 with an entry without URI, an address that refuses and one that
    answers: the server is built from the third entry, after one request
    to the second and one to the third. *)
Lemma connectToServer_first_reachable_witness :
  ∃ rs w',
    connectToServer urlEnv resourceThreeAddresses "token-a" "A" (Some "client-a")
      (newManager 300000)
    = (Ok (Some (serverM1 "one" "A")), w')
    ∧ trace w' = Called ConnectToServer :: (Sent <$> rs)
    ∧ url <$> rs = ["https://192.168.1.2:32400"; "https://m1.example:32400"].
Proof.
  destruct (connectToServer_first_reachable urlEnv urlAnswer resourceThreeAddresses
              "token-a" "A" (Some "client-a") (newManager 300000))
    as (rs & w' & Hrun & Ht & Hurls & _).
  - intros s r. reflexivity.
  - exists rs, w'. split_and!; [exact Hrun | exact Ht | exact Hurls].
Defined.

(** ** The adapter: the two listings of [fetchServerUsers] *)

Section Listings.
Context (env : Env).

Lemma localAccounts_run server token cid w :
  ∃ w',
    localAccounts env server token cid w
    = (Ok (localOf server
             (http env (pred (step w'))
                (requestFor (PlexServer.uri server +:+ "/accounts")
                   (createRequestOptions (Some token) cid RequestOptions.empty)
                   (uuid env (step w))))), w')
    ∧ trace w'
      = trace w ++ [Sent (requestFor (PlexServer.uri server +:+ "/accounts")
                            (createRequestOptions (Some token) cid RequestOptions.empty)
                            (uuid env (step w)))]
    ∧ serverCache w' = serverCache w
    ∧ userCache w' = userCache w
    ∧ (step w < step w')%nat.
Proof.
  unfold localAccounts, tryCatch, bind.
  destruct (request_sends env (PlexServer.uri server +:+ "/accounts")
              (createRequestOptions (Some token) cid RequestOptions.empty) w)
    as (w' & -> & Ht & Hs & Hu & Hstep).
  exists w'. split_and!; [|done..].
  by destruct (http env _ _) as [message|[]].
Qed.

Lemma sharedAccounts_run server token cid w :
  ∃ w',
    sharedAccounts env server token cid w
    = (Ok (sharedOf server
             (http env (pred (step w'))
                (requestFor ("https://plex.tv/api/servers/" +:+
                             PlexServer.machineIdentifier server +:+ "/shared_servers")
                   (createRequestOptions (Some token) cid
                      (RequestOptions.mk None None None (Some "text")))
                   (uuid env (step w))))), w')
    ∧ trace w'
      = trace w ++ [Sent (requestFor ("https://plex.tv/api/servers/" +:+
                                      PlexServer.machineIdentifier server +:+ "/shared_servers")
                            (createRequestOptions (Some token) cid
                               (RequestOptions.mk None None None (Some "text")))
                            (uuid env (step w)))]
    ∧ serverCache w' = serverCache w
    ∧ userCache w' = userCache w
    ∧ (step w < step w')%nat.
Proof.
  unfold sharedAccounts, tryCatch, bind.
  destruct (request_sends env
              (PLEX_API_BASE +:+ "/api/servers/" +:+
               PlexServer.machineIdentifier server +:+ "/shared_servers")
              (createRequestOptions (Some token) cid
                 (RequestOptions.mk None None None (Some "text"))) w)
    as (w' & -> & Ht & Hs & Hu & Hstep).
  exists w'. split_and!; [|done..].
  by destruct (http env _ _) as [message|[]].
Qed.

Lemma fetchServerUsers_run server token cid w :
  ∃ (s1 s2 : nat) r1 r2 w',
    fetchServerUsers env server token cid w
    = (Ok (dedupe (localOf server (http env s1 r1) ++ sharedOf server (http env s2 r2))), w')
    ∧ trace w' = trace w ++ [Called FetchServerUsers; Sent r1; Sent r2]
    ∧ r1 = requestFor (PlexServer.uri server +:+ "/accounts")
             (createRequestOptions (Some token) cid RequestOptions.empty)
             (uuid env (step w))
    ∧ r2 = requestFor ("https://plex.tv/api/servers/" +:+
                       PlexServer.machineIdentifier server +:+ "/shared_servers")
             (createRequestOptions (Some token) cid
                (RequestOptions.mk None None None (Some "text")))
             (uuid env (S s1))
    ∧ (step w ≤ s1 < s2)%nat ∧ (s2 < step w')%nat
    ∧ serverCache w' = serverCache w
    ∧ userCache w' = userCache w.
Proof.
  unfold fetchServerUsers, called. unfold bind at 1.
  destruct (localAccounts_run server token cid (record (Called FetchServerUsers) w))
    as (w1 & Hlocal & Ht1 & Hs1 & Hu1 & Hstep1).
  rewrite (bind_Ok _ _ _ _ _ Hlocal).
  destruct (sharedAccounts_run server token cid w1) as (w2 & Hshared & Ht2 & Hs2 & Hu2 & Hstep2).
  rewrite (bind_Ok _ _ _ _ _ Hshared). unfold ret.
  simpl in *.
  eexists (pred (step w1)), (pred (step w2)), _, _, w2.
  split; [reflexivity|].
  replace (S (pred (step w1))) with (step w1) by lia.
  split_and!; try done; try lia; try congruence.
  rewrite Ht2, Ht1, <-!app_assoc. done.
Qed.

Lemma mapAccountNode_linked node server :
  linkedTo server (mapAccountNode node server (PlexServer.accountLabel server)).
Proof. done. Qed.

Lemma localOf_linked server response : Forall (linkedTo server) (localOf server response).
Proof.
  destruct response as [message|[]]; simpl; try by constructor.
  apply Forall_forall. intros user (node & -> & _)%list_elem_of_fmap.
  apply mapAccountNode_linked.
Qed.

Lemma sharedOf_linked server response : Forall (linkedTo server) (sharedOf server response).
Proof.
  destruct response as [message|[]]; simpl; try by constructor.
  apply Forall_forall. intros user Hin.
  apply list_elem_of_In, in_flat_map in Hin as (entry & _ & Hin).
  apply list_elem_of_In in Hin.
  destruct (SharedServerNode.SharedUser entry) as [|first others].
  - apply list_elem_of_singleton in Hin as ->. apply mapAccountNode_linked.
  - change (user ∈ (λ sharedUser,
                      mapAccountNode sharedUser server (PlexServer.accountLabel server))
                   <$> first :: others) in Hin.
    apply list_elem_of_fmap in Hin as (node & -> & _). apply mapAccountNode_linked.
Qed.

Lemma dedupe_Forall (P : PlexUserAccess.t → Prop) results :
  Forall P results → Forall P (dedupe results).
Proof.
  rewrite dedupe_keepFirst, !Forall_forall. intros HP user Hin%keepFirst_elem_of. by apply HP.
Qed.

End Listings.



(** ** The PIN flow: one client identifier from creation to polling *)

Section PinWire.
Context (env : Env).

Lemma createAuthPin_wire cid w :
  ∃ w',
    trace w'
    = trace w ++ [Called CreateAuthPin;
                  Sent {| method := POST;
                          url := "https://plex.tv/api/v2/pins";
                          headers := standardHeaders (default (uuid env (step w)) cid) None
                                     ++ [("Content-Type", "application/x-www-form-urlencoded")];
                          timeout := 15000;
                          responseType := None;
                          body := Some "strong=true" |}]
    ∧ createAuthPin env cid w
      = (match http env (pred (step w'))
                 {| method := POST;
                    url := "https://plex.tv/api/v2/pins";
                    headers := standardHeaders (default (uuid env (step w)) cid) None
                               ++ [("Content-Type", "application/x-www-form-urlencoded")];
                    timeout := 15000;
                    responseType := None;
                    body := Some "strong=true" |} with
         | Failure message => Err (RequestFailed message)
         | Success (PinJson (Some pin)) =>
             Ok {| PlexPin.id := PinNode.id pin;
                   PlexPin.code := PinNode.code pin;
                   PlexPin.clientIdentifier := default (uuid env (step w)) cid;
                   PlexPin.expiresAt := PinNode.expiresAt pin;
                   PlexPin.authToken := PinNode.authToken pin |}
         | Success _ => Err (TypeError "Cannot read properties of undefined (reading 'id')")
         end, w').
Proof.
  unfold createAuthPin, called. unfold bind at 1. simpl.
  set (identifier := default (uuid env (step w)) cid).
  assert (∃ w0,
            match cid with Some c => ret c | None => uuidv4 env end
              (record (Called CreateAuthPin) w) = (Ok identifier, w0)
            ∧ trace w0 = trace w ++ [Called CreateAuthPin]) as (w0 & Hid & Ht0).
  { unfold identifier. destruct cid as [c|]; eexists; (split; [reflexivity|done]). }
  rewrite (bind_Ok _ _ _ _ _ Hid). unfold tryCatch.
  rewrite (bind_Ok _ _ _ _ _ (buildHeaders_standard env _ w0)). simpl.
  unfold bind at 1. rewrite axios_run.
  change (UrlEncode.params [("strong", "true")]) with "strong=true".
  change (PLEX_API_BASE +:+ "/api/v2/pins") with "https://plex.tv/api/v2/pins".
  change DEFAULT_TIMEOUT_MS with 15000.
  match goal with |- context [Sent ?r] => exists (tick (record (Sent r) w0)) end.
  simpl. rewrite Ht0, <-app_assoc. split; [done|].
  destruct (http env (step w0) _) as [message|[| | | | |[pin|]|]]; simpl; try done.
  by destruct (PinNode.authToken pin).
Qed.

Lemma checkAuthPin_wire id cid w :
  ∃ w',
    trace w'
    = trace w ++ [Called CheckAuthPin;
                  Sent {| method := GET;
                          url := "https://plex.tv/api/v2/pins/" +:+ JsString.ofZ id;
                          headers := standardHeaders cid None;
                          timeout := 15000;
                          responseType := None;
                          body := None |}]
    ∧ checkAuthPin env id cid w
      = (match http env (pred (step w'))
                 {| method := GET;
                    url := "https://plex.tv/api/v2/pins/" +:+ JsString.ofZ id;
                    headers := standardHeaders cid None;
                    timeout := 15000;
                    responseType := None;
                    body := None |} with
         | Failure message => Err (RequestFailed message)
         | Success (PinJson (Some pin)) =>
             Ok {| PlexPinStatus.id := PinNode.id pin;
                   PlexPinStatus.code := PinNode.code pin;
                   PlexPinStatus.clientIdentifier := cid;
                   PlexPinStatus.expiresAt := PinNode.expiresAt pin;
                   PlexPinStatus.authToken := PinNode.authToken pin |}
         | Success _ => Err (TypeError "Cannot read properties of undefined (reading 'id')")
         end, w').
Proof.
  unfold checkAuthPin, called. unfold bind at 1. simpl. unfold tryCatch.
  rewrite (bind_Ok _ _ _ _ _ (buildHeaders_standard env _ _)). simpl.
  unfold bind at 1. rewrite axios_run.
  change (PLEX_API_BASE +:+ "/api/v2/pins/" +:+ JsString.ofZ id)
    with ("https://plex.tv/api/v2/pins/" +:+ JsString.ofZ id).
  change DEFAULT_TIMEOUT_MS with 15000.
  match goal with |- context [Sent ?r] => exists (tick (record (Sent r) (record (Called CheckAuthPin) w))) end.
  simpl. rewrite <-app_assoc. split; [done|].
  destruct (http env (step w) _) as [message|[| | | | |[pin|]|]]; simpl; try done.
  by destruct (PinNode.authToken pin).
Qed.

End PinWire.

(** X9: the client identifier of the PIN flow: [generateAuthPin] uses the
    identifier it is given, the empty string included, and a fresh one
    only when it is given none; it sends that identifier in the
    client-identifier header of its single POST, whose body is
    [strong=true], and returns it in the pin, with the authorization URL
    built from that pin; [checkAuthPinStatus] called with the returned
    pin's id and identifier polls that PIN with the same identifier in
    the header and hands it back in the status; and neither request
    carries a token header. *)
Theorem pin_flow_keeps_identifier env clientIdentifier w :
  ∃ r,
    let identifier := default (uuid env (step w)) clientIdentifier in
    let created := generateAuthPin env clientIdentifier w in
    trace created.2 = trace w ++ [Called CreateAuthPin; Sent r]
    ∧ body r = Some "strong=true"
    ∧ headers r = standardHeaders identifier None
                  ++ [("Content-Type", "application/x-www-form-urlencoded")]
    ∧ headerValues "X-Plex-Client-Identifier" r = [identifier]
    ∧ headerValues "X-Plex-Token" r = []
    ∧ ∀ result, created.1 = Ok result →
        PlexPin.clientIdentifier (AuthPinResult.pin result) = identifier
        ∧ AuthPinResult.authorizationUrl result
          = buildAuthUrl (AuthPinResult.pin result) "Plex MCP Account Finder"
        ∧ ∀ w0, ∃ r0,
            let polled :=
              checkAuthPinStatus env (PlexPin.id (AuthPinResult.pin result))
                (PlexPin.clientIdentifier (AuthPinResult.pin result)) w0 in
            trace polled.2 = trace w0 ++ [Called CheckAuthPin; Sent r0]
            ∧ url r0 = "https://plex.tv/api/v2/pins/"
                       +:+ JsString.ofZ (PlexPin.id (AuthPinResult.pin result))
            ∧ headerValues "X-Plex-Client-Identifier" r0 = [identifier]
            ∧ headerValues "X-Plex-Token" r0 = []
            ∧ ∀ status, polled.1 = Ok status →
                PlexPinStatus.clientIdentifier status = identifier.
Proof.
  destruct (createAuthPin_wire env clientIdentifier w) as (w' & Ht & Hrun).
  eexists. cbv zeta. unfold generateAuthPin, bind. rewrite Hrun.
  split_and!.
  - by destruct (http env _ _) as [message|[| | | | |[pin|]|]].
  - done.
  - done.
  - done.
  - done.
  - intros result Hresult.
    assert (PlexPin.clientIdentifier (AuthPinResult.pin result)
            = default (uuid env (step w)) clientIdentifier
            ∧ AuthPinResult.authorizationUrl result
              = buildAuthUrl (AuthPinResult.pin result) "Plex MCP Account Finder")
      as [Hid Hurl].
    { destruct (http env (pred (step w')) _) as [message|[| | | | |[pin|]|]];
        simpl in Hresult; try done.
      by injection Hresult as <-. }
    split_and!; [done..|]. intros w0. rewrite Hid.
    destruct (checkAuthPin_wire env (PlexPin.id (AuthPinResult.pin result))
                (default (uuid env (step w)) clientIdentifier) w0) as (w1 & Ht1 & Hrun1).
    eexists. cbv zeta. unfold checkAuthPinStatus. rewrite Hrun1. simpl.
    split_and!; [exact Ht1|done|done|done|].
    intros status Hstatus.
    destruct (http env (pred (step w1)) _) as [message|[| | | | |[pin|]|]];
      simpl in Hstatus; try done.
    by injection Hstatus as <-.
Qed.

(** A service that creates the PIN 7 with code "abcd": the pin carries
    the fresh identifier, which is also the one sent. *)
Lemma pin_flow_keeps_identifier_witness :
  let env :=
    {| clock := λ n, 1000 * Z.of_nat n;
       http := λ _ r, Success (PinJson (Some (PinNode.mk 7 "abcd" "2030-01-01T00:00:00Z" None)));
       uuid := λ _, "00000000-0000-4000-8000-000000000000" |} in
  ∃ result,
    (generateAuthPin env None (newManager 300000)).1 = Ok result
    ∧ PlexPin.clientIdentifier (AuthPinResult.pin result)
      = "00000000-0000-4000-8000-000000000000".
Proof.
  intros env.
  destruct (pin_flow_keeps_identifier env None (newManager 300000))
    as (r & _ & _ & _ & _ & _ & Hresult).
  eexists. split; [vm_compute; reflexivity|].
  apply Hresult. vm_compute. reflexivity.
Defined.

(** ** Relations every step of the manager respects *)

Section Relates.
Context (R : relation World) `{!PreOrder R}.

Lemma relates_ret {A} (a : A) : relates R (ret a).
Proof. intros w. simpl. reflexivity. Qed.

Lemma relates_throw {A} (e : Error) : relates R (throw (A:=A) e).
Proof. intros w. simpl. reflexivity. Qed.

Lemma relates_bind {A B} (m : M A) (k : A → M B) :
  relates R m → (∀ a, relates R (k a)) → relates R (bind m k).
Proof.
  intros Hm Hk w. unfold bind. specialize (Hm w).
  destruct (m w) as [[a|e] w']; simpl in *; [|done].
  etrans; [exact Hm | apply Hk].
Qed.

Lemma relates_tryCatch {A} (m : M A) (handler : Error → M A) :
  relates R m → (∀ e, relates R (handler e)) → relates R (tryCatch m handler).
Proof.
  intros Hm Hh w. unfold tryCatch. specialize (Hm w).
  destruct (m w) as [[a|e] w']; simpl in *; [done|].
  etrans; [exact Hm | apply Hh].
Qed.

End Relates.

(** Splits a goal [relates R m] along the structure of [m]; the leaves
    are the primitive steps, closed by the fields of [Respected], and the
    loops, closed by an induction hypothesis. *)
Ltac walk :=
  repeat first
    [ progress intros
    | progress cbv zeta
    | solve [auto]
    | apply respected_called
    | apply respected_uuidv4
    | apply respected_axios
    | apply respected_serverCacheGet
    | apply respected_serverCacheSet
    | apply respected_userCacheGet
    | apply respected_userCacheSet
    | match goal with
      | |- relates _ (ret _) => apply relates_ret; apply _
      | |- relates _ (throw _) => apply relates_throw; apply _
      | |- relates _ (bind _ _) => apply relates_bind; [apply _|..]
      | |- relates _ (tryCatch _ _) => apply relates_tryCatch; [apply _|..]
      | |- relates _ (match ?x with _ => _ end) => destruct x
      end ].

Section Respect.
Context (env : Env) (R : relation World) `{!Respected env R}.
Context (fuseMatch : string → PlexUserAccess.t → option (Q * list FuseMatch.t)).
Context (accounts : list Account.t).

Lemma relates_buildHeaders options : relates R (buildHeaders env options).
Proof. unfold buildHeaders. walk. Qed.

Lemma relates_request url' options : relates R (request env url' options).
Proof. pose proof relates_buildHeaders. unfold request. walk. Qed.



Lemma relates_connectLoop connections resource token label cid :
  relates R (connectLoop env connections resource token label cid).
Proof. pose proof relates_request. induction connections; simpl; walk. Qed.

Lemma relates_connectToServer resource token label cid :
  relates R (connectToServer env resource token label cid).
Proof. pose proof relates_connectLoop. unfold connectToServer. walk. Qed.





Lemma relates_connectAll resources account connected :
  relates R (connectAll env resources account connected).
Proof.
  pose proof relates_connectToServer. revert connected. induction resources; simpl; walk.
Qed.








End Respect.

(** ** Steps go forward, and entries expire one time to live after their write *)

#[global] Instance stepLe_respected env : Respected env stepLe.
Proof.
  split.
  - split; [intros w; unfold stepLe; lia | intros a b c; unfold stepLe; lia].
  - intros op w. unfold stepLe. simpl. lia.
  - intros w. unfold stepLe. simpl. lia.
  - intros r w. unfold stepLe, axios. destruct (http env _ _); simpl; lia.
  - intros key w. unfold stepLe, serverCacheGet. destruct (TTLCache.get _ _ _). simpl. lia.
  - intros key v w. unfold stepLe. simpl. lia.
  - intros key w. unfold stepLe, userCacheGet. destruct (TTLCache.get _ _ _). simpl. lia.
  - intros key v w. unfold stepLe. simpl. lia.
  - intros w. unfold stepLe. simpl. lia.
Qed.

Lemma writtenBefore_mono env ttl (bound bound' : nat) {V} (entry : TTLCache.CacheEntry V) :
  (bound ≤ bound')%nat → writtenBefore env ttl bound entry → writtenBefore env ttl bound' entry.
Proof. intros Hle (s & Hs & Hexp). exists s. split; [lia|done]. Qed.

Lemma cachesFresh_tick env ttl (w w' : World) :
  serverCache w' = serverCache w → userCache w' = userCache w → (step w ≤ step w')%nat →
  cachesFresh env ttl w → cachesFresh env ttl w'.
Proof.
  intros Hs Hu Hstep (Hts & Htu & Hes & Heu). unfold cachesFresh. rewrite Hs, Hu.
  split_and!; [done|done| |].
  - intros key entry Hentry. eapply writtenBefore_mono; [exact Hstep | by eapply Hes].
  - intros key entry Hentry. eapply writtenBefore_mono; [exact Hstep | by eapply Heu].
Qed.

Lemma get_fresh env ttl (bound : nat) `{Countable K} {V} now (key : K) (c : TTLCache.t K V) :
  (∀ k entry, TTLCache.store c !! k = Some entry → writtenBefore env ttl bound entry) →
  TTLCache.ttlMs (TTLCache.get now key c).2 = TTLCache.ttlMs c
  ∧ ∀ k entry, TTLCache.store (TTLCache.get now key c).2 !! k = Some entry →
      writtenBefore env ttl (S bound) entry.
Proof.
  intros Hfresh. unfold TTLCache.get.
  destruct (TTLCache.store c !! key) as [e|] eqn:He; [case_bool_decide|]; simpl;
    (split; [done|]); intros k entry Hentry;
    (eapply writtenBefore_mono; [apply Nat.le_succ_diag_r|]).
  - apply lookup_delete_Some in Hentry as [_ Hentry]. by eapply Hfresh.
  - by eapply Hfresh.
  - by eapply Hfresh.
Qed.

Lemma set_fresh env (bound : nat) `{Countable K} {V} (key : K) (v : V) (c : TTLCache.t K V) :
  (∀ k entry, TTLCache.store c !! k = Some entry →
     writtenBefore env (TTLCache.ttlMs c) bound entry) →
  ∀ k entry, TTLCache.store (TTLCache.set (clock env bound) key v c) !! k = Some entry →
    writtenBefore env (TTLCache.ttlMs c) (S bound) entry.
Proof.
  intros Hfresh k entry. simpl. destruct (decide (k = key)) as [->|Hne].
  - rewrite lookup_insert_eq. intros [= <-]. exists bound. split; [lia|done].
  - rewrite lookup_insert_ne by done. intros Hentry.
    eapply writtenBefore_mono; [apply Nat.le_succ_diag_r | by eapply Hfresh].
Qed.

#[global] Instance cachesFresh_respected env ttl :
  Respected env (λ w w', cachesFresh env ttl w → cachesFresh env ttl w').
Proof.
  split.
  - split; [by intros w | intros a b c Hab Hbc Ha; by apply Hbc, Hab].
  - intros op w. by apply cachesFresh_tick.
  - intros w. apply cachesFresh_tick; simpl; [done|done|lia].
  - intros r w. unfold axios. destruct (http env _ _); apply cachesFresh_tick; simpl; try done; lia.
  - intros key w (Hts & Htu & Hes & Heu). unfold serverCacheGet.
    destruct (get_fresh env ttl (step w) (clock env (step w)) key (serverCache w) Hes)
      as [Httl Hentries].
    destruct (TTLCache.get _ _ _) as [r c]. unfold cachesFresh. simpl in *.
    split_and!; [congruence|done|done|].
    intros k entry Hentry. eapply writtenBefore_mono; [apply Nat.le_succ_diag_r | by eapply Heu].
  - intros key v w (Hts & Htu & Hes & Heu). unfold cachesFresh. simpl.
    rewrite <-Hts in Hes |- *.
    split_and!; [done|congruence| |].
    + apply set_fresh, Hes.
    + intros k entry Hentry. rewrite Hts.
      eapply writtenBefore_mono; [apply Nat.le_succ_diag_r | by eapply Heu].
  - intros key w (Hts & Htu & Hes & Heu). unfold userCacheGet.
    destruct (get_fresh env ttl (step w) (clock env (step w)) key (userCache w) Heu)
      as [Httl Hentries].
    destruct (TTLCache.get _ _ _) as [r c]. unfold cachesFresh. simpl in *.
    split_and!; [done|congruence| |done].
    intros k entry Hentry. eapply writtenBefore_mono; [apply Nat.le_succ_diag_r | by eapply Hes].
  - intros key v w (Hts & Htu & Hes & Heu). unfold cachesFresh. simpl.
    rewrite <-Htu in Heu |- *.
    split_and!; [congruence|done| |].
    + intros k entry Hentry. rewrite Htu.
      eapply writtenBefore_mono; [apply Nat.le_succ_diag_r | by eapply Hes].
    + apply set_fresh, Heu.
  - intros w (Hts & Htu & Hes & Heu). unfold cachesFresh. simpl. split_and!; try done.
Qed.


(** ** The two cache tiers *)

Section Tiers.
Context (env : Env) (accounts : list Account.t).

Lemma userCache_serverCacheGet key : preserves userCache (serverCacheGet env key).
Proof. intros w. unfold serverCacheGet. by destruct (TTLCache.get _ _ _). Qed.

Lemma userCache_serverCacheSet key v : preserves userCache (serverCacheSet env key v).
Proof. by intros w. Qed.

Lemma userCache_loadServers refresh account :
  preserves userCache (loadServers env refresh account).
Proof.
  unfold loadServers, reloadServers.
  frame ltac:(first [apply userCache_serverCacheGet | apply userCache_serverCacheSet
                    | apply userCache_getResources | apply userCache_connectAll]).
Qed.

Lemma userCache_getServersLoop refresh accts aggregated seen :
  preserves userCache (getServersLoop env refresh accts aggregated seen).
Proof.
  revert aggregated seen. induction accts; simpl; frame ltac:(apply userCache_loadServers).
Qed.

Lemma userCache_validateToken token cid : preserves userCache (validateToken env token cid).
Proof.
  unfold validateToken.
  frame ltac:(first [apply userCache_called | apply userCache_request]).
Qed.

Lemma userCache_validateLoop accts results :
  preserves userCache (validateLoop env accts results).
Proof.
  revert results. induction accts; simpl; frame ltac:(apply userCache_validateToken).
Qed.

End Tiers.

(** X11: the two cache tiers are written independently: [getServers],
    forced or not, leaves the user tier exactly as it was, so user lists
    cached earlier stay in use until their own expiry;
    [getUsersAcrossServers] changes the server tier only through the
    [getServers] it begins with; and [validateAccounts] touches neither
    tier. *)
Theorem cache_tiers_are_written_separately env accounts (refresh : bool) (w : World) :
  userCache (getServers env accounts refresh w).2 = userCache w
  ∧ serverCache (getUsersAcrossServers env accounts refresh w).2
    = serverCache (getServers env accounts refresh w).2
  ∧ serverCache (validateAccounts env accounts w).2 = serverCache w
  ∧ userCache (validateAccounts env accounts w).2 = userCache w.
Proof.
  split_and!.
  - apply userCache_getServersLoop.
  - unfold getUsersAcrossServers, bind.
    destruct (getServers env accounts refresh w) as [[servers|e] w1]; [|done].
    apply serverCache_usersLoop.
  - apply serverCache_validateLoop.
  - apply userCache_validateLoop.
Qed.

(** ** Forced reloads *)

Section CallCount.
Context (env : Env).

Lemma callCount_app op (w w' : World) events :
  trace w' = trace w ++ events →
  callCount op w'
  = (callCount op w + length (filter (λ called, called = op) (callsOf events)))%nat.
Proof.
  intros Ht. unfold callCount, callsOf. by rewrite Ht, omap_app, filter_app, length_app.
Qed.

Lemma callCount_same op (w w' : World) : trace w' = trace w → callCount op w' = callCount op w.
Proof. unfold callCount. by intros ->. Qed.

Lemma callCount_called op op' : op' ≠ op → preserves (callCount op) (called op').
Proof.
  intros Hne w. rewrite (callCount_app op w _ [Called op']) by done. simpl.
  rewrite filter_cons_False by done. simpl. lia.
Qed.

Lemma callCount_uuidv4 op : preserves (callCount op) (uuidv4 env).
Proof. intros w. by apply callCount_same. Qed.

Lemma callCount_axios op r : preserves (callCount op) (axios env r).
Proof.
  intros w. rewrite axios_run. rewrite (callCount_app op w _ [Sent r]) by done.
  simpl. lia.
Qed.

Lemma callCount_request op url' options : preserves (callCount op) (request env url' options).
Proof.
  unfold request, buildHeaders.
  frame ltac:(first [apply callCount_uuidv4 | apply callCount_axios]).
Qed.

Lemma callCount_connectLoop op connections resource token label cid :
  preserves (callCount op) (connectLoop env connections resource token label cid).
Proof. induction connections; simpl; frame ltac:(apply callCount_request). Qed.

Lemma callCount_connectAll op resources account connected :
  op ≠ ConnectToServer →
  preserves (callCount op) (connectAll env resources account connected).
Proof.
  intros Hne. revert connected. induction resources; simpl; unfold connectToServer;
    frame ltac:(first [by apply callCount_called | apply callCount_connectLoop]).
Qed.

Lemma reloadServers_writes account key w :
  ∃ connected (s : nat) w',
    reloadServers env account key w = (Ok connected, w')
    ∧ TTLCache.store (serverCache w')
      = <[key := TTLCache.mkEntry connected (clock env s + TTLCache.ttlMs (serverCache w))]>
          (TTLCache.store (serverCache w))
    ∧ TTLCache.ttlMs (serverCache w') = TTLCache.ttlMs (serverCache w)
    ∧ (step w < s)%nat ∧ (s < step w')%nat
    ∧ callCount GetResources w' = S (callCount GetResources w).
Proof.
  unfold reloadServers.
  destruct (getResources_run env (Account.token account)
              (Some (Account.clientIdentifier account)) w)
    as (w1 & Hrun1 & Ht1 & Hs1 & _ & Hstep1).
  rewrite (bind_Ok _ _ _ _ _ Hrun1).
  match type of Hrun1 with _ = (Ok ?listed, _) => set (resources := listed) in * end.
  destruct (noThrow_run (connectAll env resources account []) w1) as (connected & w2 & Hrun2);
    [apply noThrow_connectAll|].
  rewrite (bind_Ok _ _ _ _ _ Hrun2).
  pose proof (serverCache_connectAll env resources account [] w1) as Hs2.
  pose proof (relates_connectAll env stepLe resources account [] w1) as Hstep2.
  pose proof (callCount_connectAll GetResources resources account [] ltac:(done) w1) as Hc2.
  rewrite Hrun2 in Hs2, Hstep2, Hc2. unfold stepLe in Hstep2. simpl in *.
  unfold bind, serverCacheSet, ret. simpl.
  eexists connected, (step w2), _.
  split; [reflexivity|]. simpl. rewrite Hs2, Hs1.
  split_and!; [done|done|lia|lia|].
  match goal with |- callCount _ ?w3 = _ => rewrite (callCount_same GetResources w2 w3) by done end.
  rewrite Hc2. rewrite (callCount_app GetResources w w1 _ Ht1). simpl. lia.
Qed.

Lemma loadServers_refresh account w :
  ∃ servers (s : nat) w',
    loadServers env true account w = (Ok servers, w')
    ∧ TTLCache.store (serverCache w')
      = <["servers:" +:+ Account.label account
          := TTLCache.mkEntry servers (clock env s + TTLCache.ttlMs (serverCache w))]>
          (TTLCache.store (serverCache w))
    ∧ TTLCache.ttlMs (serverCache w') = TTLCache.ttlMs (serverCache w)
    ∧ (step w < s)%nat ∧ (s < step w')%nat
    ∧ callCount GetResources w' = S (callCount GetResources w).
Proof.
  unfold loadServers. cbv zeta.
  set (key := "servers:" +:+ Account.label account).
  unfold bind at 1. unfold serverCacheGet.
  assert (∃ c,
            (TTLCache.get (clock env (step w)) key (serverCache w)).2 = c
            ∧ TTLCache.ttlMs c = TTLCache.ttlMs (serverCache w)
            ∧ ∀ entry, <[key := entry]> (TTLCache.store c)
                       = <[key := entry]> (TTLCache.store (serverCache w)))
    as (c & Hc & Httl & Hstore).
  { eexists. split; [reflexivity|]. unfold TTLCache.get.
    destruct (TTLCache.store (serverCache w) !! key) as [e|]; [case_bool_decide|]; simpl;
      (split; [done|]); intros entry; [apply insert_delete_eq|done|done]. }
  destruct (TTLCache.get (clock env (step w)) key (serverCache w)) as [r c0].
  simpl in Hc. subst c0.
  set (w0 := {| step := S (step w); serverCache := c; userCache := userCache w;
                trace := trace w |}).
  destruct (reloadServers_writes account key w0)
    as (connected & s & w' & Hrun & Hs & Httl' & Hstep & Hstep' & Hcount).
  assert (match r with
          | Some servers => if true then reloadServers env account key else ret servers
          | None => reloadServers env account key
          end w0 = (Ok connected, w')) as -> by (by destruct r).
  exists connected, s, w'. simpl in *. rewrite Hs, Hstore, Httl.
  split_and!; [done|done|congruence|lia|lia|done].
Qed.

Lemma loadServers_calls refresh account w :
  (callCount GetResources (loadServers env refresh account w).2
   ≤ S (callCount GetResources w))%nat.
Proof.
  destruct refresh.
  - destruct (loadServers_refresh account w) as (servers & s & w' & -> & _ & _ & _ & _ & Hc).
    simpl. lia.
  - unfold loadServers. cbv zeta. unfold bind at 1. unfold serverCacheGet.
    destruct (TTLCache.get _ _ _) as [[servers|] c]; simpl.
    + unfold callCount. simpl. lia.
    + match goal with |- context [reloadServers env account ?key ?w0] =>
        destruct (reloadServers_writes account key w0)
          as (connected & s & w' & -> & _ & _ & _ & _ & Hc)
      end.
      simpl. rewrite Hc. unfold callCount. simpl. lia.
Qed.

Lemma getServersLoop_refresh accts aggregated seen w :
  callCount GetResources (getServersLoop env true accts aggregated seen w).2
  = (callCount GetResources w + length accts)%nat
  ∧ TTLCache.ttlMs (serverCache (getServersLoop env true accts aggregated seen w).2)
    = TTLCache.ttlMs (serverCache w)
  ∧ (step w ≤ step (getServersLoop env true accts aggregated seen w).2)%nat
  ∧ (∀ key,
       (∀ account, account ∈ accts → key ≠ "servers:" +:+ Account.label account) →
       TTLCache.store (serverCache (getServersLoop env true accts aggregated seen w).2) !! key
       = TTLCache.store (serverCache w) !! key)
  ∧ (∀ account, account ∈ accts →
       ∃ entry (s : nat),
         TTLCache.store (serverCache (getServersLoop env true accts aggregated seen w).2)
           !! ("servers:" +:+ Account.label account) = Some entry
         ∧ (step w < s)%nat
         ∧ (s < step (getServersLoop env true accts aggregated seen w).2)%nat
         ∧ TTLCache.expiresAt entry = clock env s + TTLCache.ttlMs (serverCache w)).
Proof.
  revert aggregated seen w.
  induction accts as [|account rest IH]; intros aggregated seen w; simpl.
  - split_and!; [lia|done|lia|done|]. by intros account ?%elem_of_nil.
  - destruct (loadServers_refresh account w)
      as (servers & s & w1 & Hrun & Hstore & Httl & Hstep & Hstep1 & Hcount).
    rewrite (bind_Ok _ _ _ _ _ Hrun).
    destruct (mergeServers servers account aggregated seen) as [aggregated1 seen1].
    destruct (IH aggregated1 seen1 w1) as (Hcount' & Httl' & Hstep' & Hframe & Hwritten).
    set (w' := (getServersLoop env true rest aggregated1 seen1 w1).2) in *.
    split_and!; [lia|congruence|lia| |].
    + intros key Hkey. rewrite Hframe by (intros a Ha; apply Hkey; by right).
      rewrite Hstore, lookup_insert_ne; [done|]. intros Heq. by apply (Hkey account); [left|].
    + intros a Ha.
      destruct (decide (Account.label a ∈ Account.label <$> rest)) as [Hin|Hnot].
      * apply list_elem_of_fmap in Hin as (b & Hlabel & Hb).
        destruct (Hwritten b Hb) as (entry & s' & Hentry & Hs' & Hs'' & Hexp).
        exists entry, s'. rewrite Hlabel. split_and!; [done|lia|done|congruence].
      * apply elem_of_cons in Ha as [->|Ha];
          [|destruct Hnot; apply list_elem_of_fmap; by exists a].
        eexists _, s. rewrite Hframe, Hstore, lookup_insert_eq.
        -- split_and!; [reflexivity|lia|lia|done].
        -- intros b Hb Heq%(inj (String.app _)). apply Hnot. rewrite Heq.
           apply list_elem_of_fmap. by exists b.
Qed.

Lemma getServersLoop_calls refresh accts aggregated seen w :
  (callCount GetResources (getServersLoop env refresh accts aggregated seen w).2
   ≤ callCount GetResources w + length accts)%nat.
Proof.
  revert aggregated seen w.
  induction accts as [|account rest IH]; intros aggregated seen w; simpl; [lia|].
  pose proof (loadServers_calls refresh account w) as Hone.
  unfold bind. destruct (loadServers env refresh account w) as [[servers|e] w1]; simpl in *;
    [|lia].
  destruct (mergeServers servers account aggregated seen) as [aggregated1 seen1].
  specialize (IH aggregated1 seen1 w1). lia.
Qed.

End CallCount.

(** X12: a forced [getServers] reloads every account whatever the cache
    holds: it calls [getResources] exactly once per account, and
    afterwards every account has a server list entry written during the
    call, which expires one time to live after the clock reading of its
    write; an unforced call never calls [getResources] more than once per
    account. *)
Theorem refresh_reloads_every_account env accounts (w : World) :
  callCount GetResources (getServers env accounts true w).2
  = (callCount GetResources w + length accounts)%nat
  ∧ (∀ account, account ∈ accounts →
       ∃ entry (s : nat),
         TTLCache.store (serverCache (getServers env accounts true w).2)
           !! ("servers:" +:+ Account.label account) = Some entry
         ∧ (step w < s)%nat ∧ (s < step (getServers env accounts true w).2)%nat
         ∧ TTLCache.expiresAt entry = clock env s + TTLCache.ttlMs (serverCache w))
  ∧ (∀ refresh,
       (callCount GetResources (getServers env accounts refresh w).2
        ≤ callCount GetResources w + length accounts)%nat).
Proof.
  unfold getServers.
  destruct (getServersLoop_refresh env accounts [] ∅ w) as (Hcount & _ & _ & _ & Hwritten).
  split_and!; [done|done|].
  intros refresh. apply getServersLoop_calls.
Qed.

(** Accounts A and B, forced right after an unforced call that filled
    the cache: two more calls of [getResources], and the entry of B is
    written anew. *)
Lemma refresh_reloads_every_account_witness :
  let env := demoEnv [resourceM1 "one"] [] in
  let w := (getServers env [accountA; accountB] false (newManager 300000)).2 in
  callCount GetResources w = 2%nat
  ∧ callCount GetResources (getServers env [accountA; accountB] true w).2 = 4%nat
  ∧ ∃ entry (s : nat),
      TTLCache.store (serverCache (getServers env [accountA; accountB] true w).2)
        !! "servers:B" = Some entry
      ∧ (step w < s)%nat.
Proof.
  intros env w.
  destruct (refresh_reloads_every_account env [accountA; accountB] w)
    as (Hcount & Hwritten & _).
  assert (callCount GetResources w = 2%nat) as Hw by (vm_compute; reflexivity).
  split_and!; [exact Hw | by rewrite Hcount, Hw |].
  destruct (Hwritten accountB) as (entry & s & Hentry & Hs & _).
  - right. left.
  - exists entry, s. split; [exact Hentry | exact Hs].
Defined.

(** ** An outage of the directory *)

Section Outage.
Context (env : Env).
Hypothesis Hdown : ∀ s r, ∃ message, http env s r = Failure message.

Lemma getResources_outage token cid : returns (getResources env token cid) (λ l, l = []).
Proof.
  intros w resources w' Hrun.
  destruct (getResources_run env token cid w) as (w1 & Hrun1 & _).
  rewrite Hrun1 in Hrun. injection Hrun as <- _.
  by destruct (Hdown (pred (step w1))
                 (requestFor "https://plex.tv/pms/resources"
                    (createRequestOptions (Some token) cid
                       (RequestOptions.mk None None None (Some "text")))
                    (uuid env (step w)))) as [message ->].
Qed.

Lemma loadServers_outage account : returns (loadServers env true account) (λ l, l = []).
Proof.
  assert (∀ key, returns (reloadServers env account key) (λ l, l = [])) as Hreload.
  { intros key. unfold reloadServers.
    eapply returns_bind; [apply getResources_outage|]. intros resources ->. simpl.
    intros w servers w'. unfold bind, ret, serverCacheSet. simpl. by intros [= <- _]. }
  unfold loadServers. cbv zeta.
  eapply returns_bind; [apply returns_True|]. intros [servers|] _; apply Hreload.
Qed.

Lemma getServersLoop_outage accts aggregated seen w :
  ∃ w',
    getServersLoop env true accts aggregated seen w = (Ok aggregated, w')
    ∧ (∀ account, account ∈ accts →
         ∃ entry,
           TTLCache.store (serverCache w') !! ("servers:" +:+ Account.label account)
           = Some entry
           ∧ TTLCache.value entry = [])
    ∧ (∀ key entry,
         TTLCache.store (serverCache w) !! key = Some entry →
         ∃ entry', TTLCache.store (serverCache w') !! key = Some entry'
                   ∧ (entry' = entry ∨ TTLCache.value entry' = [])).
Proof.
  revert aggregated seen w.
  induction accts as [|account rest IH]; intros aggregated seen w; simpl.
  - exists w. split_and!; [done| |].
    + by intros account ?%elem_of_nil.
    + intros key entry Hentry. exists entry. by split; [|left].
  - destruct (loadServers_refresh env account w)
      as (servers & s & w1 & Hrun & Hstore & _).
    pose proof (loadServers_outage account w servers w1 Hrun) as ->.
    rewrite (bind_Ok _ _ _ _ _ Hrun). simpl.
    destruct (IH aggregated seen w1) as (w' & Hloop & Hrest & Hkept).
    exists w'. split_and!; [done| |].
    + intros a [->|Ha]%elem_of_cons; [|by apply Hrest].
      destruct (Hkept ("servers:" +:+ Account.label account)
                  (TTLCache.mkEntry [] (clock env s + TTLCache.ttlMs (serverCache w))))
        as (entry' & Hentry' & Hsame).
      { rewrite Hstore. apply lookup_insert_eq. }
      exists entry'. split; [done|]. by destruct Hsame as [->|?].
    + intros key entry Hentry.
      destruct (decide (key = "servers:" +:+ Account.label account)) as [->|Hne].
      * destruct (Hkept ("servers:" +:+ Account.label account)
                    (TTLCache.mkEntry [] (clock env s + TTLCache.ttlMs (serverCache w))))
          as (entry' & Hentry' & Hsame).
        { rewrite Hstore. apply lookup_insert_eq. }
        exists entry'. split; [done|]. right. by destruct Hsame as [->|?].
      * apply Hkept. rewrite Hstore. by rewrite lookup_insert_ne.
Qed.

End Outage.

Lemma mergeServers_nil account aggregated (seen : gset string) :
  mergeServers [] account aggregated seen = (aggregated, seen).
Proof. done. Qed.

Lemma mergeAll_nothing accts (lists : list (list PlexServer.t)) aggregated
    (seen : gset string) :
  Forall (λ l, l = []) lists → mergeAll accts lists aggregated seen = aggregated.
Proof.
  intros Hall. revert accts aggregated seen.
  induction Hall as [|l lists -> _ IH]; intros [|account accts] aggregated seen; simpl;
    done.
Qed.

(** X13: when every request fails while a forced [getServers] runs, the
    call still succeeds, with the empty list, and the empty list is what
    it stores as the server list of every account, in place of whatever
    was cached; so a later unforced call, made while those entries are
    within their time to live, returns the empty list without calling the
    adapter, whatever the remote service would answer by then. *)
Theorem outage_is_cached_as_no_servers env accounts (w : World) :
  (∀ s r, ∃ message, http env s r = Failure message) →
  ∃ w',
    getServers env accounts true w = (Ok [], w')
    ∧ (∀ account, account ∈ accounts →
         ∃ entry,
           TTLCache.store (serverCache w') !! ("servers:" +:+ Account.label account)
           = Some entry
           ∧ TTLCache.value entry = [])
    ∧ ∀ recovered,
        (∀ account entry (i : nat),
           account ∈ accounts →
           TTLCache.store (serverCache w') !! ("servers:" +:+ Account.label account)
           = Some entry →
           (i < length accounts)%nat →
           clock recovered (step w' + i) ≤ TTLCache.expiresAt entry) →
        ∃ w'',
          getServers recovered accounts false w' = (Ok [], w'')
          ∧ trace w'' = trace w'.
Proof.
  intros Hdown. unfold getServers.
  destruct (getServersLoop_outage env Hdown accounts [] ∅ w) as (w' & Hrun & Hempty & _).
  exists w'. split_and!; [done|done|].
  intros recovered Hfresh.
  pose proof (loadAll_hits recovered accounts ((λ _, []) <$> accounts) w') as Hhits.
  destruct (getServersLoop_mapM recovered false accounts [] ∅ w')
    as (lists & w'' & Hmap & Hloop).
  rewrite Hhits in Hmap.
  - injection Hmap as <- <-.
    exists {| step := step w' + length accounts; serverCache := serverCache w';
              userCache := userCache w'; trace := trace w' |}.
    split; [|done].
    rewrite Hloop. rewrite mergeAll_nothing; [done|].
    apply Forall_fmap, Forall_forall. by intros account _.
  - apply Forall2_fmap_r, Forall_Forall2_diag, Forall_forall.
    intros account Hin. by apply Hempty.
  - exact Hfresh.
Qed.

(** Accounts A and B during an outage, and the unforced call that
    follows at once against a service that lists M1 again. *)
Lemma outage_is_cached_as_no_servers_witness :
  ∃ w',
    getServers downEnv [accountA; accountB] true (newManager 300000) = (Ok [], w')
    ∧ ∃ w'',
        getServers (demoEnv [resourceM1 "one"] []) [accountA; accountB] false w'
        = (Ok [], w'')
        ∧ trace w'' = trace w'.
Proof.
  destruct (outage_is_cached_as_no_servers downEnv [accountA; accountB] (newManager 300000))
    as (w' & Hrun & _ & Hlater).
  - intros s r. by exists "ECONNREFUSED".
  - exists w'. split; [exact Hrun|].
    apply Hlater. intros account entry i Hin Hentry Hi.
    assert (w' = (getServers downEnv [accountA; accountB] true (newManager 300000)).2) as ->
      by (by rewrite Hrun).
    assert (300000 ≤ TTLCache.expiresAt entry) as Hexpiry.
    { apply elem_of_cons in Hin as [->|Hin];
        [|apply list_elem_of_singleton in Hin as ->];
        vm_compute in Hentry; injection Hentry as <-; vm_compute; congruence. }
    change (clock (demoEnv [resourceM1 "one"] []) ?n) with (1000 * Z.of_nat n).
    match goal with |- context [step ?w0] => assert (step w0 = 6%nat) as -> end.
    { vm_compute. reflexivity. }
    simpl in Hi. lia.
Defined.

(** ** A cold cache *)

Section Cold.
Context (env : Env) (accounts : list Account.t).

Lemma loadServers_cold account w :
  TTLCache.store (serverCache w) !! ("servers:" +:+ Account.label account) = None →
  loadServers env false account w = loadServers env true account w.
Proof.
  intros Hcold. unfold loadServers, bind, serverCacheGet, TTLCache.get. cbv zeta.
  by rewrite Hcold.
Qed.

Lemma getServersLoop_cold accts aggregated seen w :
  NoDup (Account.label <$> accts) →
  (∀ account, account ∈ accts →
     TTLCache.store (serverCache w) !! ("servers:" +:+ Account.label account) = None) →
  getServersLoop env false accts aggregated seen w
  = getServersLoop env true accts aggregated seen w.
Proof.
  revert aggregated seen w.
  induction accts as [|account rest IH]; intros aggregated seen w Hnodup Hcold; simpl;
    [done|].
  rewrite fmap_cons in Hnodup. apply NoDup_cons in Hnodup as [Hfresh Hnodup].
  unfold bind. rewrite loadServers_cold by (apply Hcold; left).
  destruct (loadServers_spec env true account w)
    as (servers & entry & w1 & Hrun & _ & _ & _ & Hother & _).
  rewrite Hrun. destruct (mergeServers servers account aggregated seen) as [aggregated1 seen1].
  apply IH; [done|]. intros other Hin. rewrite Hother.
  - apply Hcold. by right.
  - intros Heq%(inj (String.app _)). apply Hfresh. rewrite <-Heq.
    apply list_elem_of_fmap. by exists other.
Qed.

Lemma userCache_lookup {A} (m : M A) (key : string) :
  preserves userCache m → preserves (λ w, TTLCache.store (userCache w) !! key) m.
Proof. intros Hm w. simpl. by rewrite Hm. Qed.

Lemma userCache_fetchServerUsers server token cid :
  preserves userCache (fetchServerUsers env server token cid).
Proof.
  unfold fetchServerUsers, localAccounts, sharedAccounts.
  frame ltac:(first [apply userCache_called | apply userCache_request]).
Qed.

Lemma loadUsers_other refresh server key :
  key ≠ "users:" +:+ serverKey server →
  preserves (λ w, TTLCache.store (userCache w) !! key) (loadUsers env accounts refresh server).
Proof.
  intros Hne.
  assert (preserves (λ w, TTLCache.store (userCache w) !! key)
            (userCacheGet env ("users:" +:+ serverKey server))) as Hget.
  { intros w. unfold userCacheGet, TTLCache.get.
    destruct (TTLCache.store (userCache w) !! _) as [e|]; [case_bool_decide|]; simpl;
      try done.
    by rewrite lookup_delete_ne. }
  assert (∀ v, preserves (λ w, TTLCache.store (userCache w) !! key)
                 (userCacheSet env ("users:" +:+ serverKey server) v)) as Hset.
  { intros v w. simpl. by rewrite lookup_insert_ne. }
  unfold loadUsers, reloadUsers.
  change ("users:" +:+ PlexServer.machineIdentifier server +:+ ":" +:+
          PlexServer.accountLabel server) with ("users:" +:+ serverKey server).
  frame ltac:(first [apply findTokenForAccount_frame | apply findClientIdentifier_frame
                    | apply userCache_lookup, userCache_fetchServerUsers]).
Qed.

Lemma loadUsers_cold server w :
  TTLCache.store (userCache w) !! ("users:" +:+ serverKey server) = None →
  loadUsers env accounts false server w = loadUsers env accounts true server w.
Proof.
  intros Hcold. unfold loadUsers, bind, userCacheGet, TTLCache.get. cbv zeta.
  change ("users:" +:+ PlexServer.machineIdentifier server +:+ ":" +:+
          PlexServer.accountLabel server) with ("users:" +:+ serverKey server).
  by rewrite Hcold.
Qed.

Lemma usersLoop_cold servers users w :
  NoDup (serverKey <$> servers) →
  (∀ server, server ∈ servers →
     TTLCache.store (userCache w) !! ("users:" +:+ serverKey server) = None) →
  usersLoop env accounts false servers users w = usersLoop env accounts true servers users w.
Proof.
  revert users w.
  induction servers as [|server rest IH]; intros users w Hnodup Hcold; simpl; [done|].
  rewrite fmap_cons in Hnodup. apply NoDup_cons in Hnodup as [Hfresh Hnodup].
  unfold bind. rewrite loadUsers_cold by (apply Hcold; left).
  destruct (loadUsers env accounts true server w) as [[cached|e] w1] eqn:Hrun; [|done].
  apply IH; [done|]. intros other Hin.
  assert ("users:" +:+ serverKey other ≠ "users:" +:+ serverKey server) as Hne.
  { intros Heq%(inj (String.app _)). apply Hfresh. rewrite <-Heq.
    apply list_elem_of_fmap. by exists other. }
  pose proof (loadUsers_other true server _ Hne w) as Hother.
  rewrite Hrun in Hother. simpl in Hother. rewrite Hother. apply Hcold. by right.
Qed.

Lemma cold_calls w :
  NoDup (Account.label <$> accounts) →
  TTLCache.store (serverCache w) = ∅ →
  TTLCache.store (userCache w) = ∅ →
  getServers env accounts false w = getServers env accounts true w
  ∧ getUsersAcrossServers env accounts false w = getUsersAcrossServers env accounts true w.
Proof.
  intros Hnodup Hs Hu.
  assert (getServers env accounts false w = getServers env accounts true w) as Hservers.
  { apply getServersLoop_cold; [done|]. intros account _. by rewrite Hs. }
  split; [done|]. unfold getUsersAcrossServers, bind. rewrite Hservers.
  destruct (getServers_Ok env accounts true w)
    as (lists & servers & w1 & _ & Hrun & -> & _ & _ & Hu1).
  { intros label entry Hentry. by rewrite Hs in Hentry. }
  rewrite Hrun. apply usersLoop_cold; [apply keepFirst_NoDup|].
  intros server _. by rewrite Hu1, Hu.
Qed.

End Cold.

(** X14: with account labels that are pairwise distinct, a call made on
    a cold cache, that of a new manager or the one [clearCaches] leaves,
    does exactly what the forced call does: [getServers(false)] and
    [getServers(true)] give the same result and the same state, and so do
    [getUsersAcrossServers(false)] and [getUsersAcrossServers(true)];
    [clearCaches] itself empties both tiers and changes nothing else. *)
Theorem cold_cache_calls_are_forced_calls env accounts (w : World) :
  NoDup (Account.label <$> accounts) →
  let cleared := (clearCaches w).2 in
  getServers env accounts false cleared = getServers env accounts true cleared
  ∧ getUsersAcrossServers env accounts false cleared
    = getUsersAcrossServers env accounts true cleared
  ∧ (∀ ttl,
       getServers env accounts false (newManager ttl)
       = getServers env accounts true (newManager ttl)
       ∧ getUsersAcrossServers env accounts false (newManager ttl)
         = getUsersAcrossServers env accounts true (newManager ttl))
  ∧ TTLCache.store (serverCache cleared) = ∅
  ∧ TTLCache.store (userCache cleared) = ∅
  ∧ TTLCache.ttlMs (serverCache cleared) = TTLCache.ttlMs (serverCache w)
  ∧ TTLCache.ttlMs (userCache cleared) = TTLCache.ttlMs (userCache w)
  ∧ trace cleared = trace w
  ∧ step cleared = step w.
Proof.
  intros Hnodup cleared.
  destruct (cold_calls env accounts cleared Hnodup) as [Hservers Husers]; [done..|].
  split_and!; try done.
  intros ttl. by apply cold_calls.
Qed.

(** The accounts A and B on a manager whose cache was filled and then
    cleared. *)
Lemma cold_cache_calls_are_forced_calls_witness :
  let env := demoEnv [resourceM1 "one"] [] in
  let w := (getServers env [accountA; accountB] false (newManager 300000)).2 in
  getServers env [accountA; accountB] false (clearCaches w).2
  = getServers env [accountA; accountB] true (clearCaches w).2.
Proof.
  intros env w.
  destruct (cold_cache_calls_are_forced_calls env [accountA; accountB] w) as (Hservers & _).
  - simpl. apply NoDup_cons. split; [|apply NoDup_singleton].
    by intros [=]%list_elem_of_singleton.
  - exact Hservers.
Defined.

(** ** The user tier *)

Section UserTier.
Context (env : Env) (accounts : list Account.t).

Lemma usersLoop_mapM refresh servers users w :
  match mapM (loadUsers env accounts refresh) servers w with
  | (Ok lists, w') =>
      usersLoop env accounts refresh servers users w = (Ok (users ++ concat lists), w')
  | (Err e, w') => usersLoop env accounts refresh servers users w = (Err e, w')
  end.
Proof.
  revert users w. induction servers as [|server rest IH]; intros users w; simpl.
  - unfold ret. simpl. by rewrite app_nil_r.
  - unfold bind.
    destruct (loadUsers env accounts refresh server w) as [[cached|e] w1]; simpl; [|done].
    specialize (IH (users ++ cached) w1).
    destruct (mapM _ rest w1) as [[lists|e] w2]; simpl; [|done].
    unfold ret. simpl. by rewrite app_assoc.
Qed.

Lemma ttl_get_Some `{Countable K} {V} now (key : K) (c : TTLCache.t K V) v :
  (TTLCache.get now key c).1 = Some v →
  ∃ entry, TTLCache.store c !! key = Some entry
           ∧ TTLCache.value entry = v
           ∧ (TTLCache.get now key c).2 = c.
Proof.
  unfold TTLCache.get. destruct (TTLCache.store c !! key) as [entry|]; [|done].
  case_bool_decide; simpl; [done|]. intros [= <-]. by exists entry.
Qed.

Lemma reloadUsers_entry server key w users w' :
  reloadUsers env accounts server key w = (Ok users, w') →
  ∃ entry, TTLCache.store (userCache w') !! key = Some entry
           ∧ TTLCache.value entry = users
           ∧ Forall (linkedTo server) users.
Proof.
  unfold reloadUsers, findTokenForAccount, findClientIdentifier.
  destruct (find _ accounts) as [account|]; [|done].
  unfold bind at 1. unfold ret at 1. unfold bind at 1. unfold ret at 1.
  destruct (fetchServerUsers_run env server (Account.token account)
              (Some (Account.clientIdentifier account)) w)
    as (s1 & s2 & r1 & r2 & w1 & Hrun & _).
  rewrite (bind_Ok _ _ _ _ _ Hrun). unfold bind, userCacheSet, ret. simpl.
  intros [= <- <-]. simpl. eexists. rewrite lookup_insert_eq. split_and!; [done..|].
  apply dedupe_Forall, Forall_app. split; [apply localOf_linked | apply sharedOf_linked].
Qed.

Lemma loadUsers_entry refresh server w users w' :
  loadUsers env accounts refresh server w = (Ok users, w') →
  ∃ entry, TTLCache.store (userCache w') !! ("users:" +:+ serverKey server) = Some entry
           ∧ TTLCache.value entry = users.
Proof.
  unfold loadUsers. cbv zeta.
  change ("users:" +:+ PlexServer.machineIdentifier server +:+ ":" +:+
          PlexServer.accountLabel server) with ("users:" +:+ serverKey server).
  unfold bind at 1. unfold userCacheGet.
  destruct (TTLCache.get (clock env (step w)) ("users:" +:+ serverKey server) (userCache w))
    as [r c] eqn:Hget.
  assert (∀ w0, reloadUsers env accounts server ("users:" +:+ serverKey server) w0
                = (Ok users, w') →
                ∃ entry,
                  TTLCache.store (userCache w') !! ("users:" +:+ serverKey server) = Some entry
                  ∧ TTLCache.value entry = users) as Hreload.
  { intros w0 (entry & ? & ? & _)%reloadUsers_entry. by exists entry. }
  destruct r as [cached|]; [destruct refresh|]; try apply Hreload.
  unfold ret. intros [= <- <-]. simpl.
  destruct (ttl_get_Some (clock env (step w)) ("users:" +:+ serverKey server) (userCache w)
              cached) as (entry & Hentry & Hvalue & Hsame).
  { by rewrite Hget. }
  rewrite Hget in Hsame. simpl in Hsame. subst c. by exists entry.
Qed.



Lemma usersAll_cached refresh servers w lists w' :
  NoDup (serverKey <$> servers) →
  mapM (loadUsers env accounts refresh) servers w = (Ok lists, w') →
  Forall2 (λ server listed,
             ∃ entry,
               TTLCache.store (userCache w') !! ("users:" +:+ serverKey server) = Some entry
               ∧ TTLCache.value entry = listed) servers lists
  ∧ (∀ key, (∀ server, server ∈ servers → key ≠ "users:" +:+ serverKey server) →
       TTLCache.store (userCache w') !! key = TTLCache.store (userCache w) !! key)
  ∧ serverCache w' = serverCache w.
Proof.
  revert w lists w'. induction servers as [|server rest IH]; intros w lists w' Hnodup; simpl.
  - intros [= <- <-]. split_and!; [constructor|done|done].
  - rewrite fmap_cons in Hnodup. apply NoDup_cons in Hnodup as [Hfresh Hnodup].
    unfold bind at 1.
    destruct (loadUsers env accounts refresh server w) as [[listed|e] w1] eqn:Hrun; [|done].
    unfold bind. destruct (mapM _ rest w1) as [[lists'|e] w2] eqn:Hmap; [|done].
    intros [= <- <-]. destruct (IH w1 lists' w2 Hnodup Hmap) as (Hall & Hframe & Hs).
    destruct (loadUsers_entry refresh server w listed w1 Hrun) as (entry & Hentry & Hvalue).
    pose proof (serverCache_loadUsers env accounts refresh server w) as Hs1.
    rewrite Hrun in Hs1. simpl in Hs1.
    split_and!; [|  |congruence].
    + constructor; [|done]. exists entry. split; [|done].
      rewrite Hframe; [done|]. intros other Hin Heq%(inj (String.app _)).
      apply Hfresh. rewrite Heq. apply list_elem_of_fmap. by exists other.
    + intros key Hkey. rewrite Hframe by (intros other Hin; apply Hkey; by right).
      pose proof (loadUsers_other env accounts refresh server key) as Hother.
      unfold preserves in Hother. rewrite <-(Hother (Hkey server ltac:(left)) w).
      by rewrite Hrun.
Qed.

Lemma usersAll_hits servers lists w :
  Forall2 (λ server listed,
             ∃ entry,
               TTLCache.store (userCache w) !! ("users:" +:+ serverKey server) = Some entry
               ∧ TTLCache.value entry = listed) servers lists →
  (∀ server entry (i : nat),
     server ∈ servers →
     TTLCache.store (userCache w) !! ("users:" +:+ serverKey server) = Some entry →
     (i < length servers)%nat →
     clock env (step w + i) ≤ TTLCache.expiresAt entry) →
  mapM (loadUsers env accounts false) servers w
  = (Ok lists, {| step := step w + length servers;
                  serverCache := serverCache w;
                  userCache := userCache w;
                  trace := trace w |}).
Proof.
  intros Hall. revert w lists Hall.
  induction servers as [|server rest IH]; intros w lists Hall Hfresh.
  - apply Forall2_nil_inv_l in Hall as ->. simpl. unfold ret.
    rewrite Nat.add_0_r. by destruct w.
  - apply Forall2_cons_inv_l in Hall
      as (listed & lists' & (entry & Hentry & Hvalue) & Hall & ->).
    simpl.
    assert (loadUsers env accounts false server w
            = (Ok listed, {| step := S (step w); serverCache := serverCache w;
                             userCache := userCache w; trace := trace w |})) as Hrun.
    { unfold loadUsers, bind, userCacheGet, TTLCache.get. cbv zeta.
      change ("users:" +:+ PlexServer.machineIdentifier server +:+ ":" +:+
              PlexServer.accountLabel server) with ("users:" +:+ serverKey server).
      rewrite Hentry. rewrite bool_decide_eq_false_2.
      - unfold ret. by rewrite Hvalue.
      - pose proof (Hfresh server entry 0%nat) as Hnow.
        rewrite Nat.add_0_r in Hnow. simpl in Hnow.
        cut (clock env (step w) ≤ TTLCache.expiresAt entry); [lia|].
        apply Hnow; [left|done|lia]. }
    rewrite (bind_Ok _ _ _ _ _ Hrun).
    set (w1 := {| step := S (step w); serverCache := serverCache w;
                  userCache := userCache w; trace := trace w |}).
    assert (mapM (loadUsers env accounts false) rest w1
            = (Ok lists', {| step := step w1 + length rest; serverCache := serverCache w1;
                             userCache := userCache w1; trace := trace w1 |})) as Hrest.
    { apply IH; [exact Hall|].
      intros other entry' i Hin Hlookup Hi. simpl in *.
      replace (S (step w + i))%nat with (step w + S i)%nat by lia.
      apply (Hfresh other); [by right|done|lia]. }
    rewrite (bind_Ok _ _ _ _ _ Hrest).
    unfold ret. simpl. do 2 f_equal. lia.
Qed.

End UserTier.



(** X16: with account labels that are pairwise distinct and from every
    state the manager can be in, a second unforced
    [getUsersAcrossServers], made while the server list entry of every
    account and the user list entry of every server are within their time
    to live at each of its steps, calls no adapter operation and sends no
    request, leaves both caches as they are, takes one cache read per
    account and one per server, and returns the list the first call
    returned. *)
Theorem getUsersAcrossServers_twice_within_ttl env fuseMatch accounts w servers w0 users w1 :
  Reachable env fuseMatch accounts w →
  NoDup (Account.label <$> accounts) →
  getServers env accounts false w = (Ok servers, w0) →
  usersLoop env accounts false servers [] w0 = (Ok users, w1) →
  (∀ account entry (i : nat),
     account ∈ accounts →
     TTLCache.store (serverCache w1) !! ("servers:" +:+ Account.label account) = Some entry →
     (i < length accounts + length servers)%nat →
     clock env (step w1 + i) ≤ TTLCache.expiresAt entry) →
  (∀ server entry (i : nat),
     server ∈ servers →
     TTLCache.store (userCache w1) !! ("users:" +:+ serverKey server) = Some entry →
     (i < length accounts + length servers)%nat →
     clock env (step w1 + i) ≤ TTLCache.expiresAt entry) →
  getUsersAcrossServers env accounts false w = (Ok users, w1)
  ∧ ∃ w2,
      getUsersAcrossServers env accounts false w1 = (Ok users, w2)
      ∧ trace w2 = trace w1
      ∧ serverCache w2 = serverCache w1
      ∧ userCache w2 = userCache w1
      ∧ step w2 = (step w1 + length accounts + length servers)%nat.
Proof.
  intros Hok%Reachable_serverCacheOk Hnodup Hservers Husers HfreshS HfreshU.
  split; [unfold getUsersAcrossServers; by rewrite (bind_Ok _ _ _ _ _ Hservers)|].
  destruct (getServers_Ok env accounts false w Hok)
    as (lists & servers' & w0' & Hmap & Hrun & Hkeep & _ & _ & _).
  rewrite Hrun in Hservers. injection Hservers as -> ->.
  assert (NoDup (serverKey <$> servers)) as HnodupS
    by (rewrite Hkeep; apply keepFirst_NoDup).
  destruct (loadAll_cached env false accounts w lists w0 Hnodup Hmap) as [Hcached _].
  pose proof (usersLoop_mapM env accounts false servers [] w0) as HloopU.
  destruct (mapM (loadUsers env accounts false) servers w0) as [[ulists|e] w1'] eqn:HmapU;
    [|congruence].
  rewrite Husers in HloopU. injection HloopU as -> ->.
  destruct (usersAll_cached env accounts false servers w0 ulists w1' HnodupS HmapU)
    as (HcachedU & _ & Hs).
  (* the second call: the server tier *)
  assert (mapM (loadServers env false) accounts w1'
          = (Ok lists, {| step := step w1' + length accounts; serverCache := serverCache w1';
                          userCache := userCache w1'; trace := trace w1' |})) as Hsecond.
  { apply loadAll_hits.
    - rewrite Hs. exact Hcached.
    - intros account entry i Hin Hentry Hi. apply (HfreshS account); [done|done|lia]. }
  destruct (getServersLoop_mapM env false accounts [] ∅ w1') as (lists2 & wa & Hmap2 & Hloop2).
  rewrite Hsecond in Hmap2. injection Hmap2 as <- <-.
  destruct (getServersLoop_mapM env false accounts [] ∅ w) as (lists3 & wb & Hmap3 & Hloop3).
  rewrite Hmap in Hmap3. injection Hmap3 as <- <-.
  unfold getServers in Hrun. rewrite Hloop3 in Hrun. injection Hrun as Hmerge.
  rewrite Hmerge in Hloop2.
  (* the second call: the user tier *)
  set (wa := {| step := step w1' + length accounts; serverCache := serverCache w1';
                userCache := userCache w1'; trace := trace w1' |}) in *.
  assert (mapM (loadUsers env accounts false) servers wa
          = (Ok ulists, {| step := step wa + length servers; serverCache := serverCache wa;
                           userCache := userCache wa; trace := trace wa |})) as HsecondU.
  { apply usersAll_hits.
    - exact HcachedU.
    - intros server entry i Hin Hentry Hi. simpl in *.
      replace (step w1' + length accounts + i)%nat with (step w1' + (length accounts + i))%nat
        by lia.
      apply (HfreshU server); [done|done|lia]. }
  pose proof (usersLoop_mapM env accounts false servers [] wa) as HloopU2.
  rewrite HsecondU in HloopU2.
  eexists. unfold getUsersAcrossServers, getServers.
  rewrite (bind_Ok _ _ _ _ _ Hloop2). split; [exact HloopU2|]. simpl. done.
Qed.

(** The accounts A and B, each seeing M1 with its two local accounts, on
    a new manager with a time to live of 300 seconds: the second call
    follows the first at once. *)
Lemma getUsersAcrossServers_twice_within_ttl_witness :
  let nodes :=
    (λ n : Z,
       AccountNode.mk (IdNumber n) None None (Some ("user" +:+ JsString.ofZ n)) None None
         None None None JsUndefined JsUndefined JsUndefined JsUndefined) <$> [1; 2] in
  let env := demoEnv [resourceM1 "one"] nodes in
  let first := getUsersAcrossServers env [accountA; accountB] false (newManager 300000) in
  ∃ users w2,
    first.1 = Ok users
    ∧ length users = 4%nat
    ∧ getUsersAcrossServers env [accountA; accountB] false first.2 = (Ok users, w2)
    ∧ trace w2 = trace first.2.
Proof.
  intros nodes env first.
  set (servers := [serverM1 "one" "A"; serverM1 "one" "B"]).
  set (w0 := (getServers env [accountA; accountB] false (newManager 300000)).2).
  set (users := match first.1 with Ok listed => listed | Err _ => [] end).
  destruct (getUsersAcrossServers_twice_within_ttl env (matchAll 0) [accountA; accountB]
              (newManager 300000) servers w0 users first.2)
    as (Hfirst & w2 & Hrun & Htrace & _).
  - apply ReachableNew.
  - simpl. apply NoDup_cons. split; [|apply NoDup_singleton].
    by intros [=]%list_elem_of_singleton.
  - vm_compute. reflexivity.
  - vm_compute. reflexivity.
  - intros account entry i Hin Hentry Hi.
    assert (300000 ≤ TTLCache.expiresAt entry) as Hexpiry.
    { apply elem_of_cons in Hin as [->|Hin];
        [|apply list_elem_of_singleton in Hin as ->];
        vm_compute in Hentry; injection Hentry as <-; vm_compute; congruence. }
    change (clock env (step first.2 + i)) with (1000 * Z.of_nat (step first.2 + i)).
    assert (step first.2 = 16%nat) as -> by (vm_compute; reflexivity).
    simpl in Hi. lia.
  - intros server entry i Hin Hentry Hi.
    assert (300000 ≤ TTLCache.expiresAt entry) as Hexpiry.
    { apply elem_of_cons in Hin as [->|Hin];
        [|apply list_elem_of_singleton in Hin as ->];
        vm_compute in Hentry; injection Hentry as <-; vm_compute; congruence. }
    change (clock env (step first.2 + i)) with (1000 * Z.of_nat (step first.2 + i)).
    assert (step first.2 = 16%nat) as -> by (vm_compute; reflexivity).
    simpl in Hi. lia.
  - exists users, w2. split_and!; [|vm_compute; reflexivity|exact Hrun|exact Htrace].
    fold first in Hfirst. rewrite Hfirst. reflexivity.
Defined.

(** ** Whose credentials a request carries *)

#[global] Instance sendsOnly_preorder (P : Request → Prop) : PreOrder (sendsOnly P).
Proof.
  split.
  - intros w. exists []. by rewrite app_nil_r.
  - intros a b c (e1 & H1 & HP1) (e2 & H2 & HP2). exists (e1 ++ e2). split.
    + by rewrite H2, H1, app_assoc.
    + unfold requestsOf. rewrite omap_app. by apply Forall_app.
Qed.

Section Credentials.
Context (env : Env) (accounts : list Account.t).

Lemma sendsOnly_same (P : Request → Prop) {A} (m : M A) :
  preserves trace m → relates (sendsOnly P) m.
Proof. intros Hm w. exists []. by rewrite app_nil_r, Hm. Qed.

Lemma trace_serverCacheGet key : preserves trace (serverCacheGet env key).
Proof. intros w. unfold serverCacheGet. by destruct (TTLCache.get _ _ _). Qed.

Lemma trace_userCacheGet key : preserves trace (userCacheGet env key).
Proof. intros w. unfold userCacheGet. by destruct (TTLCache.get _ _ _). Qed.

Lemma sendsOnly_called (P : Request → Prop) op : relates (sendsOnly P) (called op).
Proof. intros w. exists [Called op]. split; [done|constructor]. Qed.

Lemma requestFor_credentials account url' extras fresh :
  RequestOptions.token extras = None →
  RequestOptions.clientIdentifier extras = None →
  carriesCredentials account
    (requestFor url'
       (createRequestOptions (Some (Account.token account))
          (Some (Account.clientIdentifier account)) extras) fresh).
Proof.
  intros Ht Hc. unfold carriesCredentials, headerValues, requestFor, standardHeaders. simpl.
  rewrite createRequestOptions_token, createRequestOptions_clientIdentifier, Ht, Hc.
  unfold JsString.orElse. simpl.
  destruct (JsString.truthy (Account.token account)) eqn:Htoken;
    destruct (JsString.truthy (Account.clientIdentifier account)) eqn:Hcid; simpl;
    rewrite ?Htoken; simpl; (split_and!; [done|done|]); intros Hne; try done.
  all: unfold JsString.truthy in Hcid; by rewrite bool_decide_eq_false_2 in Hcid.
Qed.

Lemma sendsOnly_request account url' extras :
  account ∈ accounts →
  RequestOptions.token extras = None →
  RequestOptions.clientIdentifier extras = None →
  relates (sendsOnly (λ r, ∃ account, account ∈ accounts ∧ carriesCredentials account r))
    (request env url'
       (createRequestOptions (Some (Account.token account))
          (Some (Account.clientIdentifier account)) extras)).
Proof.
  intros Hin Ht Hc w.
  destruct (request_sends env url'
              (createRequestOptions (Some (Account.token account))
                 (Some (Account.clientIdentifier account)) extras) w) as (w' & -> & Htrace & _).
  eexists. split; [exact Htrace|]. simpl. constructor; [|constructor].
  exists account. split; [done|]. by apply requestFor_credentials.
Qed.

End Credentials.

(** Like [walk], with the leaves closed by [leaf]. *)
Ltac walkWith leaf :=
  repeat first
    [ progress intros
    | progress cbv zeta
    | solve [auto]
    | leaf
    | match goal with
      | |- relates _ (ret _) => apply relates_ret; apply _
      | |- relates _ (throw _) => apply relates_throw; apply _
      | |- relates _ (bind _ _) => apply relates_bind; [apply _|..]
      | |- relates _ (tryCatch _ _) => apply relates_tryCatch; [apply _|..]
      | |- relates _ (match ?x with _ => _ end) => destruct x
      end ].

Section CredentialsOfCalls.
Context (env : Env) (accounts : list Account.t).

Let known : Request → Prop :=
  λ r, ∃ account, account ∈ accounts ∧ carriesCredentials account r.

Lemma credentials_validateLoop accts results :
  (∀ account, account ∈ accts → account ∈ accounts) →
  relates (sendsOnly known) (validateLoop env accts results).
Proof.
  revert results. induction accts as [|account rest IH]; intros results Hsub; simpl.
  - apply relates_ret; apply _.
  - assert (account ∈ accounts) as Hin by (apply Hsub; left).
    assert (∀ results', relates (sendsOnly known) (validateLoop env rest results')) as Hrest.
    { intros results'. apply IH. intros a Ha. apply Hsub. by right. }
    unfold validateToken.
    walkWith ltac:(first [apply sendsOnly_called | by apply sendsOnly_request]).
Qed.

Lemma credentials_connectLoop account connections resource label :
  account ∈ accounts →
  relates (sendsOnly known)
    (connectLoop env connections resource (Account.token account) label
       (Some (Account.clientIdentifier account))).
Proof.
  intros Hin. induction connections; simpl;
    walkWith ltac:(by apply sendsOnly_request).
Qed.

Lemma credentials_connectAll account resources connected :
  account ∈ accounts →
  relates (sendsOnly known) (connectAll env resources account connected).
Proof.
  intros Hin. pose proof (credentials_connectLoop account) as Hloop.
  revert connected. induction resources; simpl; unfold connectToServer;
    walkWith ltac:(apply sendsOnly_called).
Qed.

Lemma credentials_loadServers refresh account :
  account ∈ accounts →
  relates (sendsOnly known) (loadServers env refresh account).
Proof.
  intros Hin. pose proof (credentials_connectAll account) as Hall.
  unfold loadServers, reloadServers, getResources.
  walkWith ltac:(first [apply sendsOnly_called | by apply sendsOnly_request
                       | apply sendsOnly_same, trace_serverCacheGet
                       | by apply sendsOnly_same]).
Qed.

Lemma credentials_getServersLoop refresh accts aggregated seen :
  (∀ account, account ∈ accts → account ∈ accounts) →
  relates (sendsOnly known) (getServersLoop env refresh accts aggregated seen).
Proof.
  revert aggregated seen. induction accts as [|account rest IH]; intros aggregated seen Hsub;
    simpl.
  - apply relates_ret; apply _.
  - assert (∀ aggregated' seen',
              relates (sendsOnly known) (getServersLoop env refresh rest aggregated' seen'))
      as Hrest.
    { intros aggregated' seen'. apply IH. intros a Ha. apply Hsub. by right. }
    pose proof (credentials_loadServers refresh account (Hsub account ltac:(left))).
    walkWith fail.
Qed.

Lemma credentials_reloadUsers server key :
  relates (sendsOnly known) (reloadUsers env accounts server key).
Proof.
  unfold reloadUsers, findTokenForAccount, findClientIdentifier.
  destruct (find _ accounts) as [account|] eqn:Hfind.
  - assert (account ∈ accounts) as Hin.
    { apply find_some in Hfind as [Hin _]. by apply list_elem_of_In. }
    change (relates (sendsOnly known)
              (bind (fetchServerUsers env server (Account.token account)
                       (Some (Account.clientIdentifier account)))
                 (λ fetched, bind (userCacheSet env key fetched) (λ _, ret fetched)))).
    unfold fetchServerUsers, localAccounts, sharedAccounts.
    walkWith ltac:(first [apply sendsOnly_called | by apply sendsOnly_request
                         | by apply sendsOnly_same]).
  - intros w. unfold bind, throw. simpl. reflexivity.
Qed.

Lemma credentials_loadUsers refresh server :
  relates (sendsOnly known) (loadUsers env accounts refresh server).
Proof.
  pose proof credentials_reloadUsers. unfold loadUsers.
  walkWith ltac:(apply sendsOnly_same, trace_userCacheGet).
Qed.

Lemma credentials_usersLoop refresh servers users :
  relates (sendsOnly known) (usersLoop env accounts refresh servers users).
Proof.
  pose proof credentials_loadUsers.
  revert users. induction servers; simpl; walkWith fail.
Qed.

Lemma credentials_getUsersAcrossServers refresh :
  relates (sendsOnly known) (getUsersAcrossServers env accounts refresh).
Proof.
  pose proof credentials_usersLoop.
  pose proof (credentials_getServersLoop refresh accounts [] ∅ ltac:(done)).
  unfold getUsersAcrossServers, getServers. walkWith fail.
Qed.

End CredentialsOfCalls.

(** X17: every request that [validateAccounts], [getServers],
    [getUsersAcrossServers] or [searchUsers] sends carries the
    credentials of one configured account: that account's token is its
    only token header, and the account's client identifier, when not
    empty, its only client identifier header; the manager sends no
    request without credentials and none with a token that is not
    configured. *)
Theorem requests_carry_account_credentials env fuseMatch accounts (w : World) :
  ∀ call,
    (call = CallValidateAccounts
     ∨ (∃ refresh, call = CallGetServers refresh)
     ∨ (∃ refresh, call = CallGetUsersAcrossServers refresh)
     ∨ (∃ query options, call = CallSearchUsers query options)) →
    ∃ events,
      trace (runCall env fuseMatch accounts call w) = trace w ++ events
      ∧ ∀ r, Sent r ∈ events →
          ∃ account,
            account ∈ accounts
            ∧ headerValues "X-Plex-Token" r
              = (if JsString.truthy (Account.token account)
                 then [Account.token account] else [])
            ∧ length (headerValues "X-Plex-Client-Identifier" r) = 1%nat
            ∧ (Account.clientIdentifier account ≠ "" →
               headerValues "X-Plex-Client-Identifier" r
               = [Account.clientIdentifier account]).
Proof.
  intros call Hcall.
  assert (sendsOnly (λ r, ∃ account, account ∈ accounts ∧ carriesCredentials account r)
            w (runCall env fuseMatch accounts call w)) as (events & Htrace & Hall).
  { destruct Hcall as [->|[[refresh ->]|[[refresh ->]|(query & options & ->)]]]; simpl.
    - by apply credentials_validateLoop.
    - by apply credentials_getServersLoop.
    - apply credentials_getUsersAcrossServers.
    - pose proof (credentials_getUsersAcrossServers env accounts) as Husers.
      revert w. fold (relates (sendsOnly (λ r, ∃ account, account ∈ accounts
                                               ∧ carriesCredentials account r))
                        (searchUsers env fuseMatch accounts query options)).
      unfold searchUsers. walkWith fail. }
  exists events. split; [done|]. intros r Hin.
  rewrite Forall_forall in Hall. apply Hall.
  unfold requestsOf. apply list_elem_of_omap. by exists (Sent r).
Qed.

(** Validating the accounts A and B: the first request carries the
    token of A, the second that of B. *)
Lemma requests_carry_account_credentials_witness :
  ∃ r1 r2,
    trace (runCall (demoEnv [] []) (matchAll 0) [accountA; accountB] CallValidateAccounts
             (newManager 300000))
    = [Called ValidateToken; Sent r1; Called ValidateToken; Sent r2]
    ∧ ∃ account,
        account ∈ [accountA; accountB]
        ∧ headerValues "X-Plex-Token" r2
          = (if JsString.truthy (Account.token account) then [Account.token account] else []).
Proof.
  destruct (requests_carry_account_credentials (demoEnv [] []) (matchAll 0)
              [accountA; accountB] (newManager 300000) CallValidateAccounts)
    as (events & Htrace & Hsent).
  - by left.
  - eexists _, _. split; [vm_compute; reflexivity|].
    assert (events = trace (runCall (demoEnv [] []) (matchAll 0) [accountA; accountB]
                              CallValidateAccounts (newManager 300000))) as ->
      by (by rewrite Htrace).
    edestruct Hsent as (account & Hin & Htoken & _).
    + vm_compute. do 3 right. left.
    + exists account. split; [exact Hin | exact Htoken].
Defined.

(** ** The authorization URL *)

Lemma encode_cons (c : ascii) (rest : string) :
  UrlEncode.encode (String c rest)
  = UrlEncode.encode (String c EmptyString) +:+ UrlEncode.encode rest.
Proof.
  simpl. destruct (UrlEncode.unreserved c); [done|]. by case_bool_decide.
Qed.

Lemma decode_encoded_char (c : ascii) (s : string) :
  decode (UrlEncode.encode (String c EmptyString) +:+ s) = String c (decode s).
Proof. destruct c as [[] [] [] [] [] [] [] []]; reflexivity. Qed.

Lemma decode_encode (s : string) : decode (UrlEncode.encode s) = s.
Proof.
  induction s as [|c s IH]; [done|]. by rewrite encode_cons, decode_encoded_char, IH.
Qed.

Lemma encode_inj (a b : string) : UrlEncode.encode a = UrlEncode.encode b → a = b.
Proof. intros Heq. by rewrite <-(decode_encode a), <-(decode_encode b), Heq. Qed.

Lemma allChars_app (p : ascii → bool) (a b : string) :
  allChars p (a +:+ b) = allChars p a && allChars p b.
Proof. induction a as [|c a IH]; simpl; [done|]. by rewrite IH, andb_assoc. Qed.

Lemma allChars_impl (p q : ascii → bool) (s : string) :
  (∀ c, p c = true → q c = true) → allChars p s = true → allChars q s = true.
Proof.
  intros Hpq. induction s as [|c s IH]; simpl; [done|].
  intros [Hc Hs]%andb_true_iff. by rewrite (Hpq c Hc), IH.
Qed.

Lemma encode_char_encoded (c : ascii) :
  allChars encodedChar (UrlEncode.encode (String c EmptyString)) = true.
Proof. destruct c as [[] [] [] [] [] [] [] []]; reflexivity. Qed.

Lemma encode_encoded (s : string) : allChars encodedChar (UrlEncode.encode s) = true.
Proof.
  induction s as [|c s IH]; [done|].
  by rewrite encode_cons, allChars_app, encode_char_encoded, IH.
Qed.

Lemma encodedChar_paramsChar (c : ascii) : encodedChar c = true → paramsChar c = true.
Proof. unfold paramsChar. by intros ->. Qed.

Lemma encodedChar_not_amp (c : ascii) :
  encodedChar c = true → negb (bool_decide (c = "&"%char)) = true.
Proof. destruct c as [[] [] [] [] [] [] [] []]; vm_compute; congruence. Qed.

Lemma join_inj (sep : ascii) (a b c d : string) :
  allChars (λ x, negb (bool_decide (x = sep))) a = true →
  allChars (λ x, negb (bool_decide (x = sep))) c = true →
  a +:+ String sep b = c +:+ String sep d → a = c ∧ b = d.
Proof.
  revert c.
  induction a as [|x a IH]; intros [|y c] Ha Hc Heq; simpl in Ha, Hc;
    rewrite ?append_cons, ?append_empty in Heq.
  - by injection Heq as ->.
  - injection Heq as <- _. by rewrite bool_decide_eq_true_2 in Hc.
  - injection Heq as -> _. by rewrite bool_decide_eq_true_2 in Ha.
  - injection Heq as -> Heq.
    apply andb_true_iff in Ha as [_ Ha]. apply andb_true_iff in Hc as [_ Hc].
    destruct (IH c Ha Hc Heq) as [-> ->]. done.
Qed.

Lemma encoded_join_inj (a b c d : string) :
  UrlEncode.encode a +:+ "&" +:+ b = UrlEncode.encode c +:+ "&" +:+ d →
  a = c ∧ b = d.
Proof.
  intros Heq. apply (join_inj "&") in Heq as [Heq ->].
  - by apply encode_inj in Heq as ->.
  - eapply allChars_impl; [apply encodedChar_not_amp | apply encode_encoded].
  - eapply allChars_impl; [apply encodedChar_not_amp | apply encode_encoded].
Qed.

Lemma params_cons (k v : string) (kv : string * string)
    (rest : list (string * string)) :
  UrlEncode.params ((k, v) :: kv :: rest)
  = UrlEncode.encode k +:+ "=" +:+ UrlEncode.encode v +:+ "&" +:+ UrlEncode.params (kv :: rest).
Proof. by destruct kv. Qed.

Lemma params_chars (kvs : list (string * string)) :
  allChars paramsChar (UrlEncode.params kvs) = true.
Proof.
  assert (∀ k v,
            allChars paramsChar (UrlEncode.encode k +:+ "=" +:+ UrlEncode.encode v) = true)
    as Hpair.
  { intros k v. rewrite !allChars_app.
    by rewrite !(allChars_impl _ _ _ encodedChar_paramsChar (encode_encoded _)). }
  induction kvs as [|[k v] rest IH]; [done|].
  destruct rest as [|kv rest]; [apply Hpair|].
  rewrite params_cons.
  rewrite !allChars_app in *.
  by rewrite !(allChars_impl _ _ _ encodedChar_paramsChar (encode_encoded _)), IH.
Qed.

Lemma auth_address (fragment : string) :
  "https://app.plex.tv/auth" +:+ "#" +:+ fragment = "https://app.plex.tv/auth#" +:+ fragment.
Proof. reflexivity. Qed.

Lemma fragment_head (e1 e2 rest : string) :
  "clientID" +:+ "=" +:+ e1 +:+ "&" +:+ ("code" +:+ "=" +:+ e2 +:+ "&" +:+ rest)
  = "clientID=" +:+ e1 +:+ "&code=" +:+ e2 +:+ ("&" +:+ rest).
Proof. reflexivity. Qed.

Lemma encode_clientID : UrlEncode.encode "clientID" = "clientID".
Proof. vm_compute. reflexivity. Qed.

Lemma encode_code : UrlEncode.encode "code" = "code".
Proof. vm_compute. reflexivity. Qed.

(** X18: the authorization URL is the fixed address followed by a
    fragment that starts with the encoded client identifier and code; two
    URLs are equal exactly when client identifier, code and product name
    are, so the URL determines the PIN it was built for and depends on
    nothing else of the pin, neither its id, its expiry nor its token;
    and the fragment is made of letters, digits and the characters
    [* - . _ + % = &] only, whatever the identifier and the code
    contain. *)
Theorem buildAuthUrl_determines_the_pin (pin pin' : PlexPin.t)
    (productName productName' : string) :
  (buildAuthUrl pin productName = buildAuthUrl pin' productName'
   ↔ PlexPin.clientIdentifier pin = PlexPin.clientIdentifier pin'
     ∧ PlexPin.code pin = PlexPin.code pin'
     ∧ productName = productName')
  ∧ ∃ fragment,
      buildAuthUrl pin productName = "https://app.plex.tv/auth#" +:+ fragment
      ∧ allChars paramsChar fragment = true
      ∧ ∃ rest, fragment
                = "clientID=" +:+ UrlEncode.encode (PlexPin.clientIdentifier pin)
                  +:+ "&code=" +:+ UrlEncode.encode (PlexPin.code pin) +:+ rest.
Proof.
  split.
  - split.
    + unfold buildAuthUrl. rewrite !params_cons.
      intros Heq.
      do 4 apply (inj (String.app _)) in Heq.
      apply encoded_join_inj in Heq as [Hcid Heq].
      do 2 apply (inj (String.app _)) in Heq.
      apply encoded_join_inj in Heq as [Hcode Heq].
      do 2 apply (inj (String.app _)) in Heq.
      apply encoded_join_inj in Heq as [Hproduct _].
      done.
    + intros (Hcid & Hcode & ->). unfold buildAuthUrl. by rewrite Hcid, Hcode.
  - unfold buildAuthUrl. eexists. split_and!.
    + apply auth_address.
    + apply params_chars.
    + rewrite 2!params_cons, encode_clientID, encode_code, fragment_head.
      eexists. reflexivity.
Qed.

(** ** The status tool *)

Section StatusTool.
Context (env : Env) (accounts : list Account.t).







End StatusTool.


